(** * eszip: the V2 binary codec, its streaming loader and its writer

    A shallow embedding of the Go package [eszip] (reader: [ParseV2],
    [parseV2WithVersion], [parseOptionsHeader], [readSection],
    [parseModulesHeader], [loadSources], [loadSection]; writer:
    [IntoBytes]; entry points: [Parse], [ParseSync], [ParseBytes],
    [ParseV2Sync]) and of [specifierToPath] of the command [eszip],
    together with the properties of the format that the specification
    states and further properties read off the code.

    Conventions.
    - A Go [[]byte] and a Go [string] are both [list byte].
    - Go [int], [uint32] and [uint8] values are [Z]; the places where the
      source truncates ([byte(x)], [uint32(x)]) are written out.
    - A [bufio.Reader] is the list of bytes not yet consumed; every read
      returns the remaining reader.
    - Fallible code returns an [outcome]: a value, an error, or [Hang]
      when the call does not return (a wait nobody ends, a loop that makes
      no progress). *)

From Stdlib Require Import ZArith Lia.
From Stdlib Require Import Strings.Byte.
From stdpp Require Import gmap list strings sorting.

Local Open Scope Z_scope.

(** ** Bytes and integers *)

Abbreviation bytes := (list byte).
Abbreviation gostring := (list byte).

#[global] Instance byte_eq_dec : EqDecision byte := Byte.byte_eq_dec.

Definition byte_of_N_total (n : N) : byte := default x00 (Byte.of_N n).

#[global] Program Instance byte_countable : Countable byte :=
  inj_countable' Byte.to_N byte_of_N_total _.
Next Obligation.
  intros b. unfold byte_of_N_total. now rewrite Byte.of_to_N.
Qed.

(** [len(b)] of a slice or a string, as a Go [int]. *)
Definition len (b : bytes) : Z := Z.of_nat (length b).

(** The numeric value of a byte, and the conversion [byte(z)], which keeps
    the low eight bits. *)
Definition byte_to_Z (b : byte) : Z := Z.of_N (Byte.to_N b).
Definition byte_of_Z (z : Z) : byte := byte_of_N_total (Z.to_N (z mod 256)).

(** A string literal as bytes. *)
Definition bs (s : string) : bytes := String.list_byte_of_string s.

(** [b[lo:hi]] for [0 <= lo <= hi <= len(b)]. *)
Definition slice (b : bytes) (lo hi : Z) : bytes :=
  take (Z.to_nat (hi - lo)) (drop (Z.to_nat lo) b).

(** [b[i]] for [0 <= i < len(b)]. *)
Definition index (b : bytes) (i : Z) : byte :=
  default x00 (b !! Z.to_nat i).

Definition MaxUint32 : Z := 4294967295.

(** [uint32(x)] for a non-negative [int]. *)
Definition to_uint32 (x : Z) : Z := x mod 4294967296.

(** [binary.BigEndian.Uint32]. *)
Definition BigEndian_Uint32 (b : bytes) : Z :=
  match b with
  | b0 :: b1 :: b2 :: b3 :: _ =>
      Z.lor (Z.lor (Z.lor (Z.shiftl (byte_to_Z b0) 24) (Z.shiftl (byte_to_Z b1) 16))
                   (Z.shiftl (byte_to_Z b2) 8))
            (byte_to_Z b3)
  | _ => 0
  end.

(** [binary.BigEndian.PutUint32] on a fresh four-byte buffer. *)
Definition BigEndian_PutUint32 (v : Z) : bytes :=
  [byte_of_Z (Z.shiftr v 24); byte_of_Z (Z.shiftr v 16);
   byte_of_Z (Z.shiftr v 8); byte_of_Z v].

(** [binary.BigEndian.AppendUint32], used by [appendU32BE]. *)
Definition appendU32BE (buf : bytes) (v : Z) : bytes :=
  buf ++ BigEndian_PutUint32 v.

(** ** Errors and outcomes *)

(** The variable part of an [InvalidV2Header] message. *)
Inductive HeaderMsg : Type :=
| MsgText (s : string)
| MsgSectionTooLarge (n : Z)
| MsgSourceSectionTooLarge (n : Z)
| MsgSourceOutOfRange (specifier : gostring)
| MsgSourceMapOutOfRange (specifier : gostring)
| MsgDuplicateSourceOffset (key : Z) (existing specifier : gostring)
| MsgDuplicateSourceMapOffset (key : Z) (existing specifier : gostring).

(** The plain [fmt.Errorf] errors of the writer. *)
Inductive WriteMsg : Type :=
| WStringTooLarge (n : Z)
| WSourceTooLarge (specifier : gostring) (n : Z)
| WSourcesOffsetOverflow (n : Z)
| WSourceMapTooLarge (specifier : gostring) (n : Z)
| WSourceMapsOffsetOverflow (n : Z)
| WNpmPackageNilID (i : Z)
| WNpmDependencyNilID (pkg req : gostring)
| WNpmRootNilID (req : gostring)
| WNpmRootUnknownID (req id : gostring)
| WNpmDependencyUnknownID (pkg req id : gostring)
| WModulesHeaderTooLarge (n : Z)
| WNpmSectionTooLarge (n : Z)
| WSourcesSectionTooLarge (n : Z)
| WSourceMapsSectionTooLarge (n : Z).

(** Modelled from the spec: the error taxonomy of section 7 (the error
    constructors [errIO], [errInvalidV2Header], ... are declared outside
    the files at hand).  [ErrNpm] stands for whatever the npm section
    parser reports. *)
Inductive Error : Type :=
| ErrIO
| ErrInvalidV1Json
| ErrInvalidV1Version
| ErrInvalidV2
| ErrInvalidV2Header (msg : HeaderMsg)
| ErrInvalidV2HeaderHash
| ErrInvalidV22OptionsHeader (msg : string)
| ErrInvalidV22OptionsHeaderHash
| ErrInvalidV2EntryKind (kind : byte) (offset : Z)
| ErrInvalidV2ModuleKind (kind : byte) (offset : Z)
| ErrInvalidV2SourceOffset (offset : Z)
| ErrInvalidV2SourceHash (specifier : gostring)
| ErrNpm (msg : string)
| ErrCanceled
| ErrWrite (msg : WriteMsg).

Inductive outcome (A : Type) : Type :=
| Ok (a : A)
| Err (e : Error)
| Hang.

Arguments Ok {A} a.
Arguments Err {A} e.
Arguments Hang {A}.

Definition obind {A B} (m : outcome A) (k : A -> outcome B) : outcome B :=
  match m with
  | Ok a => k a
  | Err e => Err e
  | Hang => Hang
  end.

Notation "'let*' x ':=' m 'in' k" := (obind m (fun x => k))
  (at level 10, x pattern, m at level 100, k at level 200).

(** ** The reader *)

Abbreviation Reader := (list byte).

(** [io.ReadFull(br, buf)] with [len(buf) = n]: the next [n] bytes, or an
    IO error when the input ends first. *)
Definition ReadFull (br : Reader) (n : Z) : outcome (bytes * Reader) :=
  if n <=? len br
  then Ok (take (Z.to_nat n) br, drop (Z.to_nat n) br)
  else Err ErrIO.

(** [io.ReadAll(br)]. *)
Definition ReadAll (br : Reader) : outcome (bytes * Reader) := Ok (br, []).

(** ** Versions and magic *)

(** Modelled from the spec: the version tags and their capability flags
    (section 4.2; [EszipVersion] and its methods are declared outside the
    files at hand). *)
Inductive EszipVersion : Type := VersionV2 | VersionV2_1 | VersionV2_2 | VersionV2_3.

#[global] Instance EszipVersion_eq_dec : EqDecision EszipVersion.
Proof. solve_decision. Defined.

Definition LatestVersion : EszipVersion := VersionV2_3.

(** Modelled from the spec: the four magic strings, 8 bytes each and
    pairwise distinct (sections 4.2 and 6.3; the constants are declared
    outside the files at hand, the values are those of the eszip format). *)
Definition MagicV2 : bytes := bs "ESZIP_V2".
Definition MagicV2_1 : bytes := bs "ESZIP2.1".
Definition MagicV2_2 : bytes := bs "ESZIP2.2".
Definition MagicV2_3 : bytes := bs "ESZIP2.3".

(** Modelled from the spec: magic to version, 1:1 (section 4.2). *)
Definition VersionFromMagic (magic : bytes) : option EszipVersion :=
  if decide (magic = MagicV2) then Some VersionV2
  else if decide (magic = MagicV2_1) then Some VersionV2_1
  else if decide (magic = MagicV2_2) then Some VersionV2_2
  else if decide (magic = MagicV2_3) then Some VersionV2_3
  else None.

(** Modelled from the spec: version to magic (section 4.2). *)
Definition ToMagic (v : EszipVersion) : bytes :=
  match v with
  | VersionV2 => MagicV2
  | VersionV2_1 => MagicV2_1
  | VersionV2_2 => MagicV2_2
  | VersionV2_3 => MagicV2_3
  end.

(** Modelled from the spec: [supports_npm] = version >= V2.1 and
    [supports_options] = version >= V2.2 (section 4.2). *)
Definition SupportsNpm (v : EszipVersion) : bool :=
  match v with VersionV2 => false | _ => true end.

Definition SupportsOptions (v : EszipVersion) : bool :=
  match v with VersionV2 | VersionV2_1 => false | _ => true end.

(** ** Checksums and options *)

(** Modelled from the spec: the checksum types with their byte values and
    digest sizes (sections 3 and 4.1; [ChecksumType] is declared outside
    the files at hand). *)
Inductive ChecksumType : Type := ChecksumNone | ChecksumSha256 | ChecksumXxh3.

#[global] Instance ChecksumType_eq_dec : EqDecision ChecksumType.
Proof. solve_decision. Defined.

(** [byte(checksum)]. *)
Definition ChecksumType_byte (c : ChecksumType) : byte :=
  match c with
  | ChecksumNone => byte_of_Z 0
  | ChecksumSha256 => byte_of_Z 1
  | ChecksumXxh3 => byte_of_Z 2
  end.

(** Modelled from the spec: [from_u8] recognizes 0..=2 only
    (section 4.1). *)
Definition ChecksumFromU8 (b : byte) : option ChecksumType :=
  if byte_to_Z b =? 0 then Some ChecksumNone
  else if byte_to_Z b =? 1 then Some ChecksumSha256
  else if byte_to_Z b =? 2 then Some ChecksumXxh3
  else None.

(** Modelled from the spec: [digest_size] is 0, 32 or 8 (section 4.1). *)
Definition DigestSize (c : ChecksumType) : Z :=
  match c with
  | ChecksumNone => 0
  | ChecksumSha256 => 32
  | ChecksumXxh3 => 8
  end.

(** Modelled from the spec: the options of an archive (section 3;
    [Options] is declared outside the files at hand).  [ChecksumSize] is a
    [uint8]; 0 means "not set". *)
Record Options : Type := mkOptions {
  Checksum : ChecksumType;
  ChecksumSize : Z
}.

(** Modelled from the spec: [effective_digest_size] = [checksum_size] if
    set, else [checksum.digest_size()] (section 3). *)
Definition GetChecksumSize (o : Options) : Z :=
  if ChecksumSize o =? 0 then DigestSize (Checksum o) else ChecksumSize o.

(** Modelled from the spec: defaults are SHA-256 for V2.0/V2.1 and None
    for V2.2+ (section 3). *)
Definition DefaultOptionsForVersion (v : EszipVersion) : Options :=
  match v with
  | VersionV2 | VersionV2_1 => mkOptions ChecksumSha256 0
  | _ => mkOptions ChecksumNone 0
  end.

(** ** Module kinds, source slots and the module map *)

(** Modelled from the spec: the module kinds and their byte values
    (section 3; [ModuleKind] is declared outside the files at hand). *)
Inductive ModuleKind : Type :=
| ModuleKindJavaScript
| ModuleKindJson
| ModuleKindJsonc
| ModuleKindOpaqueData
| ModuleKindWasm.

#[global] Instance ModuleKind_eq_dec : EqDecision ModuleKind.
Proof. solve_decision. Defined.

(** [byte(m.Kind)]. *)
Definition ModuleKind_byte (k : ModuleKind) : byte :=
  match k with
  | ModuleKindJavaScript => byte_of_Z 0
  | ModuleKindJson => byte_of_Z 1
  | ModuleKindJsonc => byte_of_Z 2
  | ModuleKindOpaqueData => byte_of_Z 3
  | ModuleKindWasm => byte_of_Z 4
  end.

(** The header frame discriminators [HeaderFrameModule],
    [HeaderFrameRedirect] and [HeaderFrameNpmSpecifier] (section 3:
    Module=0, Redirect=1, NpmSpecifier=2). *)
Definition HeaderFrameModule : byte := byte_of_Z 0.
Definition HeaderFrameRedirect : byte := byte_of_Z 1.
Definition HeaderFrameNpmSpecifier : byte := byte_of_Z 2.

Inductive SourceSlotState : Type :=
| SourceSlotPending
| SourceSlotReady
| SourceSlotTaken.

#[global] Instance SourceSlotState_eq_dec : EqDecision SourceSlotState.
Proof. solve_decision. Defined.

(** Modelled from the spec: the source slot (sections 3 and 4.3;
    [SourceSlot] is declared outside the files at hand).  A slot is
    Pending with the offset and length of its payload, Ready with its
    bytes ([None] is Go's [nil]), or Taken; the Empty slot is Ready with
    [nil].  The waiting side of the slot is in [SourceSlot_Get]. *)
Inductive SourceSlot : Type :=
| SlotPending (offset length : Z)
| SlotReady (data : option bytes)
| SlotTaken.

#[global] Instance SourceSlot_eq_dec : EqDecision SourceSlot.
Proof. solve_decision. Defined.

Definition NewEmptySourceSlot : SourceSlot := SlotReady None.
Definition NewReadySourceSlot (data : option bytes) : SourceSlot := SlotReady data.
Definition NewPendingSourceSlot (offset length : Z) : SourceSlot :=
  SlotPending offset length.

Definition State (s : SourceSlot) : SourceSlotState :=
  match s with
  | SlotPending _ _ => SourceSlotPending
  | SlotReady _ => SourceSlotReady
  | SlotTaken => SourceSlotTaken
  end.

(** The observers are read by the parser on Pending slots only. *)
Definition Offset (s : SourceSlot) : Z :=
  match s with SlotPending o _ => o | _ => 0 end.

Definition Length (s : SourceSlot) : Z :=
  match s with SlotPending _ l => l | _ => 0 end.

(** Modelled from the spec: [set_ready] moves Pending to Ready; on a slot
    that is not Pending the call is ignored (section 4.3). *)
Definition SetReady (s : SourceSlot) (data : option bytes) : SourceSlot :=
  match s with
  | SlotPending _ _ => SlotReady data
  | _ => s
  end.

(** Modelled from the spec: [get] returns the bytes of a Ready slot and
    [nil] for a Taken one; on a Pending slot it waits, and with no producer
    at work it returns the cancellation error once the context is done and
    never returns otherwise (section 4.3).  [done] tells whether the
    caller's context gets cancelled. *)
Definition SourceSlot_Get (done : bool) (s : SourceSlot) : outcome (option bytes) :=
  match s with
  | SlotReady data => Ok data
  | SlotTaken => Ok None
  | SlotPending _ _ => if done then Err ErrCanceled else Hang
  end.

(** Modelled from the spec: [take] is [get] followed by Ready -> Taken
    (section 4.3). *)
Definition SourceSlot_Take (done : bool) (s : SourceSlot)
  : outcome (option bytes * SourceSlot) :=
  match s with
  | SlotReady data => Ok (data, SlotTaken)
  | SlotTaken => Ok (None, SlotTaken)
  | SlotPending _ _ => if done then Err ErrCanceled else Hang
  end.

Record ModuleData : Type := mkModuleData {
  Kind : ModuleKind;
  Source : SourceSlot;
  SourceMap : SourceSlot
}.

(** The three entry types a module map holds. *)
Inductive EszipModule : Type :=
| EModuleData (d : ModuleData)
| EModuleRedirect (Target : gostring)
| ENpmSpecifierEntry (PackageID : Z).

(** Modelled from the spec: the insertion-ordered module map (section 3;
    [ModuleMap] is declared outside the files at hand): the entries in
    iteration order, one per specifier. *)
Abbreviation ModuleMap := (list (gostring * EszipModule)).

Definition NewModuleMap : ModuleMap := [].

Fixpoint ModuleMap_Get (m : ModuleMap) (k : gostring) : option EszipModule :=
  match m with
  | [] => None
  | (k', v) :: m' => if decide (k' = k) then Some v else ModuleMap_Get m' k
  end.

Definition ModuleMap_Keys (m : ModuleMap) : list gostring := m.*1.

Definition ModuleMap_Len (m : ModuleMap) : Z := Z.of_nat (length m).

(** [insert(k,v)]: preserves the position if the key exists and overwrites
    the value, else appends. *)
Fixpoint ModuleMap_Insert (m : ModuleMap) (k : gostring) (v : EszipModule) : ModuleMap :=
  match m with
  | [] => [(k, v)]
  | (k', v') :: m' =>
      if decide (k' = k) then (k, v) :: m' else (k', v') :: ModuleMap_Insert m' k v
  end.

Fixpoint ModuleMap_Remove (m : ModuleMap) (k : gostring) : ModuleMap :=
  match m with
  | [] => []
  | (k', v') :: m' =>
      if decide (k' = k) then m' else (k', v') :: ModuleMap_Remove m' k
  end.

(** [insert_front(k,v)]: moves to the front if the key exists, else
    prepends. *)
Definition ModuleMap_InsertFront (m : ModuleMap) (k : gostring) (v : EszipModule) : ModuleMap :=
  (k, v) :: ModuleMap_Remove m k.

(** A write through the pointer [ModuleMap.Get] returned: the entry of [k]
    is replaced by [f] of it, in place. *)
Fixpoint ModuleMap_update (m : ModuleMap) (k : gostring)
    (f : EszipModule -> EszipModule) : ModuleMap :=
  match m with
  | [] => []
  | (k', v') :: m' =>
      if decide (k' = k) then (k', f v') :: m' else (k', v') :: ModuleMap_update m' k f
  end.

(** ** The npm snapshot *)

(** A Go [map[string]V]: its entries, with distinct keys, in the order a
    [range] loop happens to enumerate them.  The language leaves that
    order open, so two lists that are permutations of each other stand for
    the same map. *)
Abbreviation gomap V := (list (gostring * V)).

Record NpmPackageID : Type := mkNpmPackageID {
  Name : gostring;
  Version : gostring
}.

(** [id.String()], [name@version]. *)
Definition NpmPackageID_String (id : NpmPackageID) : gostring :=
  Name id ++ bs "@" ++ Version id.

(** Pointers that may be [nil] are options. *)
Record NpmPackage : Type := mkNpmPackage {
  ID : option NpmPackageID;
  Dependencies : gomap (option NpmPackageID)
}.

Record NpmResolutionSnapshot : Type := mkNpmResolutionSnapshot {
  Packages : list (option NpmPackage);
  RootPackages : gomap (option NpmPackageID)
}.

(** ** The archive *)

Record EszipV2 : Type := mkEszipV2 {
  modules : ModuleMap;
  npmSnapshot : option NpmResolutionSnapshot;
  options : Options;
  version : EszipVersion
}.

(** The archive after writes to the slots of its module map: the same
    object with the map in its new state. *)
Definition withModules (e : EszipV2) (m : ModuleMap) : EszipV2 :=
  {| modules := m;
     npmSnapshot := npmSnapshot e;
     options := options e;
     version := version e |}.

(** [NewV2]. *)
Definition NewV2 : EszipV2 :=
  {| modules := NewModuleMap;
     npmSnapshot := None;
     options := DefaultOptionsForVersion LatestVersion;
     version := LatestVersion |}.

(** [e.Specifiers()]. *)
Definition Specifiers (e : EszipV2) : list gostring := ModuleMap_Keys (modules e).

(** Modelled from the spec: the public mutators of a V2 archive
    (section 8, scenarios 4 and 7, and the calls in the package's tests;
    the methods are declared outside the files at hand).  [AddModule]
    installs a module with Ready slots through [insert]; [AddImportMap]
    installs it at the front; [AddOpaqueData] adds a module of kind
    OpaqueData without a source map; [SetChecksum] selects the algorithm
    together with its digest size. *)
Definition AddModule (e : EszipV2) (specifier : gostring) (kind : ModuleKind)
    (source sourceMap : option bytes) : EszipV2 :=
  withModules e
    (ModuleMap_Insert (modules e) specifier
       (EModuleData (mkModuleData kind (NewReadySourceSlot source)
                       (NewReadySourceSlot sourceMap)))).

Definition AddRedirect (e : EszipV2) (specifier target : gostring) : EszipV2 :=
  withModules e (ModuleMap_Insert (modules e) specifier (EModuleRedirect target)).

Definition AddImportMap (e : EszipV2) (kind : ModuleKind) (specifier : gostring)
    (source : option bytes) : EszipV2 :=
  withModules e
    (ModuleMap_InsertFront (modules e) specifier
       (EModuleData (mkModuleData kind (NewReadySourceSlot source)
                       NewEmptySourceSlot))).

Definition AddOpaqueData (e : EszipV2) (specifier : gostring)
    (data : option bytes) : EszipV2 :=
  AddModule e specifier ModuleKindOpaqueData data None.

Definition SetChecksum (e : EszipV2) (checksum : ChecksumType) : EszipV2 :=
  {| modules := modules e;
     npmSnapshot := npmSnapshot e;
     options := mkOptions checksum (DigestSize checksum);
     version := version e |}.

(** A call of a public mutator, and an archive built from [NewV2] by a
    sequence of such calls. *)
Inductive Mutator : Type :=
| CallAddModule (specifier : gostring) (kind : ModuleKind)
    (source sourceMap : option bytes)
| CallAddRedirect (specifier target : gostring)
| CallAddImportMap (kind : ModuleKind) (specifier : gostring)
    (source : option bytes)
| CallAddOpaqueData (specifier : gostring) (data : option bytes)
| CallSetChecksum (checksum : ChecksumType).

Definition applyMutator (e : EszipV2) (c : Mutator) : EszipV2 :=
  match c with
  | CallAddModule specifier kind source sourceMap =>
      AddModule e specifier kind source sourceMap
  | CallAddRedirect specifier target => AddRedirect e specifier target
  | CallAddImportMap kind specifier source => AddImportMap e kind specifier source
  | CallAddOpaqueData specifier data => AddOpaqueData e specifier data
  | CallSetChecksum checksum => SetChecksum e checksum
  end.

Definition construct (calls : list Mutator) : EszipV2 :=
  foldl applyMutator NewV2 calls.

(** Stand-ins for the external functions, for running the definitions on
    concrete archives: a digest that repeats the byte sum of its input, an
    insertion sort, an npm decoder that knows the empty section only, and
    a V1 parser that rejects everything. *)
Definition sum_digest (size : nat) (data : bytes) : bytes :=
  replicate size (byte_of_Z (foldr (fun b acc => byte_to_Z b + acc) 7 data)).

Fixpoint insert_sorted {A} (less : A -> A -> bool) (x : A) (l : list A) : list A :=
  match l with
  | [] => [x]
  | y :: l' => if less y x then y :: insert_sorted less x l' else x :: l
  end.

Definition insertion_sort (A : Type) (less : A -> A -> bool) (l : list A) : list A :=
  foldr (insert_sorted less) [] l.

(** [len(m)] of a Go map. *)
Definition len_gomap {V} (m : list (gostring * V)) : Z := Z.of_nat (length m).

(** [string < string] in Go: bytewise lexicographic order. *)
Fixpoint bytes_ltb (a b : gostring) : bool :=
  match a, b with
  | [], [] => false
  | [], _ :: _ => true
  | _ :: _, [] => false
  | x :: a', y :: b' =>
      if byte_to_Z x <? byte_to_Z y then true
      else if byte_to_Z y <? byte_to_Z x then false
      else bytes_ltb a' b'
  end.

(** [maxSectionSize], 256 MB. *)
Definition maxSectionSize : Z := Z.shiftl 256 20.

(** A payload or header section as read from the archive. *)
Record Section_ : Type := mkSection {
  s_content : bytes;
  s_hash : bytes;
  s_checksum : ChecksumType
}.

Record sourceOffsetEntry : Type := mkSourceOffsetEntry {
  entryLength : Z;
  entrySpecifier : gostring
}.

(** What the completion function closes over: the reader positioned at the
    sources section, the options and the two offset indexes.  The archive
    itself is reached through its pointer, so the completion function
    works on the archive as it is when it runs. *)
Record Completion : Type := mkCompletion {
  c_br : Reader;
  c_options : Options;
  c_sourceOffsets : gmap Z sourceOffsetEntry;
  c_sourceMapOffsets : gmap Z sourceOffsetEntry
}.

(** A [context.Context] as the loader sees it: [ctx k] tells whether the
    [k]-th call of [ctx.Err()] reports cancellation. *)
Abbreviation Context := (nat -> bool).

(** The state the loader threads: the reader, the module map whose slots
    it fills, and the number of [ctx.Err()] calls made so far. *)
Record Loader : Type := mkLoader {
  l_br : Reader;
  l_modules : ModuleMap;
  l_polls : nat
}.

(** ** Concrete inputs *)

(** The remaining stand-ins: an npm decoder that knows the empty section
    only, a V1 parser that rejects everything, and a context that is never
    cancelled. *)
Definition empty_npm_decoder (content : bytes) (npmSpecifiers : gmap gostring Z)
  : outcome (option NpmResolutionSnapshot) :=
  match content with
  | [] => Ok None
  | _ => Err (ErrNpm "npm section")
  end.

Definition no_v1 (data : bytes) : outcome unit := Err ErrInvalidV1Json.

Definition never_cancelled : Context := fun _ => false.

(** An archive built the way the package's tests build theirs. *)
Definition example_calls : list Mutator :=
  [CallSetChecksum ChecksumXxh3;
   CallAddModule (bs "file:///main.js") ModuleKindJavaScript
     (Some (bs "export {}")) (Some (bs "{}"));
   CallAddRedirect (bs "file:///alias.js") (bs "file:///main.js");
   CallAddImportMap ModuleKindJson (bs "file:///import_map.json") (Some (bs "{}"));
   CallAddOpaqueData (bs "data:blob") None].

(** A Module frame of a modules header. *)
Definition example_frame (specifier : gostring)
    (sourceOffset sourceLen mapOffset mapLen : Z) : bytes :=
  BigEndian_PutUint32 (len specifier) ++ specifier ++ [HeaderFrameModule]
  ++ BigEndian_PutUint32 sourceOffset ++ BigEndian_PutUint32 sourceLen
  ++ BigEndian_PutUint32 mapOffset ++ BigEndian_PutUint32 mapLen
  ++ [ModuleKind_byte ModuleKindJavaScript].

(** What follows the magic in a V2.3 archive with an empty options header
    (so without digests), the given modules header, an empty npm section
    and the given sources; no source maps. *)
Definition example_body (header sources : bytes) : bytes :=
  BigEndian_PutUint32 0
  ++ (BigEndian_PutUint32 (len header) ++ header)
  ++ BigEndian_PutUint32 0
  ++ (BigEndian_PutUint32 (len sources) ++ sources)
  ++ BigEndian_PutUint32 0.

(** A loader about to read the three bytes of the source of [a]. *)
Definition example_loader : Loader :=
  mkLoader (bs "abc")
    [(bs "a", EModuleData (mkModuleData ModuleKindJavaScript
                             (SlotPending 0 3) (SlotReady None)))]
    0.

Definition example_offsets : gmap Z sourceOffsetEntry :=
  {[ 0 := mkSourceOffsetEntry 3 (bs "a") ]}.

(** One archive state under two enumerations of its Go maps. *)
Definition example_id (name : string) : option NpmPackageID :=
  Some (mkNpmPackageID (bs name) (bs "1.0.0")).

Definition example_snapshot (swap : bool) : NpmResolutionSnapshot :=
  let enumerate (m : gomap (option NpmPackageID)) := if swap then reverse m else m in
  mkNpmResolutionSnapshot
    [Some (mkNpmPackage (example_id "a")
             (enumerate [(bs "b", example_id "b"); (bs "c", example_id "c")]));
     Some (mkNpmPackage (example_id "b") []);
     Some (mkNpmPackage (example_id "c") [])]
    (enumerate [(bs "a@1", example_id "a"); (bs "c@1", example_id "c")]).

Definition example_npm_archive (swap : bool) : EszipV2 :=
  mkEszipV2 [(bs "m", EModuleRedirect (bs "n"))] (Some (example_snapshot swap))
    (mkOptions ChecksumNone 0) LatestVersion.

(** ** The command line: from a specifier to a file path *)

(** [strings.HasPrefix(s, prefix)]. *)
Fixpoint HasPrefix (s prefix : gostring) {struct prefix} : bool :=
  match prefix, s with
  | [], _ => true
  | p :: prefix, c :: s => bool_decide (c = p) && HasPrefix s prefix
  | _ :: _, [] => false
  end.

(** [strings.CutPrefix(s, prefix)]. *)
Definition CutPrefix (s prefix : gostring) : gostring * bool :=
  if HasPrefix s prefix then (drop (length prefix) s, true) else (s, false).

(** [strings.TrimPrefix(s, prefix)]. *)
Definition TrimPrefix (s prefix : gostring) : gostring :=
  if HasPrefix s prefix then drop (length prefix) s else s.

(** [for _, prefix := range prefixes { if after, found := ...; found
    { path = after; break } }] of [specifierToPath]. *)
Fixpoint specifierToPath_loop (path : gostring) (prefixes : list gostring) : gostring :=
  match prefixes with
  | [] => path
  | prefix :: prefixes =>
      let (after, found) := CutPrefix path prefix in
      if found then after else specifierToPath_loop path prefixes
  end.

(** The schemes [specifierToPath] strips, in the order it tries them. *)
Definition schemePrefixes : list gostring :=
  [bs "file:///"; bs "file://"; bs "https://"; bs "http://"].

(** [specifierToPath] of the command [eszip]. *)
Definition specifierToPath (specifier : gostring) : gostring :=
  let path := specifier in
  let path := specifierToPath_loop path schemePrefixes in
  let path := TrimPrefix path (bs "/") in
  path.

Section Eszip.

(** The two digest functions, from the libraries the package imports. *)
Variable sha256_sum : bytes -> bytes.
Variable xxh3_sum : bytes -> bytes.

(** [sort.Slice]: some sort by the given [less]; it is not stable. *)
Variable sort_slice : forall A : Type, (A -> A -> bool) -> list A -> list A.

(** The decoder of the npm section content and the V1 JSON parser, both
    outside the files at hand. *)
Variable parseNpmContent :
  bytes -> gmap gostring Z -> outcome (option NpmResolutionSnapshot).
Variable EszipV1 : Type.
Variable ParseV1 : bytes -> outcome EszipV1.

(** Modelled from the spec: [hash] is empty for None and a fixed-size
    digest otherwise; [verify] is always true for None and recomputes and
    compares otherwise (section 4.1). *)
Definition Hash (c : ChecksumType) (data : bytes) : bytes :=
  match c with
  | ChecksumNone => []
  | ChecksumSha256 => sha256_sum data
  | ChecksumXxh3 => xxh3_sum data
  end.

Definition Verify (c : ChecksumType) (data digest : bytes) : bool :=
  match c with
  | ChecksumNone => true
  | _ => bool_decide (Hash c data = digest)
  end.

(** Modelled from the spec: the accessors of a section (the methods of
    [Section] are declared outside the files at hand; [TotalLen] is content
    plus digest, as the package's tests have it). *)
Definition Content (s : Section_) : bytes := s_content s.
Definition ContentLen (s : Section_) : Z := len (s_content s).
Definition TotalLen (s : Section_) : Z := len (s_content s) + len (s_hash s).
Definition IsChecksumValid (s : Section_) : bool :=
  Verify (s_checksum s) (s_content s) (s_hash s).
Definition IntoContent (s : Section_) : bytes := s_content s.

(** ** The reader: sections *)

Definition readSection (br : Reader) (options : Options)
  : outcome (Section_ * Reader) :=
  let* (lengthBytes, br) := ReadFull br 4 in
  let length := BigEndian_Uint32 lengthBytes in
  if length >? maxSectionSize
  then Err (ErrInvalidV2Header (MsgSectionTooLarge length))
  else
    let* (content, br) := ReadFull br length in
    let checksumSize := GetChecksumSize options in
    let* (hash, br) :=
      (if checksumSize >? 0 then ReadFull br checksumSize else Ok ([], br)) in
    Ok (mkSection content hash (Checksum options), br).

Definition readSectionWithSize (br : Reader) (options : Options) (contentLen : Z)
  : outcome (Section_ * Reader) :=
  if contentLen >? maxSectionSize
  then Err (ErrInvalidV2Header (MsgSectionTooLarge contentLen))
  else
    let* (content, br) := ReadFull br contentLen in
    let checksumSize := GetChecksumSize options in
    let* (hash, br) :=
      (if checksumSize >? 0 then ReadFull br checksumSize else Ok ([], br)) in
    Ok (mkSection content hash (Checksum options), br).

(** ** The reader: options header *)

(** The loop over the [(option, value)] pairs of [parseOptionsHeader]. *)
Fixpoint parseOptionsHeader_pairs (content : bytes) (options : Options) : Options :=
  match content with
  | option :: value :: rest =>
      let options :=
        if byte_to_Z option =? 0 then
          match ChecksumFromU8 value with
          | Some checksum => mkOptions checksum (ChecksumSize options)
          | None => options
          end
        else if byte_to_Z option =? 1 then
          mkOptions (Checksum options) (byte_to_Z value)
        else options in
      parseOptionsHeader_pairs rest options
  | _ => options
  end.

Definition parseOptionsHeader (br : Reader) (defaults : Options)
  : outcome (Options * Reader) :=
  let preOpts := mkOptions ChecksumNone 0 in
  let* (optionsHeader, br) := readSection br preOpts in
  if negb (Z.rem (ContentLen optionsHeader) 2 =? 0)
  then Err (ErrInvalidV22OptionsHeader "options are expected to be byte tuples")
  else
    let content := Content optionsHeader in
    let options := parseOptionsHeader_pairs content defaults in
    if (GetChecksumSize options =? 0) && negb (bool_decide (Checksum options = ChecksumNone))
    then Err (ErrInvalidV22OptionsHeader "checksum size must be known")
    else if GetChecksumSize options >? 0 then
      let* (hash, br) := ReadFull br (GetChecksumSize options) in
      if negb (Verify (Checksum options) content hash)
      then Err ErrInvalidV22OptionsHeaderHash
      else Ok (options, br)
    else Ok (options, br).

(** ** The reader: modules header *)

(** [pending_or_empty]: the slot for an (offset, length) pair read from a
    Module frame. *)
Definition slotFromHeader (offset length : Z) : SourceSlot :=
  if (offset =? 0) && (length =? 0)
  then NewEmptySourceSlot
  else NewPendingSourceSlot offset length.

(** The [switch kindByte] of a Module frame. *)
Definition moduleKindFromByte (kindByte : byte) : option ModuleKind :=
  if byte_to_Z kindByte =? 0 then Some ModuleKindJavaScript
  else if byte_to_Z kindByte =? 1 then Some ModuleKindJson
  else if byte_to_Z kindByte =? 2 then Some ModuleKindJsonc
  else if byte_to_Z kindByte =? 3 then Some ModuleKindOpaqueData
  else if byte_to_Z kindByte =? 4 then Some ModuleKindWasm
  else None.

(** The loop state of [parseModulesHeader]. *)
Record HeaderState : Type := mkHeaderState {
  h_read : Z;
  h_modules : ModuleMap;
  h_npmSpecifiers : gmap gostring Z
}.

(** The [switch entryKind] of the loop of [parseModulesHeader], entered
    with [read] just past the entry kind byte. *)
Definition parseModulesHeader_entry (content : bytes) (supportsNpm : bool)
    (specifier : gostring) (entryKind : byte) (read : Z)
    (modules : ModuleMap) (npmSpecifiers : gmap gostring Z)
  : outcome HeaderState :=
  if byte_to_Z entryKind =? 0 then
    if read + 17 >? len content
    then Err (ErrInvalidV2Header (MsgText "module data"))
    else
    let sourceOffset := BigEndian_Uint32 (slice content read (read + 4)) in
    let read := read + 4 in
    let sourceLen := BigEndian_Uint32 (slice content read (read + 4)) in
    let read := read + 4 in
    let sourceMapOffset := BigEndian_Uint32 (slice content read (read + 4)) in
    let read := read + 4 in
    let sourceMapLen := BigEndian_Uint32 (slice content read (read + 4)) in
    let read := read + 4 in
    let kindByte := index content read in
    let read := read + 1 in
    match moduleKindFromByte kindByte with
    | None => Err (ErrInvalidV2ModuleKind kindByte read)
    | Some kind =>
        let source := slotFromHeader sourceOffset sourceLen in
        let sourceMap := slotFromHeader sourceMapOffset sourceMapLen in
        Ok (mkHeaderState read
              (ModuleMap_Insert modules specifier
                 (EModuleData (mkModuleData kind source sourceMap)))
              npmSpecifiers)
    end
  else if byte_to_Z entryKind =? 1 then
    if read + 4 >? len content
    then Err (ErrInvalidV2Header (MsgText "target len"))
    else
    let targetLenU := BigEndian_Uint32 (slice content read (read + 4)) in
    let read := read + 4 in
    if targetLenU >? to_uint32 (len content - read)
    then Err (ErrInvalidV2Header (MsgText "target"))
    else
    let targetLen := targetLenU in
    let target := slice content read (read + targetLen) in
    let read := read + targetLen in
    Ok (mkHeaderState read
          (ModuleMap_Insert modules specifier (EModuleRedirect target))
          npmSpecifiers)
  else if byte_to_Z entryKind =? 2 then
    if negb supportsNpm
    then Err (ErrInvalidV2EntryKind entryKind read)
    else
    if read + 4 >? len content
    then Err (ErrInvalidV2Header (MsgText "npm package id"))
    else
    let pkgID := BigEndian_Uint32 (slice content read (read + 4)) in
    let read := read + 4 in
    Ok (mkHeaderState read modules (<[specifier := pkgID]> npmSpecifiers))
  else Err (ErrInvalidV2EntryKind entryKind read).

(** One iteration of the loop of [parseModulesHeader]: one frame. *)
Definition parseModulesHeader_frame (content : bytes) (supportsNpm : bool)
    (st : HeaderState) : outcome HeaderState :=
  let read := h_read st in
  let modules := h_modules st in
  let npmSpecifiers := h_npmSpecifiers st in
  if read + 4 >? len content
  then Err (ErrInvalidV2Header (MsgText "specifier len"))
  else
  let specifierLenU := BigEndian_Uint32 (slice content read (read + 4)) in
  let read := read + 4 in
  if specifierLenU >? to_uint32 (len content - read)
  then Err (ErrInvalidV2Header (MsgText "specifier"))
  else
  let specifierLen := specifierLenU in
  let specifier := slice content read (read + specifierLen) in
  let read := read + specifierLen in
  if read + 1 >? len content
  then Err (ErrInvalidV2Header (MsgText "entry kind"))
  else
  let entryKind := index content read in
  let read := read + 1 in
  parseModulesHeader_entry content supportsNpm specifier entryKind read
    modules npmSpecifiers.

(** [for read < len(content) { ... }]; every frame takes at least five
    bytes, so [len(content)] iterations are enough. *)
Fixpoint parseModulesHeader_loop (fuel : nat) (content : bytes) (supportsNpm : bool)
    (st : HeaderState) : outcome HeaderState :=
  if h_read st <? len content then
    match fuel with
    | O => Hang
    | S fuel =>
        let* st := parseModulesHeader_frame content supportsNpm st in
        parseModulesHeader_loop fuel content supportsNpm st
    end
  else Ok st.

Definition parseModulesHeader (content : bytes) (supportsNpm : bool)
  : outcome (ModuleMap * gmap gostring Z) :=
  let* st := parseModulesHeader_loop (length content) content supportsNpm
               (mkHeaderState 0 NewModuleMap ∅) in
  Ok (h_modules st, h_npmSpecifiers st).

(** ** The reader: npm section, offset indexes, metadata *)

(** Modelled from the spec: the npm section is read as a section under the
    effective options and its digest is verified (section 4.4, step 5;
    [parseNpmSection] is declared outside the files at hand).  What the
    content decodes to is the parameter [parseNpmContent]. *)
Definition parseNpmSection (br : Reader) (options : Options)
    (npmSpecifiers : gmap gostring Z)
  : outcome (option NpmResolutionSnapshot * Reader) :=
  let* (section, br) := readSection br options in
  if negb (IsChecksumValid section)
  then Err (ErrNpm "npm snapshot hash")
  else
    let* snapshot := parseNpmContent (Content section) npmSpecifiers in
    Ok (snapshot, br).

(** One of the two blocks in the body of the offset-index loop of
    [parseV2WithVersion]; the blocks differ in the slot, the map and the
    messages. *)
Definition indexSlot (specifier : gostring) (slot : SourceSlot)
    (outOfRange : gostring -> HeaderMsg)
    (duplicate : Z -> gostring -> gostring -> HeaderMsg)
    (offsets : gmap Z sourceOffsetEntry) : outcome (gmap Z sourceOffsetEntry) :=
  if bool_decide (State slot = SourceSlotPending) && (Length slot >? 0) then
    let off := Offset slot in
    let ln := Length slot in
    if (off >? maxSectionSize) || (ln >? maxSectionSize)
    then Err (ErrInvalidV2Header (outOfRange specifier))
    else
      let key := off in
      match offsets !! key with
      | Some existing =>
          Err (ErrInvalidV2Header (duplicate key (entrySpecifier existing) specifier))
      | None => Ok (<[key := mkSourceOffsetEntry ln specifier]> offsets)
      end
  else Ok offsets.

(** [for _, specifier := range modules.Keys() { ... }] of
    [parseV2WithVersion]. *)
Fixpoint buildOffsets (modules : ModuleMap) (keys : list gostring)
    (sourceOffsets sourceMapOffsets : gmap Z sourceOffsetEntry)
  : outcome (gmap Z sourceOffsetEntry * gmap Z sourceOffsetEntry) :=
  match keys with
  | [] => Ok (sourceOffsets, sourceMapOffsets)
  | specifier :: keys =>
      match ModuleMap_Get modules specifier with
      | Some (EModuleData data) =>
          let* sourceOffsets :=
            indexSlot specifier (Source data)
              MsgSourceOutOfRange MsgDuplicateSourceOffset sourceOffsets in
          let* sourceMapOffsets :=
            indexSlot specifier (SourceMap data)
              MsgSourceMapOutOfRange MsgDuplicateSourceMapOffset sourceMapOffsets in
          buildOffsets modules keys sourceOffsets sourceMapOffsets
      | _ => buildOffsets modules keys sourceOffsets sourceMapOffsets
      end
  end.

Definition parseV2WithVersion (version : EszipVersion) (br : Reader)
  : outcome (EszipV2 * Completion) :=
  let supportsNpm := SupportsNpm version in
  let supportsOptions := SupportsOptions version in
  let options := DefaultOptionsForVersion version in
  let* (options, br) :=
    (if supportsOptions then parseOptionsHeader br options else Ok (options, br)) in
  let* (modulesHeader, br) := readSection br options in
  if negb (IsChecksumValid modulesHeader)
  then Err ErrInvalidV2HeaderHash
  else
    let* (modules, npmSpecifiers) :=
      parseModulesHeader (Content modulesHeader) supportsNpm in
    let* (npmSnapshot, br) :=
      (if supportsNpm then parseNpmSection br options npmSpecifiers
       else Ok (None, br)) in
    let* (sourceOffsets, sourceMapOffsets) :=
      buildOffsets modules (ModuleMap_Keys modules) ∅ ∅ in
    let eszip := {| modules := modules;
                    npmSnapshot := npmSnapshot;
                    options := options;
                    version := version |} in
    Ok (eszip, mkCompletion br options sourceOffsets sourceMapOffsets).

(** ** The completion task *)

(** [slotFor(entry.specifier).SetReady(data)] with [slotFor] built from
    [getSlot]: the write lands in the source or the source-map slot of the
    module data stored under [specifier]; for any other entry, or none,
    [getSlot] returns [nil] and nothing is written. *)
Definition setSlotReady (modules : ModuleMap) (specifier : gostring)
    (isSourceMap : bool) (data : option bytes) : ModuleMap :=
  ModuleMap_update modules specifier (fun mod_ =>
    match mod_ with
    | EModuleData d =>
        if isSourceMap
        then EModuleData (mkModuleData (Kind d) (Source d) (SetReady (SourceMap d) data))
        else EModuleData (mkModuleData (Kind d) (SetReady (Source d) data) (SourceMap d))
    | _ => mod_
    end).

(** [for read < totalLen { ... }] of [loadSection]. *)
Fixpoint loadSection_loop (fuel : nat) (ctx : Context) (options : Options)
    (offsets : gmap Z sourceOffsetEntry) (isSourceMap : bool)
    (totalLen read : Z) (st : Loader) : outcome unit * Loader :=
  if read <? totalLen then
    match fuel with
    | O => (Hang, st)
    | S fuel =>
        let cancelled := ctx (l_polls st) in
        let st := mkLoader (l_br st) (l_modules st) (S (l_polls st)) in
        if cancelled then (Err ErrCanceled, st)
        else
          match offsets !! read with
          | None => (Err (ErrInvalidV2SourceOffset read), st)
          | Some entry =>
              match readSectionWithSize (l_br st) options (entryLength entry) with
              | Err e => (Err e, st)
              | Hang => (Hang, st)
              | Ok (section, br) =>
                  let st := mkLoader br (l_modules st) (l_polls st) in
                  if negb (IsChecksumValid section)
                  then (Err (ErrInvalidV2SourceHash (entrySpecifier entry)), st)
                  else
                    let read := read + TotalLen section in
                    let st :=
                      mkLoader (l_br st)
                        (setSlotReady (l_modules st) (entrySpecifier entry)
                           isSourceMap (Some (IntoContent section)))
                        (l_polls st) in
                    loadSection_loop fuel ctx options offsets isSourceMap
                      totalLen read st
              end
          end
    end
  else (Ok tt, st).

(** [loadSection]; with entries of positive length every iteration moves
    [read] forward, so [totalLen] iterations are enough. *)
Definition loadSection (ctx : Context) (options : Options)
    (offsets : gmap Z sourceOffsetEntry) (isSourceMap : bool) (st : Loader)
  : outcome unit * Loader :=
  match ReadFull (l_br st) 4 with
  | Err e => (Err e, st)
  | Hang => (Hang, st)
  | Ok (lenBytes, br) =>
      let st := mkLoader br (l_modules st) (l_polls st) in
      let totalLenU := BigEndian_Uint32 lenBytes in
      if totalLenU >? maxSectionSize
      then (Err (ErrInvalidV2Header (MsgSourceSectionTooLarge totalLenU)), st)
      else
        let totalLen := totalLenU in
        loadSection_loop (Z.to_nat totalLen) ctx options offsets isSourceMap
          totalLen 0 st
  end.

(** The writes of one iteration of [resolvePendingSlots]. *)
Definition resolveModule (mod_ : EszipModule) : EszipModule :=
  match mod_ with
  | EModuleData data =>
      let source :=
        if bool_decide (State (Source data) = SourceSlotPending)
        then SetReady (Source data) None else Source data in
      let sourceMap :=
        if bool_decide (State (SourceMap data) = SourceSlotPending)
        then SetReady (SourceMap data) None else SourceMap data in
      EModuleData (mkModuleData (Kind data) source sourceMap)
  | _ => mod_
  end.

(** [resolvePendingSlots]: for every key of the map, the entry found under
    it. *)
Definition resolvePendingSlots (modules : ModuleMap) : ModuleMap :=
  foldl (fun m specifier => ModuleMap_update m specifier resolveModule)
        modules (ModuleMap_Keys modules).

Definition loadSources (ctx : Context) (br : Reader) (eszip : EszipV2)
    (options : Options)
    (sourceOffsets sourceMapOffsets : gmap Z sourceOffsetEntry)
  : outcome unit * EszipV2 :=
  let finish (r : outcome unit) (st : Loader) :=
    (r, withModules eszip (resolvePendingSlots (l_modules st))) in
  let st := mkLoader br (modules eszip) 0 in
  match loadSection ctx options sourceOffsets false st with
  | (Ok _, st) =>
      match loadSection ctx options sourceMapOffsets true st with
      | (Ok _, st) => finish (Ok tt) st
      | (r, st) => finish r st
      end
  | (r, st) => finish r st
  end.

(** The completion function returned by [parseV2WithVersion], run on the
    archive it was returned with. *)
Definition completeFn (c : Completion) (ctx : Context) (eszip : EszipV2)
  : outcome unit * EszipV2 :=
  loadSources ctx (c_br c) eszip (c_options c)
    (c_sourceOffsets c) (c_sourceMapOffsets c).

(** ** Entry points *)

Definition ParseV2 (r : Reader) : outcome (EszipV2 * Completion) :=
  let br := r in
  let* (magic, br) := ReadFull br 8 in
  match VersionFromMagic magic with
  | None => Err ErrInvalidV2
  | Some version => parseV2WithVersion version br
  end.

(** [ParseV2Sync]: [ParseV2] followed by the completion function. *)
Definition ParseV2Sync (ctx : Context) (r : Reader) : outcome EszipV2 :=
  let* (eszip, complete) := ParseV2 r in
  match completeFn complete ctx eszip with
  | (Ok _, eszip) => Ok eszip
  | (Err err, _) => Err err
  | (Hang, _) => Hang
  end.

(** [EszipUnion]: exactly one of its two pointers is set. *)
Inductive EszipUnion : Type :=
| UnionV1 (v1 : EszipV1)
| UnionV2 (v2 : EszipV2).

(** The completion function [Parse] returns: the V2 one, or the no-op of
    V1. *)
Inductive CompleteFn : Type :=
| CompleteV2 (c : Completion)
| CompleteNoop.

Definition Parse (r : Reader) : outcome (EszipUnion * CompleteFn) :=
  let br := r in
  let* (magic, br) := ReadFull br 8 in
  match VersionFromMagic magic with
  | Some version =>
      let* (eszip, complete) := parseV2WithVersion version br in
      Ok (UnionV2 eszip, CompleteV2 complete)
  | None =>
      let allData := [] ++ magic in
      let* (remaining, br) := ReadAll br in
      let allData := allData ++ remaining in
      let* eszip := ParseV1 allData in
      Ok (UnionV1 eszip, CompleteNoop)
  end.

(** [ParseSync]: [Parse] followed by the completion function, run under
    the same context; the archive is returned once its sources are
    loaded. *)
Definition ParseSync (ctx : Context) (r : Reader) : outcome EszipUnion :=
  let* (eszip, complete) := Parse r in
  match complete, eszip with
  | CompleteV2 c, UnionV2 v2 =>
      match completeFn c ctx v2 with
      | (Ok _, v2) => Ok (UnionV2 v2)
      | (Err err, _) => Err err
      | (Hang, _) => Hang
      end
  | _, _ => Ok eszip
  end.

(** [ParseBytes]. *)
Definition ParseBytes (ctx : Context) (data : bytes) : outcome EszipUnion :=
  ParseSync ctx data.

(** ** The writer *)

(** [len(b)] and [append(buf, b...)] take a [nil] slice as the empty one. *)
Definition obytes (o : option bytes) : bytes := default [] o.

Definition appendString (buf : bytes) (s : gostring) : outcome bytes :=
  if len s >? MaxUint32
  then Err (ErrWrite (WStringTooLarge (len s)))
  else Ok (appendU32BE buf (to_uint32 (len s)) ++ s).

(** The three buffers [IntoBytes] builds while it walks the module map. *)
Record WriterBufs : Type := mkWriterBufs {
  w_modulesHeader : bytes;
  w_sources : bytes;
  w_sourceMaps : bytes
}.

(** One of the two payload blocks of the [*ModuleData] case; the blocks
    differ in the buffer and the messages.  Returns the payload buffer and
    the modules header. *)
Definition appendPayload (checksum : ChecksumType)
    (tooLarge overflow : Z -> WriteMsg)
    (payload modulesHeader : bytes) (data : option bytes)
  : outcome (bytes * bytes) :=
  if len (obytes data) >? MaxUint32
  then Err (ErrWrite (tooLarge (len (obytes data))))
  else
    let dataLen := to_uint32 (len (obytes data)) in
    if dataLen >? 0 then
      if len payload >? MaxUint32
      then Err (ErrWrite (overflow (len payload)))
      else
        let dataOffset := to_uint32 (len payload) in
        let payload := payload ++ obytes data in
        let payload := payload ++ Hash checksum (obytes data) in
        let modulesHeader := appendU32BE modulesHeader dataOffset in
        let modulesHeader := appendU32BE modulesHeader dataLen in
        Ok (payload, modulesHeader)
    else
      let modulesHeader := appendU32BE modulesHeader 0 in
      let modulesHeader := appendU32BE modulesHeader 0 in
      Ok (payload, modulesHeader).

(** The body of [for _, specifier := range keys] for an entry found. *)
Definition writeModule (done : bool) (checksum : ChecksumType)
    (specifier : gostring) (mod_ : EszipModule) (w : WriterBufs)
  : outcome WriterBufs :=
  let* modulesHeader := appendString (w_modulesHeader w) specifier in
  match mod_ with
  | EModuleData m =>
      let modulesHeader := modulesHeader ++ [HeaderFrameModule] in
      let* sourceBytes := SourceSlot_Get done (Source m) in
      let* (sources, modulesHeader) :=
        appendPayload checksum (WSourceTooLarge specifier) WSourcesOffsetOverflow
          (w_sources w) modulesHeader sourceBytes in
      let* sourceMapBytes := SourceSlot_Get done (SourceMap m) in
      let* (sourceMaps, modulesHeader) :=
        appendPayload checksum (WSourceMapTooLarge specifier) WSourceMapsOffsetOverflow
          (w_sourceMaps w) modulesHeader sourceMapBytes in
      let modulesHeader := modulesHeader ++ [ModuleKind_byte (Kind m)] in
      Ok (mkWriterBufs modulesHeader sources sourceMaps)
  | EModuleRedirect target =>
      let modulesHeader := modulesHeader ++ [HeaderFrameRedirect] in
      let* modulesHeader := appendString modulesHeader target in
      Ok (mkWriterBufs modulesHeader (w_sources w) (w_sourceMaps w))
  | ENpmSpecifierEntry packageID =>
      let modulesHeader := modulesHeader ++ [HeaderFrameNpmSpecifier] in
      let modulesHeader := appendU32BE modulesHeader packageID in
      Ok (mkWriterBufs modulesHeader (w_sources w) (w_sourceMaps w))
  end.

Fixpoint writeModules (done : bool) (checksum : ChecksumType)
    (modules : ModuleMap) (keys : list gostring) (w : WriterBufs)
  : outcome WriterBufs :=
  match keys with
  | [] => Ok w
  | specifier :: keys =>
      match ModuleMap_Get modules specifier with
      | None => writeModules done checksum modules keys w
      | Some mod_ =>
          let* w := writeModule done checksum specifier mod_ w in
          writeModules done checksum modules keys w
      end
  end.

(** A package whose pointers the validation loops found set. *)
Record CheckedPackage : Type := mkCheckedPackage {
  p_id : NpmPackageID;
  p_deps : gomap NpmPackageID
}.

(** [for req, depID := range pkg.Dependencies { if depID == nil ... }]. *)
Fixpoint validateDependencies (pkg : gostring)
    (deps : gomap (option NpmPackageID)) : outcome (gomap NpmPackageID) :=
  match deps with
  | [] => Ok []
  | (req, None) :: _ => Err (ErrWrite (WNpmDependencyNilID pkg req))
  | (req, Some depID) :: deps =>
      let* deps := validateDependencies pkg deps in
      Ok ((req, depID) :: deps)
  end.

(** [for i, pkg := range npmSnapshot.Packages { ... }]. *)
Fixpoint validatePackages (packages : list (option NpmPackage)) (i : Z)
  : outcome (list CheckedPackage) :=
  match packages with
  | [] => Ok []
  | pkg :: packages =>
      match pkg with
      | Some {| ID := Some id; Dependencies := deps |} =>
          let* deps := validateDependencies (NpmPackageID_String id) deps in
          let* packages := validatePackages packages (i + 1) in
          Ok (mkCheckedPackage id deps :: packages)
      | _ => Err (ErrWrite (WNpmPackageNilID i))
      end
  end.

(** [for req, id := range npmSnapshot.RootPackages { if id == nil ... }]. *)
Fixpoint validateRoots (roots : gomap (option NpmPackageID))
  : outcome (gomap NpmPackageID) :=
  match roots with
  | [] => Ok []
  | (req, None) :: _ => Err (ErrWrite (WNpmRootNilID req))
  | (req, Some id) :: roots =>
      let* roots := validateRoots roots in
      Ok ((req, id) :: roots)
  end.

(** [for i, pkg := range packages { idToIndex[pkg.ID.String()] = uint32(i) }]. *)
Fixpoint buildIdToIndex (packages : list CheckedPackage) (i : Z)
    (idToIndex : gmap gostring Z) : gmap gostring Z :=
  match packages with
  | [] => idToIndex
  | pkg :: packages =>
      buildIdToIndex packages (i + 1)
        (<[NpmPackageID_String (p_id pkg) := to_uint32 i]> idToIndex)
  end.

(** The [(req, id)] pairs collected from a map of requirements, sorted by
    requirement. *)
Definition sortedRequirements (m : gomap NpmPackageID)
  : list (gostring * gostring) :=
  sort_slice _ (fun a b => bytes_ltb a.1 b.1)
    (map (fun kv => (kv.1, NpmPackageID_String kv.2)) m).

(** [for _, rp := range rootPkgs { ... }]. *)
Fixpoint writeRoots (idToIndex : gmap gostring Z)
    (rootPkgs : list (gostring * gostring)) (modulesHeader : bytes)
  : outcome bytes :=
  match rootPkgs with
  | [] => Ok modulesHeader
  | rp :: rootPkgs =>
      match idToIndex !! rp.2 with
      | None => Err (ErrWrite (WNpmRootUnknownID rp.1 rp.2))
      | Some idx =>
          let* modulesHeader := appendString modulesHeader rp.1 in
          let modulesHeader := modulesHeader ++ [HeaderFrameNpmSpecifier] in
          let modulesHeader := appendU32BE modulesHeader idx in
          writeRoots idToIndex rootPkgs modulesHeader
      end
  end.

(** [for _, dep := range deps { ... }]. *)
Fixpoint writeDependencies (idToIndex : gmap gostring Z) (pkg : gostring)
    (deps : list (gostring * gostring)) (npmBytes : bytes) : outcome bytes :=
  match deps with
  | [] => Ok npmBytes
  | dep :: deps =>
      match idToIndex !! dep.2 with
      | None => Err (ErrWrite (WNpmDependencyUnknownID pkg dep.1 dep.2))
      | Some idx =>
          let* npmBytes := appendString npmBytes dep.1 in
          let npmBytes := appendU32BE npmBytes idx in
          writeDependencies idToIndex pkg deps npmBytes
      end
  end.

(** [for _, pkg := range packages { ... }]. *)
Fixpoint writePackages (idToIndex : gmap gostring Z)
    (packages : list CheckedPackage) (npmBytes : bytes) : outcome bytes :=
  match packages with
  | [] => Ok npmBytes
  | pkg :: packages =>
      let* npmBytes := appendString npmBytes (NpmPackageID_String (p_id pkg)) in
      let npmBytes := appendU32BE npmBytes (to_uint32 (len_gomap (p_deps pkg))) in
      let deps := sortedRequirements (p_deps pkg) in
      let* npmBytes :=
        writeDependencies idToIndex (NpmPackageID_String (p_id pkg)) deps npmBytes in
      writePackages idToIndex packages npmBytes
  end.

(** The block [if npmSnapshot != nil && version.SupportsNpm() { ... }]:
    returns the modules header with the root frames appended, and the npm
    section content. *)
Definition writeNpm (npmSnapshot : NpmResolutionSnapshot) (modulesHeader : bytes)
  : outcome (bytes * bytes) :=
  let* checked := validatePackages (Packages npmSnapshot) 0 in
  let* roots := validateRoots (RootPackages npmSnapshot) in
  let packages :=
    sort_slice _
      (fun a b => bytes_ltb (NpmPackageID_String (p_id a)) (NpmPackageID_String (p_id b)))
      checked in
  let idToIndex := buildIdToIndex packages 0 ∅ in
  let rootPkgs := sortedRequirements roots in
  let* modulesHeader := writeRoots idToIndex rootPkgs modulesHeader in
  let* npmBytes := writePackages idToIndex packages [] in
  Ok (modulesHeader, npmBytes).

(** [IntoBytes]; [done] tells whether the caller's context gets
    cancelled. *)
Definition IntoBytes (done : bool) (e : EszipV2) : outcome bytes :=
  let options := options e in
  let version := version e in
  let npmSnapshot := npmSnapshot e in
  let checksum := Checksum options in
  let checksumSize := GetChecksumSize options in
  let result := [] in
  let magic := ToMagic version in
  let result := result ++ magic in
  let result :=
    if SupportsOptions version then
      let optionsHeaderContent :=
        [byte_of_Z 0; ChecksumType_byte checksum; byte_of_Z 1; byte_of_Z checksumSize] in
      let optionsHeaderLenBytes :=
        BigEndian_PutUint32 (to_uint32 (len optionsHeaderContent)) in
      let result := result ++ optionsHeaderLenBytes in
      let result := result ++ optionsHeaderContent in
      let optionsHash := Hash checksum optionsHeaderContent in
      result ++ optionsHash
    else result in
  let keys := ModuleMap_Keys (modules e) in
  let* w := writeModules done checksum (modules e) keys (mkWriterBufs [] [] []) in
  let modulesHeader := w_modulesHeader w in
  let sources := w_sources w in
  let sourceMaps := w_sourceMaps w in
  let* (modulesHeader, npmBytes) :=
    match npmSnapshot with
    | Some npmSnapshot =>
        if SupportsNpm version then writeNpm npmSnapshot modulesHeader
        else Ok (modulesHeader, [])
    | None => Ok (modulesHeader, [])
    end in
  if len modulesHeader >? MaxUint32
  then Err (ErrWrite (WModulesHeaderTooLarge (len modulesHeader)))
  else
  let modulesHeaderLenBytes := BigEndian_PutUint32 (to_uint32 (len modulesHeader)) in
  let result := result ++ modulesHeaderLenBytes in
  let result := result ++ modulesHeader in
  let modulesHash := Hash checksum modulesHeader in
  let result := result ++ modulesHash in
  let* result :=
    (if SupportsNpm version then
       if len npmBytes >? MaxUint32
       then Err (ErrWrite (WNpmSectionTooLarge (len npmBytes)))
       else
         let npmLenBytes := BigEndian_PutUint32 (to_uint32 (len npmBytes)) in
         let result := result ++ npmLenBytes in
         let result := result ++ npmBytes in
         Ok (result ++ Hash checksum npmBytes)
     else Ok result) in
  if len sources >? MaxUint32
  then Err (ErrWrite (WSourcesSectionTooLarge (len sources)))
  else
  let sourcesLenBytes := BigEndian_PutUint32 (to_uint32 (len sources)) in
  let result := result ++ sourcesLenBytes in
  let result := result ++ sources in
  if len sourceMaps >? MaxUint32
  then Err (ErrWrite (WSourceMapsSectionTooLarge (len sourceMaps)))
  else
  let sourceMapsLenBytes := BigEndian_PutUint32 (to_uint32 (len sourceMaps)) in
  let result := result ++ sourceMapsLenBytes in
  let result := result ++ sourceMaps in
  Ok result.

(** ** Notions used in the statements *)

(** The [(option, value)] pairs the options loop has no case for: an
    option byte other than 0 and 1, or a checksum type beyond 0..=2. *)
Definition ignoredPair (option value : byte) : Prop :=
  (byte_to_Z option <> 0 /\ byte_to_Z option <> 1) \/
  (byte_to_Z option = 0 /\ 2 < byte_to_Z value).

(** What the completion task may do to a slot: leave it, or, if it is
    Pending, make it Ready. *)
Definition slot_step (s s' : SourceSlot) : Prop :=
  match s with
  | SlotPending _ _ => s' = s \/ exists data, s' = SlotReady data
  | _ => s' = s
  end.

(** The same for an entry of the module map: kind, redirect target and
    package index stay. *)
Definition entry_step (e e' : EszipModule) : Prop :=
  match e, e' with
  | EModuleData d, EModuleData d' =>
      Kind d' = Kind d /\
      slot_step (Source d) (Source d') /\
      slot_step (SourceMap d) (SourceMap d')
  | EModuleRedirect target, EModuleRedirect target' => target' = target
  | ENpmSpecifierEntry id, ENpmSpecifierEntry id' => id' = id
  | _, _ => False
  end.

(** ... and for a module map: the same specifiers in the same order. *)
Definition map_step (m m' : ModuleMap) : Prop :=
  Forall2 (fun kv kv' => kv'.1 = kv.1 /\ entry_step kv.2 kv'.2) m m'.

(** The metadata of an entry: what is observable without its payload. *)
Inductive EntryMeta : Type :=
| MetaModule (kind : ModuleKind)
| MetaRedirect (target : gostring)
| MetaNpmSpecifier (packageID : Z).

Definition entryMeta (e : EszipModule) : EntryMeta :=
  match e with
  | EModuleData d => MetaModule (Kind d)
  | EModuleRedirect target => MetaRedirect target
  | ENpmSpecifierEntry id => MetaNpmSpecifier id
  end.

(** The slot of a module data the loader pass [isSourceMap] writes to. *)
Definition slotOf (isSourceMap : bool) (d : ModuleData) : SourceSlot :=
  if isSourceMap then SourceMap d else Source d.

(** Two presentations of one archive state: everything is equal except
    the order in which the Go maps of the npm snapshot are enumerated. *)
Definition samePackage (p q : option NpmPackage) : Prop :=
  match p, q with
  | None, None => True
  | Some p, Some q => ID p = ID q /\ Dependencies p ≡ₚ Dependencies q
  | _, _ => False
  end.

Definition sameSnapshot (s t : option NpmResolutionSnapshot) : Prop :=
  match s, t with
  | None, None => True
  | Some s, Some t =>
      Forall2 samePackage (Packages s) (Packages t) /\
      RootPackages s ≡ₚ RootPackages t
  | _, _ => False
  end.

Definition sameState (e1 e2 : EszipV2) : Prop :=
  modules e1 = modules e2 /\
  options e1 = options e2 /\
  version e1 = version e2 /\
  sameSnapshot (npmSnapshot e1) (npmSnapshot e2).

(** The keys of a Go map are distinct. *)
Definition gomapOk {V} (m : gomap V) : Prop := NoDup m.*1.

Definition snapshotOk (s : option NpmResolutionSnapshot) : Prop :=
  match s with
  | None => True
  | Some s =>
      gomapOk (RootPackages s) /\
      Forall (fun p => match p with
                       | Some p => gomapOk (Dependencies p)
                       | None => True
                       end) (Packages s)
  end.

(** The bytes a serialization produced, if it produced any. *)
Definition emitted (r : outcome bytes) : option bytes :=
  match r with
  | Ok b => Some b
  | _ => None
  end.

(** Two outcomes that agree: both values, related by [R], or both errors,
    or both hanging. *)
Definition agree {A} (R : A -> A -> Prop) (r1 r2 : outcome A) : Prop :=
  match r1, r2 with
  | Ok a, Ok b => R a b
  | Err _, Err _ => True
  | Hang, Hang => True
  | _, _ => False
  end.

(** Two validated packages that differ in the enumeration of their
    dependencies only. *)
Definition sameChecked (p q : CheckedPackage) : Prop :=
  p_id p = p_id q /\ p_deps p ≡ₚ p_deps q /\ gomapOk (p_deps p).

(** ** The layout of section 6.1, for the round trip *)

(** The bytes held by a Ready slot, and by the source ([which = false]) or
    source-map ([which = true]) slot of an entry. *)
Definition slotData (s : SourceSlot) : bytes :=
  match s with
  | SlotReady data => obytes data
  | _ => []
  end.

Definition entryData (which : bool) (e : EszipModule) : bytes :=
  match e with
  | EModuleData d => slotData (slotOf which d)
  | _ => []
  end.

(** [sources_content] is the concatenation of [content || digest] for
    every module data with a nonzero length, in first-seen order. *)
Definition payloadEntry (c : ChecksumType) (b : bytes) : bytes :=
  if len b >? 0 then b ++ Hash c b else [].

Definition payloadBytes (c : ChecksumType) (which : bool) (m : ModuleMap) : bytes :=
  foldr (fun kv acc => payloadEntry c (entryData which kv.2) ++ acc) [] m.

(** The offset at which the next payload entry lands. *)
Definition advance (c : ChecksumType) (off : Z) (b : bytes) : Z :=
  off + len (payloadEntry c b).

(** The [(offset, length)] pair of a Module frame: where the payload
    lands, or [(0, 0)] when there is none. *)
Definition frameField (off : Z) (b : bytes) : bytes :=
  if len b >? 0
  then BigEndian_PutUint32 off ++ BigEndian_PutUint32 (len b)
  else BigEndian_PutUint32 0 ++ BigEndian_PutUint32 0.

(** The body of a frame, after the specifier and the entry kind. *)
Definition frameBody (e : EszipModule) (so mo : Z) : bytes :=
  match e with
  | EModuleData d =>
      frameField so (entryData false e) ++ frameField mo (entryData true e)
      ++ [ModuleKind_byte (Kind d)]
  | EModuleRedirect target => BigEndian_PutUint32 (len target) ++ target
  | ENpmSpecifierEntry id => BigEndian_PutUint32 id
  end.

Definition frameKind (e : EszipModule) : byte :=
  match e with
  | EModuleData _ => HeaderFrameModule
  | EModuleRedirect _ => HeaderFrameRedirect
  | ENpmSpecifierEntry _ => HeaderFrameNpmSpecifier
  end.

(** [specifier_len | specifier_bytes | entry_kind | body]. *)
Definition frameBytes (k : gostring) (e : EszipModule) (so mo : Z) : bytes :=
  BigEndian_PutUint32 (len k) ++ k ++ frameKind e :: frameBody e so mo.

(** [modules_content]: the frames of the entries in map order, [so] and
    [mo] being the lengths of the two payload sections so far. *)
Fixpoint headerBytes (c : ChecksumType) (m : ModuleMap) (so mo : Z) : bytes :=
  match m with
  | [] => []
  | (k, e) :: m' =>
      frameBytes k e so mo
      ++ headerBytes c m' (advance c so (entryData false e))
           (advance c mo (entryData true e))
  end.

(** The three sections an archive serializes to are each within [bound]
    bytes. *)
Definition sectionsWithin (e : EszipV2) (bound : Z) : Prop :=
  len (headerBytes (Checksum (options e)) (modules e) 0 0) <= bound /\
  len (payloadBytes (Checksum (options e)) false (modules e)) <= bound /\
  len (payloadBytes (Checksum (options e)) true (modules e)) <= bound.

(** A slot as the parse leaves it ([loaded = false]) and as the loader
    leaves it ([loaded = true]), for a payload [b] at offset [off]. *)
Definition stagedSlot (loaded : bool) (off : Z) (b : bytes) : SourceSlot :=
  if len b >? 0
  then (if loaded then SlotReady (Some b) else SlotPending off (len b))
  else SlotReady None.

Definition stagedEntry (loaded : bool -> bool) (e : EszipModule) (so mo : Z)
  : EszipModule :=
  match e with
  | EModuleData d =>
      EModuleData
        (mkModuleData (Kind d)
           (stagedSlot (loaded false) so (entryData false e))
           (stagedSlot (loaded true) mo (entryData true e)))
  | _ => e
  end.

Fixpoint staged (c : ChecksumType) (loaded : bool -> bool) (m : ModuleMap)
    (so mo : Z) : ModuleMap :=
  match m with
  | [] => []
  | (k, e) :: m' =>
      (k, stagedEntry loaded e so mo)
      :: staged c loaded m' (advance c so (entryData false e))
           (advance c mo (entryData true e))
  end.

(** What an archive shows of an entry once its payload is there: kind and
    the bytes of source and source map, or the redirect target. *)
Inductive EntryView : Type :=
| ViewModule (kind : ModuleKind) (source sourceMap : outcome bytes)
| ViewRedirect (target : gostring)
| ViewNpmSpecifier (packageID : Z).

Definition slotView (s : SourceSlot) : outcome bytes :=
  let* data := SourceSlot_Get false s in Ok (obytes data).

Definition entryView (e : EszipModule) : EntryView :=
  match e with
  | EModuleData d => ViewModule (Kind d) (slotView (Source d)) (slotView (SourceMap d))
  | EModuleRedirect target => ViewRedirect target
  | ENpmSpecifierEntry id => ViewNpmSpecifier id
  end.

(** Equivalence of archives under specifiers, kinds, sources, source maps,
    redirects and npm snapshot. *)
Definition equivalent (a b : EszipV2) : Prop :=
  Specifiers a = Specifiers b /\
  (forall specifier,
     entryView <$> ModuleMap_Get (modules a) specifier =
     entryView <$> ModuleMap_Get (modules b) specifier) /\
  npmSnapshot a = npmSnapshot b.

(** What the public mutators keep true of an archive made by [NewV2]. *)
Definition readyEntry (e : EszipModule) : Prop :=
  match e with
  | EModuleData d =>
      (exists s, Source d = SlotReady s) /\ (exists s, SourceMap d = SlotReady s)
  | EModuleRedirect _ => True
  | ENpmSpecifierEntry _ => False
  end.

Definition constructed (e : EszipV2) : Prop :=
  version e = LatestVersion /\
  npmSnapshot e = None /\
  GetChecksumSize (options e) = DigestSize (Checksum (options e)) /\
  (ChecksumSize (options e) = 0 \/
   ChecksumSize (options e) = DigestSize (Checksum (options e))) /\
  NoDup (ModuleMap_Keys (modules e)) /\
  Forall (fun kv => readyEntry kv.2) (modules e).

(** A section with its digest: [len | content | digest]. *)
Definition sectionBytes (c : ChecksumType) (content : bytes) : bytes :=
  BigEndian_PutUint32 (len content) ++ content ++ Hash c content.

(** The options payload [[0, checksum_type, 1, checksum_size]]. *)
Definition optionsContent (o : Options) : bytes :=
  [byte_of_Z 0; ChecksumType_byte (Checksum o); byte_of_Z 1;
   byte_of_Z (GetChecksumSize o)].

(** The on-disk layout of a V2.2+ archive without npm snapshot: magic,
    options, modules header, empty npm section, sources, source maps. *)
Definition archiveBytes (e : EszipV2) : bytes :=
  let c := Checksum (options e) in
  ToMagic (version e)
  ++ sectionBytes c (optionsContent (options e))
  ++ sectionBytes c (headerBytes c (modules e) 0 0)
  ++ sectionBytes c []
  ++ (BigEndian_PutUint32 (len (payloadBytes c false (modules e)))
      ++ payloadBytes c false (modules e))
  ++ (BigEndian_PutUint32 (len (payloadBytes c true (modules e)))
      ++ payloadBytes c true (modules e)).

(** The offset index holds, for every payload entry of the list laid out
    from offset [off] on, the entry's length and specifier under the
    entry's offset. *)
Fixpoint covers (index : gmap Z sourceOffsetEntry) (c : ChecksumType)
    (which : bool) (m : ModuleMap) (off : Z) : Prop :=
  match m with
  | [] => True
  | (k, e) :: m' =>
      (0 < len (entryData which e) ->
       index !! off = Some (mkSourceOffsetEntry (len (entryData which e)) k)) /\
      covers index c which m' (advance c off (entryData which e))
  end.

(** The loader pass [which] done on top of [loaded]. *)
Definition afterPass (which : bool) (loaded : bool -> bool) : bool -> bool :=
  fun w => if Bool.eqb w which then true else loaded w.

(** The archive and the completion data that [parseV2WithVersion] returns
    on the serialized form of [e], given the two offset indexes. *)
Definition parsedArchive (e : EszipV2) : EszipV2 :=
  let c := Checksum (options e) in
  {| modules := staged c (fun _ => false) (modules e) 0 0;
     npmSnapshot := None;
     options := mkOptions c (DigestSize c);
     version := LatestVersion |}.

Definition parsedCompletion (e : EszipV2)
    (offsets : gmap Z sourceOffsetEntry * gmap Z sourceOffsetEntry) : Completion :=
  let c := Checksum (options e) in
  mkCompletion
    ((BigEndian_PutUint32 (len (payloadBytes c false (modules e)))
      ++ payloadBytes c false (modules e))
     ++ (BigEndian_PutUint32 (len (payloadBytes c true (modules e)))
         ++ payloadBytes c true (modules e)))
    (mkOptions c (DigestSize c)) offsets.1 offsets.2.

(** ** Frames of a modules header, field by field *)

(** The three kinds of frame as the writer lays them out:
    [specifier | 0 | source offset, length | source-map offset, length | kind],
    [specifier | 1 | target] and [specifier | 2 | package index], every
    string with its length in front. *)
Definition moduleFrame (specifier : gostring)
    (sourceOffset sourceLen sourceMapOffset sourceMapLen : Z) (kindByte : byte)
  : bytes :=
  BigEndian_PutUint32 (len specifier) ++ specifier
  ++ HeaderFrameModule
     :: (BigEndian_PutUint32 sourceOffset ++ BigEndian_PutUint32 sourceLen
         ++ BigEndian_PutUint32 sourceMapOffset ++ BigEndian_PutUint32 sourceMapLen
         ++ [kindByte]).

Definition redirectFrame (specifier target : gostring) : bytes :=
  BigEndian_PutUint32 (len specifier) ++ specifier
  ++ HeaderFrameRedirect :: (BigEndian_PutUint32 (len target) ++ target).

Definition npmSpecifierFrame (specifier : gostring) (packageID : Z) : bytes :=
  BigEndian_PutUint32 (len specifier) ++ specifier
  ++ HeaderFrameNpmSpecifier :: BigEndian_PutUint32 packageID.

(** A frame of one of the three kinds, with every field in its range. *)
Definition wellFormedFrame (supportsNpm : bool) (frame : bytes) : Prop :=
  (exists specifier so sl mo ml kind,
     0 <= so <= MaxUint32 /\ 0 <= sl <= MaxUint32 /\
     0 <= mo <= MaxUint32 /\ 0 <= ml <= MaxUint32 /\
     frame = moduleFrame specifier so sl mo ml (ModuleKind_byte kind)) \/
  (exists specifier target, frame = redirectFrame specifier target) \/
  (supportsNpm = true /\
   exists specifier id,
     0 <= id <= MaxUint32 /\ frame = npmSpecifierFrame specifier id).

(** The errors [parseModulesHeader] reports, each with an offset inside
    the content it was given. *)
Definition headerError (content : bytes) (e : Error) : Prop :=
  match e with
  | ErrInvalidV2Header (MsgText _) => True
  | ErrInvalidV2EntryKind _ offset => 5 <= offset <= len content
  | ErrInvalidV2ModuleKind _ offset => 22 <= offset <= len content
  | _ => False
  end.

(** The errors the completion function reports. *)
Definition loaderError (e : Error) : Prop :=
  match e with
  | ErrIO | ErrCanceled
  | ErrInvalidV2Header (MsgSourceSectionTooLarge _)
  | ErrInvalidV2SourceOffset _ | ErrInvalidV2SourceHash _ => True
  | _ => False
  end.

(** ** Closed npm snapshots *)

(** The snapshot lists a package whose ID prints as [key]. *)
Definition listsPackage (snapshot : NpmResolutionSnapshot) (key : gostring) : Prop :=
  exists pkg id,
    Some pkg ∈ Packages snapshot /\ ID pkg = Some id /\ NpmPackageID_String id = key.

(** A requirement whose ID is set and names a package of the snapshot. *)
Definition resolvedIn (snapshot : NpmResolutionSnapshot)
    (requirement : gostring * option NpmPackageID) : Prop :=
  exists id,
    requirement.2 = Some id /\ listsPackage snapshot (NpmPackageID_String id).

(** No package, package ID, dependency or root is [nil], and every
    dependency and every root names a package of the snapshot. *)
Definition closedSnapshot (snapshot : NpmResolutionSnapshot) : Prop :=
  Forall (fun entry =>
            exists pkg id,
              entry = Some pkg /\ ID pkg = Some id /\
              Forall (resolvedIn snapshot) (Dependencies pkg))
         (Packages snapshot) /\
  Forall (resolvedIn snapshot) (RootPackages snapshot).

(** ** What the loader put into a slot *)

(** [content] is payload the loader read for [specifier] in the pass
    [which] (sources, or source maps if [which]): an entry of the pass's
    offset index names the specifier, and the bytes stand in the input the
    completion function reads, followed by a digest that verifies them. *)
Definition loadedPayload (c : Completion) (which : bool) (specifier : gostring)
    (content : bytes) : Prop :=
  exists offset entry before digest rest,
    (if which then c_sourceMapOffsets c else c_sourceOffsets c) !! offset = Some entry /\
    entrySpecifier entry = specifier /\
    c_br c = before ++ content ++ digest ++ rest /\
    Verify (Checksum (c_options c)) content digest = true.

(** The module map [m] is [m0] after slot writes of the loader only:
    the same entries, and every slot that holds bytes held them in [m0]
    already or holds payload the loader read for it. *)
Definition filledOnly (c : Completion) (m0 m : ModuleMap) : Prop :=
  map_step m0 m /\
  forall specifier d' which content,
    ModuleMap_Get m specifier = Some (EModuleData d') ->
    slotOf which d' = SlotReady (Some content) ->
    (exists d,
       ModuleMap_Get m0 specifier = Some (EModuleData d) /\
       slotOf which d = SlotReady (Some content)) \/
    loadedPayload c which specifier content.

(** * Properties *)

(** ** Bytes, integers and the reader *)

Lemma byte_to_Z_range (b : byte) : 0 <= byte_to_Z b < 256.
Proof.
  unfold byte_to_Z. pose proof (Byte.to_N_bounded b). lia.
Qed.

Lemma byte_to_of_Z (z : Z) : byte_to_Z (byte_of_Z z) = z mod 256.
Proof.
  unfold byte_to_Z, byte_of_Z, byte_of_N_total.
  pose proof (Z.mod_pos_bound z 256 eq_refl) as Hz.
  destruct (Byte.of_N (Z.to_N (z mod 256))) as [b|] eqn:E.
  - apply Byte.to_of_N in E. simpl. rewrite E. lia.
  - apply Byte.of_N_None_iff in E. lia.
Qed.

Lemma byte_of_to_Z (b : byte) : byte_of_Z (byte_to_Z b) = b.
Proof.
  pose proof (byte_to_Z_range b) as Hb.
  unfold byte_of_Z, byte_of_N_total.
  rewrite Z.mod_small by lia.
  unfold byte_to_Z. rewrite N2Z.id, Byte.of_to_N. reflexivity.
Qed.

Lemma byte_to_of_Z_small (z : Z) : 0 <= z < 256 -> byte_to_Z (byte_of_Z z) = z.
Proof. intros. rewrite byte_to_of_Z. apply Z.mod_small. lia. Qed.

Lemma len_nonneg (b : bytes) : 0 <= len b.
Proof. unfold len. lia. Qed.

Lemma len_nil : len [] = 0.
Proof. reflexivity. Qed.

Lemma len_app (a b : bytes) : len (a ++ b) = len a + len b.
Proof. unfold len. rewrite length_app. lia. Qed.

Lemma len_cons (x : byte) (b : bytes) : len (x :: b) = 1 + len b.
Proof. unfold len. simpl. lia. Qed.

Lemma len_PutUint32 (v : Z) : len (BigEndian_PutUint32 v) = 4.
Proof. reflexivity. Qed.

Lemma to_uint32_small (x : Z) : 0 <= x <= MaxUint32 -> to_uint32 x = x.
Proof. unfold to_uint32, MaxUint32. intros. apply Z.mod_small. lia. Qed.

Lemma Uint32_testbit (b0 b1 b2 b3 : Z) (n : Z) :
  0 <= n ->
  Z.testbit (Z.lor (Z.lor (Z.lor (Z.shiftl b0 24) (Z.shiftl b1 16)) (Z.shiftl b2 8)) b3) n
  = Z.testbit b0 (n - 24) || Z.testbit b1 (n - 16) || Z.testbit b2 (n - 8) || Z.testbit b3 n.
Proof.
  intros Hn. rewrite !Z.lor_spec, !Z.shiftl_spec by lia. reflexivity.
Qed.

Lemma byte_testbit (v k n : Z) :
  0 <= k ->
  Z.testbit (byte_to_Z (byte_of_Z (Z.shiftr v k))) n
  = if (0 <=? n) && (n <? 8) then Z.testbit v (n + k) else false.
Proof.
  intros Hk. rewrite byte_to_of_Z. change 256 with (2 ^ 8).
  destruct (Z.leb_spec 0 n); simpl.
  - destruct (Z.ltb_spec n 8).
    + rewrite Z.mod_pow2_bits_low by lia. rewrite Z.shiftr_spec by lia. reflexivity.
    + rewrite Z.mod_pow2_bits_high by lia. reflexivity.
  - apply Z.testbit_neg_r. lia.
Qed.

Lemma Uint32_PutUint32 (v : Z) (rest : bytes) :
  0 <= v <= MaxUint32 ->
  BigEndian_Uint32 (BigEndian_PutUint32 v ++ rest) = v.
Proof.
  unfold MaxUint32. intros Hv. cbn [BigEndian_PutUint32 app BigEndian_Uint32].
  apply Z.bits_inj'. intros n Hn.
  rewrite Uint32_testbit by lia.
  rewrite <- (Z.shiftr_0_r v) at 4.
  rewrite !byte_testbit by lia.
  destruct (Z.ltb_spec n 8); [ | destruct (Z.ltb_spec n 16); [ | destruct (Z.ltb_spec n 24);
    [ | destruct (Z.ltb_spec n 32) ] ] ].
  all: repeat match goal with
       | |- context [ (?a <=? ?b) ] => destruct (Z.leb_spec a b); try lia
       | |- context [ (?a <? ?b) ] => destruct (Z.ltb_spec a b); try lia
       end; simpl; rewrite ?orb_false_r, ?Z.add_0_r; try (f_equal; lia).
  symmetry. apply Z.bits_above_log2; [lia|].
  destruct (Z.eq_dec v 0) as [->|]; [simpl; lia|].
  assert (Z.log2 v < 32); [|lia].
  apply Z.log2_lt_pow2; [lia|]. change (2 ^ 32) with 4294967296. lia.
Qed.

Lemma Uint32_range (b : bytes) : 0 <= BigEndian_Uint32 b <= MaxUint32.
Proof.
  unfold MaxUint32.
  destruct b as [|b0 [|b1 [|b2 [|b3 r]]]]; simpl; try lia.
  pose proof (byte_to_Z_range b0). pose proof (byte_to_Z_range b1).
  pose proof (byte_to_Z_range b2). pose proof (byte_to_Z_range b3).
  set (x := Z.lor _ _).
  assert (Hx : 0 <= x) by (unfold x; rewrite !Z.lor_nonneg, !Z.shiftl_nonneg; lia).
  split; [exact Hx|].
  assert (x < 2 ^ 32); [|change (2 ^ 32) with 4294967296 in *; lia].
  destruct (Z.eq_dec x 0) as [->|]; [lia|].
  apply Z.log2_lt_pow2; [lia|].
  unfold x. rewrite !Z.log2_lor; rewrite ?Z.lor_nonneg, ?Z.shiftl_nonneg; try lia.
  assert (Hlog : forall y k, 0 <= y < 256 -> 0 <= k <= 24 -> Z.log2 (Z.shiftl y k) < 32).
  { intros y k Hy Hk. destruct (Z.eq_dec y 0) as [->|].
    - rewrite Z.shiftl_0_l. simpl. lia.
    - rewrite Z.log2_shiftl by lia.
      assert (Z.log2 y < 8) by (apply Z.log2_lt_pow2; [lia|change (2 ^ 8) with 256; lia]). lia. }
  pose proof (Hlog _ 24 H ltac:(lia)). pose proof (Hlog _ 16 H0 ltac:(lia)).
  pose proof (Hlog _ 8 H1 ltac:(lia)).
  assert (Z.log2 (byte_to_Z b3) < 32).
  { destruct (Z.eq_dec (byte_to_Z b3) 0) as [->|]; [simpl; lia|].
    assert (Z.log2 (byte_to_Z b3) < 8)
      by (apply Z.log2_lt_pow2; [lia|change (2 ^ 8) with 256; lia]). lia. }
  lia.
Qed.

Lemma ReadFull_app (a rest : bytes) (n : Z) :
  n = len a -> ReadFull (a ++ rest) n = Ok (a, rest).
Proof.
  intros ->. unfold ReadFull. rewrite len_app.
  pose proof (len_nonneg rest).
  destruct (Z.leb_spec (len a) (len a + len rest)); [|lia].
  unfold len. rewrite Nat2Z.id, take_app_length, drop_app_length. reflexivity.
Qed.

Lemma ReadFull_Ok (br : Reader) (n : Z) (a rest : bytes) :
  ReadFull br n = Ok (a, rest) -> br = a ++ rest /\ (0 <= n -> len a = n).
Proof.
  unfold ReadFull. destruct (Z.leb_spec n (len br)); [|discriminate].
  intros [= <- <-]. rewrite take_drop. split; [reflexivity|].
  intros Hn. unfold len in *. rewrite length_take. lia.
Qed.

Lemma slice_app (pre a rest : bytes) (lo hi : Z) :
  lo = len pre -> hi = len pre + len a ->
  slice (pre ++ a ++ rest) lo hi = a.
Proof.
  intros -> ->. unfold slice, len.
  replace (Z.of_nat (length pre) + Z.of_nat (length a) - Z.of_nat (length pre))
    with (Z.of_nat (length a)) by lia.
  rewrite !Nat2Z.id, drop_app_length, take_app_length. reflexivity.
Qed.

Lemma index_app (pre rest : bytes) (b : byte) (i : Z) :
  i = len pre -> index (pre ++ b :: rest) i = b.
Proof.
  intros ->. unfold index, len. rewrite Nat2Z.id.
  rewrite lookup_app_r by lia. rewrite Nat.sub_diag. reflexivity.
Qed.

(** ** The entry point *)

Lemma VersionFromMagic_ToMagic (magic : bytes) (v : EszipVersion) :
  VersionFromMagic magic = Some v <-> magic = ToMagic v.
Proof.
  unfold VersionFromMagic. split.
  - repeat case_decide; intros [= <-]; assumption.
  - intros ->. destruct v; reflexivity.
Qed.

(** C8. For an input of at least 8 bytes, [Parse] reads the first 8 bytes
    and dispatches on them alone: when they are the magic of a V2 version
    the rest of the input goes to the V2 parser and its result, failure
    included, is the result of [Parse]; otherwise the whole input (the 8
    bytes followed by the remainder) goes to the V1 parser. *)
Theorem Parse_dispatch (input : bytes) :
  8 <= len input ->
  (forall v, VersionFromMagic (take 8 input) = Some v <-> take 8 input = ToMagic v) /\
  Parse input =
    match VersionFromMagic (take 8 input) with
    | Some version =>
        match parseV2WithVersion version (drop 8 input) with
        | Ok (eszip, complete) => Ok (UnionV2 eszip, CompleteV2 complete)
        | Err e => Err e
        | Hang => Hang
        end
    | None =>
        match ParseV1 input with
        | Ok eszip => Ok (UnionV1 eszip, CompleteNoop)
        | Err e => Err e
        | Hang => Hang
        end
    end.
Proof.
  intros Hlen. split; [intros v; apply VersionFromMagic_ToMagic|].
  unfold Parse, ReadFull.
  destruct (Z.leb_spec 8 (len input)); [|lia].
  cbn [obind]. change (Z.to_nat 8) with 8%nat.
  destruct (VersionFromMagic (take 8 input)) as [version|].
  - destruct (parseV2WithVersion version (drop 8 input)) as [[eszip complete]| |];
      reflexivity.
  - unfold ReadAll. cbn [obind app]. rewrite take_drop.
    destruct (ParseV1 input); reflexivity.
Qed.

(** ** Sections and the options header *)

Lemma maxSectionSize_val : maxSectionSize = 268435456.
Proof. reflexivity. Qed.

Lemma readSection_framed (options : Options) (content rest : bytes) :
  len content <= maxSectionSize ->
  readSection (BigEndian_PutUint32 (len content) ++ content ++ rest) options =
    if GetChecksumSize options >? 0 then
      let* (hash, br) := ReadFull rest (GetChecksumSize options) in
      Ok (mkSection content hash (Checksum options), br)
    else Ok (mkSection content [] (Checksum options), rest).
Proof.
  intros Hlen. rewrite maxSectionSize_val in Hlen. pose proof (len_nonneg content).
  unfold readSection.
  rewrite (ReadFull_app (BigEndian_PutUint32 (len content))) by reflexivity.
  cbn [obind]. rewrite <- (app_nil_r (BigEndian_PutUint32 _)).
  rewrite Uint32_PutUint32 by (unfold MaxUint32; lia).
  rewrite maxSectionSize_val.
  destruct (Z.gtb_spec (len content) 268435456); [lia|].
  rewrite ReadFull_app by reflexivity. cbn [obind].
  destruct (GetChecksumSize options >? 0); reflexivity.
Qed.

Lemma parseOptionsHeader_pairs_ignored (option value : byte) (post : bytes)
    (options : Options) :
  ignoredPair option value ->
  parseOptionsHeader_pairs (option :: value :: post) options =
  parseOptionsHeader_pairs post options.
Proof.
  intros Hign. cbn [parseOptionsHeader_pairs].
  destruct Hign as [[H0 H1]|[H0 Hv]].
  - destruct (Z.eqb_spec (byte_to_Z option) 0); [lia|].
    destruct (Z.eqb_spec (byte_to_Z option) 1); [lia|]. reflexivity.
  - destruct (Z.eqb_spec (byte_to_Z option) 0); [|lia].
    unfold ChecksumFromU8.
    destruct (Z.eqb_spec (byte_to_Z value) 0); [lia|].
    destruct (Z.eqb_spec (byte_to_Z value) 1); [lia|].
    destruct (Z.eqb_spec (byte_to_Z value) 2); [lia|]. reflexivity.
Qed.

Lemma parseOptionsHeader_pairs_insert (pre post : bytes) (option value : byte) :
  Z.even (len pre) = true ->
  ignoredPair option value ->
  forall options,
  parseOptionsHeader_pairs (pre ++ option :: value :: post) options =
  parseOptionsHeader_pairs (pre ++ post) options.
Proof.
  intros Heven Hign.
  assert (Hpairs : forall n (l : bytes), length l = (2 * n)%nat ->
    forall options, parseOptionsHeader_pairs (l ++ option :: value :: post) options =
                    parseOptionsHeader_pairs (l ++ post) options).
  { induction n as [|n IH]; intros l Hl options.
    - destruct l; [|discriminate]. simpl app.
      apply parseOptionsHeader_pairs_ignored; assumption.
    - destruct l as [|a [|b l]]; simpl in Hl; try lia.
      cbn [app parseOptionsHeader_pairs]. apply IH. lia. }
  apply Z.even_spec in Heven. destruct Heven as [k Hk].
  apply (Hpairs (Z.to_nat k)). unfold len in Hk. lia.
Qed.

Lemma Z_rem_2_odd (n : Z) : 0 <= n -> negb (Z.rem n 2 =? 0) = Z.odd n.
Proof.
  intros Hn. rewrite Z.rem_mod_nonneg by lia.
  rewrite Zmod_odd. destruct (Z.odd n); reflexivity.
Qed.

(** C6. The options header of a V2.2+ archive, framed as a section.  An
    odd-length content is rejected as [InvalidV22OptionsHeader]; a non-None
    checksum with effective digest size zero is rejected with the same
    error kind; nothing else is, and a pair with an unknown option byte or
    an unknown checksum type changes neither the options the header
    resolves to nor, when no digest is in play, the success of the parse. *)
Theorem parseOptionsHeader_forward_compat (defaults : Options) (content rest : bytes) :
  len content <= maxSectionSize ->
  parseOptionsHeader (BigEndian_PutUint32 (len content) ++ content ++ rest) defaults =
    (if Z.odd (len content)
     then Err (ErrInvalidV22OptionsHeader "options are expected to be byte tuples")
     else
       let options := parseOptionsHeader_pairs content defaults in
       if (GetChecksumSize options =? 0)
          && negb (bool_decide (Checksum options = ChecksumNone))
       then Err (ErrInvalidV22OptionsHeader "checksum size must be known")
       else if GetChecksumSize options >? 0 then
         match ReadFull rest (GetChecksumSize options) with
         | Ok (digest, br) =>
             if Verify (Checksum options) content digest
             then Ok (options, br)
             else Err ErrInvalidV22OptionsHeaderHash
         | Err e => Err e
         | Hang => Hang
         end
       else Ok (options, rest)) /\
  (forall pre post option value,
     content = pre ++ option :: value :: post ->
     Z.even (len pre) = true ->
     ignoredPair option value ->
     parseOptionsHeader_pairs content defaults =
       parseOptionsHeader_pairs (pre ++ post) defaults /\
     (Z.even (len post) = true ->
      GetChecksumSize (parseOptionsHeader_pairs (pre ++ post) defaults) = 0 ->
      Checksum (parseOptionsHeader_pairs (pre ++ post) defaults) = ChecksumNone ->
      parseOptionsHeader (BigEndian_PutUint32 (len content) ++ content ++ rest) defaults
        = Ok (parseOptionsHeader_pairs (pre ++ post) defaults, rest))).
Proof.
  intros Hlen.
  assert (Heq : parseOptionsHeader (BigEndian_PutUint32 (len content) ++ content ++ rest) defaults =
    (if Z.odd (len content)
     then Err (ErrInvalidV22OptionsHeader "options are expected to be byte tuples")
     else
       let options := parseOptionsHeader_pairs content defaults in
       if (GetChecksumSize options =? 0)
          && negb (bool_decide (Checksum options = ChecksumNone))
       then Err (ErrInvalidV22OptionsHeader "checksum size must be known")
       else if GetChecksumSize options >? 0 then
         match ReadFull rest (GetChecksumSize options) with
         | Ok (digest, br) =>
             if Verify (Checksum options) content digest
             then Ok (options, br)
             else Err ErrInvalidV22OptionsHeaderHash
         | Err e => Err e
         | Hang => Hang
         end
       else Ok (options, rest))).
  { unfold parseOptionsHeader.
    rewrite readSection_framed by assumption.
    change (GetChecksumSize (mkOptions ChecksumNone 0) >? 0) with false.
    cbn [obind]. unfold ContentLen, Content. cbn [s_content].
    rewrite Z_rem_2_odd by apply len_nonneg.
    destruct (Z.odd (len content)); [reflexivity|].
    cbv zeta.
    destruct ((GetChecksumSize (parseOptionsHeader_pairs content defaults) =? 0)
              && negb (bool_decide (Checksum (parseOptionsHeader_pairs content defaults)
                                    = ChecksumNone))); [reflexivity|].
    destruct (GetChecksumSize (parseOptionsHeader_pairs content defaults) >? 0);
      [|reflexivity].
    destruct (ReadFull rest _) as [[digest br]| |]; cbn [obind]; try reflexivity.
    destruct (Verify _ content digest); reflexivity. }
  split; [exact Heq|].
  intros pre post option value -> Heven Hign.
  pose proof (parseOptionsHeader_pairs_insert pre post option value Heven Hign defaults)
    as Hpairs.
  split; [exact Hpairs|].
  intros Hpost Hsize Hnone.
  rewrite Heq. rewrite Hpairs.
  assert (Hodd : Z.odd (len (pre ++ option :: value :: post)) = false).
  { rewrite len_app, !len_cons. rewrite <- Z.negb_even.
    replace (len pre + (1 + (1 + len post))) with (len pre + len post + 2 * 1) by lia.
    rewrite Z.even_add_mul_2, Z.even_add, Heven, Hpost. reflexivity. }
  rewrite Hodd. cbv zeta. rewrite Hsize, Hnone. reflexivity.
Qed.

(** ** The modules header: frames *)

Ltac zbool :=
  repeat match goal with
  | H : (_ >? _) = true |- _ => apply Z.gtb_lt in H
  | H : (_ >? _) = false |- _ => rewrite Z.gtb_ltb in H; apply Z.ltb_ge in H
  | H : (_ <? _) = true |- _ => apply Z.ltb_lt in H
  | H : (_ <? _) = false |- _ => apply Z.ltb_ge in H
  | H : (_ <=? _) = true |- _ => apply Z.leb_le in H
  | H : (_ <=? _) = false |- _ => apply Z.leb_gt in H
  | H : (_ =? _) = true |- _ => apply Z.eqb_eq in H
  | H : (_ =? _) = false |- _ => apply Z.eqb_neq in H
  end.

(** Decide the arithmetic test at the head of the goal with [lia]. *)
Ltac zlia :=
  first [ lia | unfold MaxUint32 in *; rewrite ?maxSectionSize_val in *; lia ].

Ltac ztest_gt a b :=
  first [ replace (a >? b) with false by (symmetry; rewrite Z.gtb_ltb; apply Z.ltb_ge; zlia)
        | replace (a >? b) with true by (symmetry; apply Z.gtb_lt; zlia) ].

Ltac ztest_lt a b :=
  first [ replace (a <? b) with false by (symmetry; apply Z.ltb_ge; zlia)
        | replace (a <? b) with true by (symmetry; apply Z.ltb_lt; zlia) ].

Ltac ztest :=
  lazymatch goal with
  | |- (if ?a >? ?b then _ else _) = _ => ztest_gt a b; cbv iota
  | |- (if ?a <? ?b then _ else _) = _ => ztest_lt a b; cbv iota
  | |- obind (if ?a >? ?b then _ else _) _ = _ => ztest_gt a b; cbv iota
  | |- obind (if ?a <? ?b then _ else _) _ = _ => ztest_lt a b; cbv iota
  | |- obind (obind (if ?a >? ?b then _ else _) _) _ = _ => ztest_gt a b; cbv iota
  | |- obind (obind (if ?a <? ?b then _ else _) _) _ = _ => ztest_lt a b; cbv iota
  end.

Lemma slice_at (content p a r : bytes) (lo hi : Z) :
  content = p ++ a ++ r -> lo = len p -> hi = lo + len a ->
  slice content lo hi = a.
Proof. intros -> -> ->. apply slice_app; reflexivity. Qed.

Lemma index_at (content p r : bytes) (b : byte) (i : Z) :
  content = p ++ b :: r -> i = len p -> index content i = b.
Proof. intros -> ->. apply index_app; reflexivity. Qed.

Lemma Uint32_at (content p r : bytes) (v lo hi : Z) :
  content = p ++ BigEndian_PutUint32 v ++ r -> lo = len p -> hi = lo + 4 ->
  0 <= v <= MaxUint32 ->
  BigEndian_Uint32 (slice content lo hi) = v.
Proof.
  intros Hc Hlo Hhi Hv.
  rewrite (slice_at content p (BigEndian_PutUint32 v) r) by (rewrite ?len_PutUint32; auto).
  rewrite <- (app_nil_r (BigEndian_PutUint32 v)). apply Uint32_PutUint32, Hv.
Qed.

(** The bytes of a frame up to its entry kind. *)
Lemma frame_head_len (pre specifier post : bytes) (entryKind : byte) :
  len (pre ++ BigEndian_PutUint32 (len specifier) ++ specifier ++ entryKind :: post)
  = len pre + 4 + len specifier + 1 + len post.
Proof. rewrite !len_app, len_cons, len_PutUint32. lia. Qed.

Section Frame.

Variables (content pre specifier post : bytes) (entryKind : byte).
Variables (supportsNpm : bool) (st : HeaderState).

Hypothesis Hcontent :
  content = pre ++ BigEndian_PutUint32 (len specifier) ++ specifier ++ entryKind :: post.
Hypothesis Hread : h_read st = len pre.
Hypothesis Hmax : len content <= MaxUint32.

Lemma frame_content_len :
  len content = len pre + 4 + len specifier + 1 + len post.
Proof. rewrite Hcontent. apply frame_head_len. Qed.

Lemma frame_head :
  parseModulesHeader_frame content supportsNpm st =
  parseModulesHeader_entry content supportsNpm specifier entryKind
    (len pre + 4 + len specifier + 1) (h_modules st) (h_npmSpecifiers st).
Proof.
  pose proof frame_content_len as Hlen.
  pose proof (len_nonneg pre). pose proof (len_nonneg specifier).
  pose proof (len_nonneg post).
  unfold parseModulesHeader_frame. rewrite Hread. cbv zeta.
  ztest.
  rewrite (Uint32_at content pre (specifier ++ entryKind :: post) (len specifier))
    by (auto; lia).
  rewrite (to_uint32_small (len content - (len pre + 4))) by lia.
  ztest.
  rewrite (slice_at content (pre ++ BigEndian_PutUint32 (len specifier)) specifier
             (entryKind :: post))
    by (rewrite ?len_app, ?len_PutUint32; try lia;
        rewrite Hcontent, <- ?app_assoc; reflexivity).
  ztest.
  rewrite (index_at content (pre ++ BigEndian_PutUint32 (len specifier) ++ specifier)
             post entryKind)
    by (rewrite ?len_app, ?len_PutUint32; try lia;
        rewrite Hcontent, <- ?app_assoc; reflexivity).
  reflexivity.
Qed.

End Frame.

(** ** The modules header: the loop *)

Lemma to_uint32_le (x : Z) : 0 <= x -> 0 <= to_uint32 x <= x.
Proof.
  intros Hx. unfold to_uint32. split.
  - apply Z.mod_pos_bound. lia.
  - apply Z.mod_le; lia.
Qed.

Lemma slice_prefix (pre rest : bytes) (lo hi : Z) :
  0 <= lo -> lo <= hi -> hi <= len pre ->
  slice (pre ++ rest) lo hi = slice pre lo hi.
Proof.
  unfold slice, len. intros Hlo Hhi Hlen.
  rewrite drop_app_le by lia.
  rewrite take_app_le by (rewrite length_drop; lia). reflexivity.
Qed.

Lemma index_prefix (pre rest : bytes) (i : Z) :
  0 <= i -> i < len pre -> index (pre ++ rest) i = index pre i.
Proof.
  unfold index, len. intros Hi Hlen. rewrite lookup_app_l by lia. reflexivity.
Qed.

Ltac split_ifs H :=
  repeat match type of H with
  | context [ if ?c then _ else _ ] => destruct c eqn:?
  | context [ match ?c with Some _ => _ | None => _ end ] => destruct c eqn:?
  end.

(** A frame that parses moves [read] forward, by five bytes at least, and
    stays inside the content. *)
Lemma frame_progress (content : bytes) (supportsNpm : bool) (st st' : HeaderState) :
  0 <= h_read st ->
  parseModulesHeader_frame content supportsNpm st = Ok st' ->
  h_read st + 5 <= h_read st' <= len content.
Proof.
  intros Hread H.
  unfold parseModulesHeader_frame, parseModulesHeader_entry in H. cbv zeta in H.
  pose proof (Uint32_range (slice content (h_read st) (h_read st + 4))) as Hspec.
  set (specifierLenU := BigEndian_Uint32 (slice content (h_read st) (h_read st + 4))) in *.
  pose proof (Uint32_range
    (slice content (h_read st + 4 + specifierLenU + 1)
       (h_read st + 4 + specifierLenU + 1 + 4))) as Htarget.
  set (targetLenU := BigEndian_Uint32 _) in Htarget, H.
  unfold MaxUint32 in *.
  split_ifs H; try discriminate; zbool; injection H as <-; cbn [h_read];
    repeat match goal with
    | H : ?y <= to_uint32 ?x |- _ =>
        let Hx := fresh in
        assert (Hx : y <= x) by (pose proof (to_uint32_le x); lia); clear H
    end; lia.
Qed.

(** With fuel for every byte left, the amount of fuel does not matter. *)
Lemma parseModulesHeader_loop_fuel (content : bytes) (supportsNpm : bool) :
  forall (fuel fuel' : nat) (st : HeaderState),
  0 <= h_read st ->
  len content - h_read st <= Z.of_nat fuel ->
  len content - h_read st <= Z.of_nat fuel' ->
  parseModulesHeader_loop fuel content supportsNpm st =
  parseModulesHeader_loop fuel' content supportsNpm st.
Proof.
  induction fuel as [|fuel IH]; intros fuel' st Hread Hfuel Hfuel'.
  - destruct fuel'; cbn [parseModulesHeader_loop];
      destruct (Z.ltb_spec (h_read st) (len content)); try reflexivity; lia.
  - destruct fuel' as [|fuel']; cbn [parseModulesHeader_loop];
      destruct (Z.ltb_spec (h_read st) (len content)); try reflexivity; try lia.
    destruct (parseModulesHeader_frame content supportsNpm st) as [st'| |] eqn:Hframe;
      cbn [obind]; try reflexivity.
    apply frame_progress in Hframe; [|assumption].
    apply IH; lia.
Qed.

(** The loop returns: it never runs out of the fuel [parseModulesHeader]
    gives it. *)
Lemma parseModulesHeader_loop_returns (content : bytes) (supportsNpm : bool) :
  forall (fuel : nat) (st : HeaderState),
  0 <= h_read st ->
  len content - h_read st <= Z.of_nat fuel ->
  parseModulesHeader_loop fuel content supportsNpm st <> Hang.
Proof.
  induction fuel as [|fuel IH]; intros st Hread Hfuel; cbn [parseModulesHeader_loop];
    destruct (Z.ltb_spec (h_read st) (len content)); try discriminate; try lia.
  destruct (parseModulesHeader_frame content supportsNpm st) as [st'| |] eqn:Hframe;
    cbn [obind]; try discriminate.
  - apply frame_progress in Hframe; [|assumption]. apply IH; lia.
  - exfalso. unfold parseModulesHeader_frame, parseModulesHeader_entry in Hframe.
    cbv zeta in Hframe. split_ifs Hframe; discriminate.
Qed.

Lemma parseModulesHeader_loop_S (content : bytes) (supportsNpm : bool)
    (fuel : nat) (st : HeaderState) :
  parseModulesHeader_loop (S fuel) content supportsNpm st =
    if h_read st <? len content then
      let* st' := parseModulesHeader_frame content supportsNpm st in
      parseModulesHeader_loop fuel content supportsNpm st'
    else Ok st.
Proof. reflexivity. Qed.

(** One unfolding of the loop, with the fuel out of the way. *)
Lemma parseModulesHeader_loop_step (content : bytes) (supportsNpm : bool)
    (fuel : nat) (st : HeaderState) :
  0 <= h_read st ->
  len content - h_read st <= Z.of_nat fuel ->
  parseModulesHeader_loop fuel content supportsNpm st =
    if h_read st <? len content then
      let* st' := parseModulesHeader_frame content supportsNpm st in
      parseModulesHeader_loop fuel content supportsNpm st'
    else Ok st.
Proof.
  intros Hread Hfuel.
  destruct fuel as [|fuel].
  - cbn [parseModulesHeader_loop].
    destruct (Z.ltb_spec (h_read st) (len content)); [lia|reflexivity].
  - rewrite parseModulesHeader_loop_S at 1.
    destruct (Z.ltb_spec (h_read st) (len content)); [|reflexivity].
    destruct (parseModulesHeader_frame content supportsNpm st) as [st'| |] eqn:Hframe;
      cbn [obind]; try reflexivity.
    apply frame_progress in Hframe; [|assumption].
    apply parseModulesHeader_loop_fuel; lia.
Qed.

(** A frame that parses inside a prefix of the content parses the same way
    in the whole content. *)
Lemma frame_prefix (pre rest : bytes) (supportsNpm : bool) (st st' : HeaderState) :
  0 <= h_read st ->
  len (pre ++ rest) <= MaxUint32 ->
  parseModulesHeader_frame pre supportsNpm st = Ok st' ->
  parseModulesHeader_frame (pre ++ rest) supportsNpm st = Ok st'.
Proof.
  intros Hread Hmax H. rewrite len_app in Hmax. pose proof (len_nonneg rest) as Hrest.
  pose proof (len_nonneg pre) as Hpre.
  unfold parseModulesHeader_frame, parseModulesHeader_entry in *. cbv zeta in *.
  rewrite len_app.
  pose proof (Uint32_range (slice pre (h_read st) (h_read st + 4))) as Hspec.
  destruct (h_read st + 4 >? len pre) eqn:E1; [discriminate|]. zbool.
  ztest.
  rewrite (slice_prefix pre rest (h_read st)) by lia.
  set (specifierLenU := BigEndian_Uint32 (slice pre (h_read st) (h_read st + 4))) in *.
  rewrite (to_uint32_small (len pre - (h_read st + 4))) in H by lia.
  rewrite (to_uint32_small (len pre + len rest - (h_read st + 4))) by lia.
  destruct (specifierLenU >? len pre - (h_read st + 4)) eqn:E2; [discriminate|]. zbool.
  ztest.
  rewrite (slice_prefix pre rest (h_read st + 4)) by lia.
  destruct (h_read st + 4 + specifierLenU + 1 >? len pre) eqn:E3; [discriminate|]. zbool.
  ztest.
  rewrite (index_prefix pre rest) by lia.
  set (read := h_read st + 4 + specifierLenU + 1) in *.
  destruct (byte_to_Z (index pre (h_read st + 4 + specifierLenU)) =? 0).
  { destruct (read + 17 >? len pre) eqn:E4; [discriminate|]. zbool.
    ztest.
    rewrite !(slice_prefix pre rest) by lia.
    rewrite (index_prefix pre rest) by lia. exact H. }
  destruct (byte_to_Z (index pre (h_read st + 4 + specifierLenU)) =? 1).
  { destruct (read + 4 >? len pre) eqn:E4; [discriminate|]. zbool.
    ztest.
    pose proof (Uint32_range (slice pre read (read + 4))) as Htarget.
    rewrite (slice_prefix pre rest read) by lia.
    set (targetLenU := BigEndian_Uint32 (slice pre read (read + 4))) in *.
    rewrite (to_uint32_small (len pre - (read + 4))) in H by lia.
    rewrite (to_uint32_small (len pre + len rest - (read + 4))) by lia.
    destruct (targetLenU >? len pre - (read + 4)) eqn:E5; [discriminate|]. zbool.
    ztest.
    rewrite (slice_prefix pre rest) by lia. exact H. }
  destruct (byte_to_Z (index pre (h_read st + 4 + specifierLenU)) =? 2); [|exact H].
  destruct (negb supportsNpm); [exact H|].
  destruct (read + 4 >? len pre) eqn:E4; [discriminate|]. zbool.
  ztest.
  rewrite (slice_prefix pre rest) by lia. exact H.
Qed.

(** The frames of a prefix that parses on its own are read the same way
    when more content follows: the loop arrives at the end of the prefix
    in the state the prefix alone gives. *)
Lemma parseModulesHeader_loop_prefix (pre rest : bytes) (supportsNpm : bool) :
  len (pre ++ rest) <= MaxUint32 ->
  forall (fuel : nat) (st st' : HeaderState),
  0 <= h_read st <= len pre ->
  parseModulesHeader_loop fuel pre supportsNpm st = Ok st' ->
  h_read st' = len pre /\
  forall fuel', len (pre ++ rest) - h_read st <= Z.of_nat fuel' ->
    parseModulesHeader_loop fuel' (pre ++ rest) supportsNpm st =
    parseModulesHeader_loop fuel' (pre ++ rest) supportsNpm st'.
Proof.
  intros Hmax. induction fuel as [|fuel IH]; intros st st' Hread H;
    cbn [parseModulesHeader_loop] in H;
    destruct (Z.ltb_spec (h_read st) (len pre)); try discriminate.
  - injection H as <-. split; [lia|]. intros; reflexivity.
  - destruct (parseModulesHeader_frame pre supportsNpm st) as [st1| |] eqn:Hframe;
      cbn [obind] in H; try discriminate.
    pose proof (frame_progress _ _ _ _ (proj1 Hread) Hframe) as Hprog.
    destruct (IH st1 st' ltac:(lia) H) as [Hend Hrun].
    split; [exact Hend|].
    intros fuel' Hfuel'.
    rewrite parseModulesHeader_loop_step by lia.
    pose proof (len_nonneg rest). rewrite len_app in *.
    ztest.
    rewrite <- len_app in *.
    rewrite (frame_prefix pre rest supportsNpm st st1) by (try assumption; lia).
    cbn [obind]. apply Hrun. lia.
  - injection H as <-. split; [lia|]. intros; reflexivity.
Qed.

(** The state the loop is in after a prefix of frames that parses on its
    own, seen from the whole content. *)
Lemma parseModulesHeader_after_prefix (pre rest : bytes) (supportsNpm : bool)
    (modules : ModuleMap) (npmSpecifiers : gmap gostring Z) :
  len (pre ++ rest) <= MaxUint32 ->
  parseModulesHeader pre supportsNpm = Ok (modules, npmSpecifiers) ->
  parseModulesHeader (pre ++ rest) supportsNpm =
    let* st := parseModulesHeader_loop (length (pre ++ rest)) (pre ++ rest) supportsNpm
                 (mkHeaderState (len pre) modules npmSpecifiers) in
    Ok (h_modules st, h_npmSpecifiers st).
Proof.
  intros Hmax H. unfold parseModulesHeader in *.
  destruct (parseModulesHeader_loop (length pre) pre supportsNpm
              (mkHeaderState 0 NewModuleMap ∅)) as [st'| |] eqn:Hloop;
    cbn [obind] in H; try discriminate.
  injection H as <- <-.
  pose proof (len_nonneg pre).
  destruct (parseModulesHeader_loop_prefix pre rest supportsNpm Hmax (length pre)
              (mkHeaderState 0 NewModuleMap ∅) st'
              ltac:(cbn [h_read]; lia) Hloop) as [Hend Hrun].
  rewrite Hrun by (cbn [h_read]; unfold len; lia).
  destruct st' as [read m n]. cbn [h_read] in Hend. subst read. reflexivity.
Qed.

(** C7. In a modules header, after any number of frames that parse, a
    frame whose entry kind byte is none of 0, 1, 2 fails the parse with
    [InvalidV2EntryKind] carrying the byte and the offset just past it; so
    does entry kind 2 when the version does not support npm; and a Module
    frame whose kind byte is outside 0..=4 fails it with
    [InvalidV2ModuleKind]. *)
Theorem parseModulesHeader_invalid_kinds (pre specifier post : bytes)
    (entryKind : byte) (supportsNpm : bool)
    (modules : ModuleMap) (npmSpecifiers : gmap gostring Z) :
  let content :=
    pre ++ BigEndian_PutUint32 (len specifier) ++ specifier ++ entryKind :: post in
  let read := len pre + 4 + len specifier + 1 in
  len content <= MaxUint32 ->
  parseModulesHeader pre supportsNpm = Ok (modules, npmSpecifiers) ->
  (byte_to_Z entryKind <> 0 -> byte_to_Z entryKind <> 1 -> byte_to_Z entryKind <> 2 ->
   parseModulesHeader content supportsNpm = Err (ErrInvalidV2EntryKind entryKind read)) /\
  (byte_to_Z entryKind = 2 -> supportsNpm = false ->
   parseModulesHeader content supportsNpm = Err (ErrInvalidV2EntryKind entryKind read)) /\
  (byte_to_Z entryKind = 0 ->
   forall (offsets post' : bytes) (kindByte : byte),
   post = offsets ++ kindByte :: post' ->
   len offsets = 16 ->
   ~ (0 <= byte_to_Z kindByte <= 4) ->
   parseModulesHeader content supportsNpm =
     Err (ErrInvalidV2ModuleKind kindByte (read + 17))).
Proof.
  intros content read Hmax Hpre.
  assert (Hstep : parseModulesHeader content supportsNpm =
    let* st := (let* st' := parseModulesHeader_entry content supportsNpm specifier
                              entryKind read modules npmSpecifiers in
                parseModulesHeader_loop (length content) content supportsNpm st') in
    Ok (h_modules st, h_npmSpecifiers st)).
  { unfold content.
    rewrite (parseModulesHeader_after_prefix pre _ supportsNpm modules npmSpecifiers)
      by assumption.
    fold content.
    pose proof (len_nonneg pre). pose proof (len_nonneg specifier).
    pose proof (len_nonneg post).
    pose proof (frame_head_len pre specifier post entryKind) as Hlen. fold content in Hlen.
    rewrite parseModulesHeader_loop_step by (cbn [h_read]; unfold len; lia).
    cbn [h_read]. ztest.
    rewrite (frame_head content pre specifier post entryKind) by (auto; reflexivity).
    reflexivity. }
  rewrite Hstep. clear Hstep Hpre.
  split; [|split].
  - intros H0 H1 H2. unfold parseModulesHeader_entry.
    destruct (Z.eqb_spec (byte_to_Z entryKind) 0); [lia|].
    destruct (Z.eqb_spec (byte_to_Z entryKind) 1); [lia|].
    destruct (Z.eqb_spec (byte_to_Z entryKind) 2); [lia|]. reflexivity.
  - intros H2 ->. unfold parseModulesHeader_entry.
    destruct (Z.eqb_spec (byte_to_Z entryKind) 0); [lia|].
    destruct (Z.eqb_spec (byte_to_Z entryKind) 1); [lia|].
    destruct (Z.eqb_spec (byte_to_Z entryKind) 2); [|lia]. reflexivity.
  - intros H0 offsets post' kindByte Hpost Hoff Hkind.
    unfold parseModulesHeader_entry.
    destruct (Z.eqb_spec (byte_to_Z entryKind) 0); [|lia].
    pose proof (frame_head_len pre specifier post entryKind) as Hlen. fold content in Hlen.
    pose proof (len_nonneg post').
    assert (len post = 17 + len post') by (rewrite Hpost, len_app, len_cons; lia).
    fold read in Hlen.
    ztest. cbv zeta.
    rewrite (index_at content
               (pre ++ BigEndian_PutUint32 (len specifier) ++ specifier ++ entryKind :: offsets)
               post' kindByte).
    + unfold moduleKindFromByte.
      pose proof (byte_to_Z_range kindByte).
      destruct (Z.eqb_spec (byte_to_Z kindByte) 0); [lia|].
      destruct (Z.eqb_spec (byte_to_Z kindByte) 1); [lia|].
      destruct (Z.eqb_spec (byte_to_Z kindByte) 2); [lia|].
      destruct (Z.eqb_spec (byte_to_Z kindByte) 3); [lia|].
      destruct (Z.eqb_spec (byte_to_Z kindByte) 4); [lia|].
      cbn [obind]. do 2 f_equal. lia.
    + unfold content. rewrite Hpost. rewrite <- ?app_assoc. cbn [app].
      rewrite <- ?app_assoc. reflexivity.
    + rewrite !len_app, len_cons, len_PutUint32. unfold read. lia.
Qed.

(** ** The module map under slot writes *)

Lemma ModuleMap_Get_update (m : ModuleMap) (k s : gostring)
    (f : EszipModule -> EszipModule) :
  ModuleMap_Get (ModuleMap_update m k f) s =
    if decide (k = s) then f <$> ModuleMap_Get m s else ModuleMap_Get m s.
Proof.
  induction m as [|[k' v'] m IH]; cbn [ModuleMap_update ModuleMap_Get].
  - destruct (decide (k = s)); reflexivity.
  - destruct (decide (k' = k)) as [->|Hne]; cbn [ModuleMap_Get].
    + destruct (decide (k = s)); reflexivity.
    + destruct (decide (k' = s)) as [->|Hne'].
      * destruct (decide (k = s)); [congruence|reflexivity].
      * exact IH.
Qed.

Lemma ModuleMap_Keys_update (m : ModuleMap) (k : gostring)
    (f : EszipModule -> EszipModule) :
  ModuleMap_Keys (ModuleMap_update m k f) = ModuleMap_Keys m.
Proof.
  unfold ModuleMap_Keys.
  induction m as [|[k' v'] m IH]; cbn [ModuleMap_update]; [reflexivity|].
  destruct (decide (k' = k)); cbn [fmap list_fmap fst]; [reflexivity|].
  f_equal. exact IH.
Qed.

Lemma ModuleMap_Get_Keys (m : ModuleMap) (s : gostring) (e : EszipModule) :
  ModuleMap_Get m s = Some e -> s ∈ ModuleMap_Keys m.
Proof.
  unfold ModuleMap_Keys.
  induction m as [|[k v] m IH]; cbn [ModuleMap_Get]; [discriminate|].
  destruct (decide (k = s)) as [->|Hne]; intros H.
  - apply list_elem_of_here.
  - apply list_elem_of_further, IH, H.
Qed.

Lemma slot_step_refl (s : SourceSlot) : slot_step s s.
Proof. destruct s; cbn; auto. Qed.

Lemma slot_step_trans (s1 s2 s3 : SourceSlot) :
  slot_step s1 s2 -> slot_step s2 s3 -> slot_step s1 s3.
Proof.
  destruct s1; cbn; intros H12 H23.
  - destruct H12 as [->|[d ->]]; [exact H23|]. cbn in H23. subst. eauto.
  - subst. exact H23.
  - subst. exact H23.
Qed.

Lemma slot_step_SetReady (s : SourceSlot) (data : option bytes) :
  slot_step s (SetReady s data).
Proof. destruct s; cbn; eauto. Qed.

Lemma entry_step_refl (e : EszipModule) : entry_step e e.
Proof. destruct e; cbn; auto using slot_step_refl. Qed.

Lemma entry_step_trans (e1 e2 e3 : EszipModule) :
  entry_step e1 e2 -> entry_step e2 e3 -> entry_step e1 e3.
Proof.
  destruct e1, e2, e3; cbn; try tauto; try congruence.
  intros (Hk & Hs & Hm) (Hk' & Hs' & Hm').
  split; [congruence|]. split; eapply slot_step_trans; eassumption.
Qed.

Lemma map_step_refl (m : ModuleMap) : map_step m m.
Proof. apply Forall2_same_length_lookup_2; [reflexivity|].
  intros i kv kv' H H'. rewrite H in H'. injection H' as <-.
  split; [reflexivity|apply entry_step_refl].
Qed.

Lemma map_step_trans (m1 m2 m3 : ModuleMap) :
  map_step m1 m2 -> map_step m2 m3 -> map_step m1 m3.
Proof.
  unfold map_step. intros H12. revert m3.
  induction H12 as [|kv1 kv2 m1 m2 [Hk He] _ IH]; intros m3 H23.
  - inversion H23. constructor.
  - inversion H23 as [|? kv3 ? m3' [Hk' He'] Hrest]; subst. constructor.
    + split; [congruence|]. eapply entry_step_trans; eassumption.
    + apply IH, Hrest.
Qed.

Lemma map_step_update (m : ModuleMap) (k : gostring) (f : EszipModule -> EszipModule) :
  (forall e, entry_step e (f e)) -> map_step m (ModuleMap_update m k f).
Proof.
  intros Hf. unfold map_step.
  induction m as [|[k' v'] m IH]; cbn [ModuleMap_update]; [constructor|].
  destruct (decide (k' = k)).
  - constructor; [split; [reflexivity|apply Hf]|]. apply map_step_refl.
  - constructor; [split; [reflexivity|apply entry_step_refl]|]. exact IH.
Qed.

Lemma map_step_Keys (m m' : ModuleMap) :
  map_step m m' -> ModuleMap_Keys m' = ModuleMap_Keys m.
Proof.
  unfold ModuleMap_Keys. induction 1 as [|kv kv' m m' [Hk _] _ IH]; [reflexivity|].
  cbn [fmap list_fmap]. rewrite Hk. f_equal. exact IH.
Qed.

Lemma map_step_Get (m m' : ModuleMap) (s : gostring) :
  map_step m m' ->
  match ModuleMap_Get m s, ModuleMap_Get m' s with
  | Some e, Some e' => entry_step e e'
  | None, None => True
  | _, _ => False
  end.
Proof.
  induction 1 as [|[k e] [k' e'] m m' [Hk He] _ IH]; cbn [ModuleMap_Get]; [exact I|].
  cbn in Hk, He. subst k'.
  destruct (decide (k = s)); [exact He|exact IH].
Qed.

Lemma entry_step_meta (e e' : EszipModule) :
  entry_step e e' -> entryMeta e' = entryMeta e.
Proof. destruct e, e'; cbn; try tauto; intros; f_equal; tauto. Qed.

Lemma setSlotReady_step (m : ModuleMap) (specifier : gostring) (isSourceMap : bool)
    (data : option bytes) :
  map_step m (setSlotReady m specifier isSourceMap data).
Proof.
  apply map_step_update. intros [d| |]; try apply entry_step_refl.
  destruct isSourceMap; cbn; auto using slot_step_refl, slot_step_SetReady.
Qed.

Lemma resolveModule_step (e : EszipModule) : entry_step e (resolveModule e).
Proof.
  destruct e as [d| |]; try apply entry_step_refl. cbn.
  split; [reflexivity|].
  split; case_bool_decide; auto using slot_step_refl, slot_step_SetReady.
Qed.

Lemma resolveModule_idemp (e : EszipModule) :
  resolveModule (resolveModule e) = resolveModule e.
Proof.
  destruct e as [[kind [o l|d|] [o' l'|d'|]]| |]; reflexivity.
Qed.

Lemma resolvePendingSlots_step (m : ModuleMap) : map_step m (resolvePendingSlots m).
Proof.
  unfold resolvePendingSlots. generalize (ModuleMap_Keys m) as keys.
  intros keys. revert m. induction keys as [|k keys IH]; intros m; cbn [foldl].
  - apply map_step_refl.
  - eapply map_step_trans; [|apply IH].
    apply map_step_update, resolveModule_step.
Qed.

Lemma resolve_fold_Get (keys : list gostring) (m : ModuleMap) (s : gostring) :
  ModuleMap_Get
    (foldl (fun m specifier => ModuleMap_update m specifier resolveModule) m keys) s
  = (if decide (s ∈ keys) then resolveModule <$> ModuleMap_Get m s
     else ModuleMap_Get m s)
  \/ ModuleMap_Get
    (foldl (fun m specifier => ModuleMap_update m specifier resolveModule) m keys) s
  = resolveModule <$> ModuleMap_Get m s.
Proof.
  revert m. induction keys as [|k keys IH]; intros m; cbn [foldl].
  - left. destruct (decide (s ∈ [])) as [H|H]; [inversion H|reflexivity].
  - destruct (IH (ModuleMap_update m k resolveModule)) as [H|H]; rewrite H;
      rewrite ModuleMap_Get_update.
    + destruct (decide (k = s)) as [->|Hne].
      * right. destruct (decide (s ∈ keys)); [|reflexivity].
        destruct (ModuleMap_Get m s); cbn; [|reflexivity].
        rewrite resolveModule_idemp. reflexivity.
      * left. destruct (decide (s ∈ keys)) as [Hin|Hin];
          destruct (decide (s ∈ k :: keys)) as [Hin'|Hin']; try reflexivity.
        -- exfalso. apply Hin'. apply list_elem_of_further, Hin.
        -- exfalso. apply elem_of_cons in Hin'. destruct Hin'; congruence.
    + right. destruct (decide (k = s)); [|reflexivity].
      destruct (ModuleMap_Get m s); cbn; [|reflexivity].
      rewrite resolveModule_idemp. reflexivity.
Qed.

(** After [resolvePendingSlots] every entry is the resolved form of what
    it was. *)
Lemma resolvePendingSlots_Get (m : ModuleMap) (s : gostring) :
  ModuleMap_Get (resolvePendingSlots m) s = resolveModule <$> ModuleMap_Get m s.
Proof.
  unfold resolvePendingSlots.
  destruct (resolve_fold_Get (ModuleMap_Keys m) m s) as [H|H]; rewrite H; [|reflexivity].
  destruct (decide (s ∈ ModuleMap_Keys m)) as [Hin|Hin]; [reflexivity|].
  destruct (ModuleMap_Get m s) as [e|] eqn:E; [|reflexivity].
  exfalso. apply Hin. eapply ModuleMap_Get_Keys, E.
Qed.

Lemma resolveModule_not_pending (e : EszipModule) (d : ModuleData) :
  resolveModule e = EModuleData d ->
  State (Source d) <> SourceSlotPending /\ State (SourceMap d) <> SourceSlotPending.
Proof.
  destruct e as [[kind src smap]| |]; cbn; try discriminate.
  intros [= <-]. cbn.
  split; case_bool_decide as H; try assumption;
    [destruct src | destruct smap]; cbn in *; congruence.
Qed.

(** ** The completion task: what it may touch *)

Lemma loadSection_loop_S (fuel : nat) (ctx : Context) (options : Options)
    (offsets : gmap Z sourceOffsetEntry) (isSourceMap : bool)
    (totalLen read : Z) (st : Loader) :
  loadSection_loop (S fuel) ctx options offsets isSourceMap totalLen read st =
  if read <? totalLen then
    let cancelled := ctx (l_polls st) in
    let st := mkLoader (l_br st) (l_modules st) (S (l_polls st)) in
    if cancelled then (Err ErrCanceled, st)
    else
      match offsets !! read with
      | None => (Err (ErrInvalidV2SourceOffset read), st)
      | Some entry =>
          match readSectionWithSize (l_br st) options (entryLength entry) with
          | Err e => (Err e, st)
          | Hang => (Hang, st)
          | Ok (section, br) =>
              let st := mkLoader br (l_modules st) (l_polls st) in
              if negb (IsChecksumValid section)
              then (Err (ErrInvalidV2SourceHash (entrySpecifier entry)), st)
              else
                let read := read + TotalLen section in
                let st :=
                  mkLoader (l_br st)
                    (setSlotReady (l_modules st) (entrySpecifier entry)
                       isSourceMap (Some (IntoContent section)))
                    (l_polls st) in
                loadSection_loop fuel ctx options offsets isSourceMap totalLen read st
          end
      end
  else (Ok tt, st).
Proof. reflexivity. Qed.

(** Whatever holds of the module map and survives the slot writes of the
    entries of the index holds when the loop is done, however it ends. *)
Lemma loadSection_loop_inv (I : ModuleMap -> Prop) (ctx : Context) (options : Options)
    (offsets : gmap Z sourceOffsetEntry) (isSourceMap : bool) (totalLen : Z) :
  (forall m k e c, offsets !! k = Some e -> I m ->
     I (setSlotReady m (entrySpecifier e) isSourceMap (Some c))) ->
  forall (fuel : nat) (read : Z) (st : Loader),
  I (l_modules st) ->
  I (l_modules (loadSection_loop fuel ctx options offsets isSourceMap totalLen read st).2).
Proof.
  intros Hpres. induction fuel as [|fuel IH]; intros read st HI.
  - cbn [loadSection_loop]. destruct (read <? totalLen); exact HI.
  - rewrite loadSection_loop_S. cbv zeta.
    destruct (read <? totalLen); [|exact HI].
    destruct (ctx (l_polls st)); [exact HI|].
    cbn [l_br l_modules l_polls].
    destruct (offsets !! read) as [entry|] eqn:Hentry; [|exact HI].
    destruct (readSectionWithSize (l_br st) options (entryLength entry))
      as [[section br]| |]; try exact HI.
    destruct (negb (IsChecksumValid section)); [exact HI|].
    apply IH. cbn [l_modules]. eapply Hpres; eassumption.
Qed.

Lemma loadSection_inv (I : ModuleMap -> Prop) (ctx : Context) (options : Options)
    (offsets : gmap Z sourceOffsetEntry) (isSourceMap : bool) (st : Loader) :
  (forall m k e c, offsets !! k = Some e -> I m ->
     I (setSlotReady m (entrySpecifier e) isSourceMap (Some c))) ->
  I (l_modules st) ->
  I (l_modules (loadSection ctx options offsets isSourceMap st).2).
Proof.
  intros Hpres HI. unfold loadSection.
  destruct (ReadFull (l_br st) 4) as [[lenBytes br]| |]; try exact HI.
  cbv zeta. destruct (BigEndian_Uint32 lenBytes >? maxSectionSize); [exact HI|].
  apply loadSection_loop_inv; assumption.
Qed.

(** The shape of [loadSources]: the two passes, then the backstop on
    whatever they left. *)
Lemma loadSources_backstop_form (ctx : Context) (br : Reader) (eszip : EszipV2)
    (options : Options) (sourceOffsets sourceMapOffsets : gmap Z sourceOffsetEntry) :
  exists loaded : ModuleMap,
    (loadSources ctx br eszip options sourceOffsets sourceMapOffsets).2
      = withModules eszip (resolvePendingSlots loaded) /\
    forall I : ModuleMap -> Prop,
      (forall m k e c, sourceOffsets !! k = Some e -> I m ->
         I (setSlotReady m (entrySpecifier e) false (Some c))) ->
      (forall m k e c, sourceMapOffsets !! k = Some e -> I m ->
         I (setSlotReady m (entrySpecifier e) true (Some c))) ->
      I (modules eszip) -> I loaded.
Proof.
  unfold loadSources.
  set (st0 := mkLoader br (modules eszip) 0).
  destruct (loadSection ctx options sourceOffsets false st0) as [r1 st1] eqn:E1.
  assert (H1 : forall I : ModuleMap -> Prop,
    (forall m k e c, sourceOffsets !! k = Some e -> I m ->
       I (setSlotReady m (entrySpecifier e) false (Some c))) ->
    I (modules eszip) -> I (l_modules st1)).
  { intros I Hpres HI.
    pose proof (loadSection_inv I ctx options sourceOffsets false st0 Hpres HI) as H.
    rewrite E1 in H. exact H. }
  destruct r1 as [[]| |];
    try (exists (l_modules st1); split; [reflexivity|];
         intros I Hs _ HI; apply H1; assumption).
  destruct (loadSection ctx options sourceMapOffsets true st1) as [r2 st2] eqn:E2.
  assert (H2 : forall I : ModuleMap -> Prop,
    (forall m k e c, sourceMapOffsets !! k = Some e -> I m ->
       I (setSlotReady m (entrySpecifier e) true (Some c))) ->
    I (l_modules st1) -> I (l_modules st2)).
  { intros I Hpres HI.
    pose proof (loadSection_inv I ctx options sourceMapOffsets true st1 Hpres HI) as H.
    rewrite E2 in H. exact H. }
  exists (l_modules st2).
  split; [destruct r2 as [[]| |]; reflexivity|].
  intros I Hs Hm HI. apply H2; [assumption|]. apply H1; assumption.
Qed.

Lemma loadSources_step (ctx : Context) (br : Reader) (eszip : EszipV2)
    (options : Options) (sourceOffsets sourceMapOffsets : gmap Z sourceOffsetEntry) :
  exists loaded : ModuleMap,
    (loadSources ctx br eszip options sourceOffsets sourceMapOffsets).2
      = withModules eszip (resolvePendingSlots loaded) /\
    map_step (modules eszip) loaded.
Proof.
  destruct (loadSources_backstop_form ctx br eszip options sourceOffsets sourceMapOffsets)
    as (loaded & Heq & Hinv).
  exists loaded. split; [exact Heq|].
  apply (Hinv (map_step (modules eszip))).
  - intros m k e c _ Hm. eapply map_step_trans; [exact Hm|apply setSlotReady_step].
  - intros m k e c _ Hm. eapply map_step_trans; [exact Hm|apply setSlotReady_step].
  - apply map_step_refl.
Qed.

(** ** The metadata parse, step by step *)

Lemma parseV2WithVersion_Ok (version : EszipVersion) (br : Reader)
    (eszip : EszipV2) (c : Completion) :
  parseV2WithVersion version br = Ok (eszip, c) ->
  exists options br1 header br2 mods npmSpecifiers snapshot br3 so smo,
    (if SupportsOptions version
     then parseOptionsHeader br (DefaultOptionsForVersion version)
     else Ok (DefaultOptionsForVersion version, br)) = Ok (options, br1) /\
    readSection br1 options = Ok (header, br2) /\
    IsChecksumValid header = true /\
    parseModulesHeader (Content header) (SupportsNpm version) = Ok (mods, npmSpecifiers) /\
    (if SupportsNpm version then parseNpmSection br2 options npmSpecifiers
     else Ok (None, br2)) = Ok (snapshot, br3) /\
    buildOffsets mods (ModuleMap_Keys mods) ∅ ∅ = Ok (so, smo) /\
    eszip = mkEszipV2 mods snapshot options version /\
    c = mkCompletion br3 options so smo.
Proof.
  unfold parseV2WithVersion. cbv zeta. intros H.
  destruct (if SupportsOptions version
            then parseOptionsHeader br (DefaultOptionsForVersion version)
            else Ok (DefaultOptionsForVersion version, br))
    as [[options br1]| |] eqn:E1; cbn [obind] in H; try discriminate.
  destruct (readSection br1 options) as [[header br2]| |] eqn:E2; cbn [obind] in H;
    try discriminate.
  destruct (IsChecksumValid header) eqn:Hvalid; cbn [negb] in H; try discriminate.
  destruct (parseModulesHeader (Content header) (SupportsNpm version))
    as [[mods npmSpecifiers]| |] eqn:E3; cbn [obind] in H; try discriminate.
  destruct (if SupportsNpm version then parseNpmSection br2 options npmSpecifiers
            else Ok (None, br2)) as [[snapshot br3]| |] eqn:E4; cbn [obind] in H;
    try discriminate.
  destruct (buildOffsets mods (ModuleMap_Keys mods) ∅ ∅) as [[so smo]| |] eqn:E5;
    cbn [obind] in H; try discriminate.
  injection H as <- <-.
  exists options, br1, header, br2, mods, npmSpecifiers, snapshot, br3, so, smo.
  repeat split; assumption.
Qed.

(** ** The walk of a payload section *)

Lemma readSectionWithSize_framed (options : Options) (content digest rest : bytes)
    (contentLen : Z) :
  contentLen = len content ->
  contentLen <= maxSectionSize ->
  len digest = GetChecksumSize options ->
  readSectionWithSize (content ++ digest ++ rest) options contentLen =
    Ok (mkSection content digest (Checksum options), rest).
Proof.
  intros -> Hmax Hdigest. unfold readSectionWithSize.
  ztest. rewrite ReadFull_app by reflexivity. cbn [obind]. cbv zeta.
  destruct (Z.gtb_spec (GetChecksumSize options) 0) as [Hpos|Hzero].
  - rewrite ReadFull_app by (symmetry; exact Hdigest). reflexivity.
  - pose proof (len_nonneg digest).
    destruct digest; [reflexivity|]. rewrite len_cons in *.
    pose proof (len_nonneg digest). lia.
Qed.


Lemma loadSection_loop_entry (fuel : nat) (ctx : Context) (options : Options)
    (offsets : gmap Z sourceOffsetEntry) (isSourceMap : bool)
    (totalLen read : Z) (st : Loader)
    (entry : sourceOffsetEntry) (content digest rest : bytes) :
  read < totalLen ->
  ctx (l_polls st) = false ->
  offsets !! read = Some entry ->
  l_br st = content ++ digest ++ rest ->
  len content = entryLength entry ->
  entryLength entry <= maxSectionSize ->
  len digest = GetChecksumSize options ->
  loadSection_loop (S fuel) ctx options offsets isSourceMap totalLen read st =
    if Verify (Checksum options) content digest
    then loadSection_loop fuel ctx options offsets isSourceMap totalLen
           (read + len content + GetChecksumSize options)
           (mkLoader rest
              (setSlotReady (l_modules st) (entrySpecifier entry) isSourceMap
                 (Some content))
              (S (l_polls st)))
    else (Err (ErrInvalidV2SourceHash (entrySpecifier entry)),
          mkLoader rest (l_modules st) (S (l_polls st))).
Proof.
  intros Hread Hctx Hentry Hbr Hlen Hmax Hdigest.
  rewrite loadSection_loop_S. cbv zeta. ztest_lt read totalLen. rewrite Hctx. cbv iota.
  cbn [l_br l_modules l_polls]. rewrite Hentry, Hbr.
  rewrite (readSectionWithSize_framed options content digest rest) by auto.
  unfold IsChecksumValid, TotalLen, IntoContent. cbn [s_content s_hash s_checksum].
  destruct (Verify (Checksum options) content digest); cbn [negb]; [|reflexivity].
  rewrite Hdigest, Z.add_assoc. reflexivity.
Qed.


(** C9. The declared length of a payload section only bounds the walk: if
    the entry read at a position short of the declared length carries the
    walk to the declared end or beyond it -- the entry's content and digest
    may extend past the declared end -- the walk stops there and the
    section is accepted; the bytes past the declared end have been
    consumed and the slot is set. *)
Theorem loadSection_overshoot (fuel : nat) (ctx : Context) (options : Options)
    (offsets : gmap Z sourceOffsetEntry) (isSourceMap : bool)
    (totalLen read : Z) (st : Loader)
    (entry : sourceOffsetEntry) (content digest rest : bytes) :
  read < totalLen ->
  totalLen <= read + len content + len digest ->
  ctx (l_polls st) = false ->
  offsets !! read = Some entry ->
  l_br st = content ++ digest ++ rest ->
  len content = entryLength entry ->
  entryLength entry <= maxSectionSize ->
  len digest = GetChecksumSize options ->
  Verify (Checksum options) content digest = true ->
  loadSection_loop (S fuel) ctx options offsets isSourceMap totalLen read st =
    (Ok tt,
     mkLoader rest
       (setSlotReady (l_modules st) (entrySpecifier entry) isSourceMap (Some content))
       (S (l_polls st))).
Proof.
  intros Hread Hpast Hctx Hentry Hbr Hlen Hmax Hdigest Hverify.
  rewrite (loadSection_loop_entry fuel ctx options offsets isSourceMap totalLen read st
             entry content digest rest) by assumption.
  rewrite Hverify.
  destruct fuel; cbn [loadSection_loop]; ztest; reflexivity.
Qed.

(** ** The offset indexes *)

Lemma indexSlot_entries (specifier : gostring) (slot : SourceSlot)
    (outOfRange : gostring -> HeaderMsg)
    (duplicate : Z -> gostring -> gostring -> HeaderMsg)
    (offsets offsets' : gmap Z sourceOffsetEntry) :
  indexSlot specifier slot outOfRange duplicate offsets = Ok offsets' ->
  forall k e, offsets' !! k = Some e ->
    offsets !! k = Some e \/
    (entrySpecifier e = specifier /\ slot = SlotPending k (entryLength e) /\
     0 < entryLength e <= maxSectionSize).
Proof.
  unfold indexSlot. intros H k e Hk.
  destruct slot as [offset length|data|]; cbn [State Length Offset] in H;
    try (injection H as <-; left; exact Hk).
  case_bool_decide; [|congruence]. cbn [andb] in H.
  destruct (length >? 0) eqn:Hpos; [|injection H as <-; left; exact Hk].
  destruct ((offset >? maxSectionSize) || (length >? maxSectionSize)) eqn:Hrange;
    [discriminate|].
  apply orb_false_iff in Hrange. destruct Hrange as [Hoff Hlen]. zbool.
  destruct (offsets !! offset) eqn:Hfresh; [discriminate|].
  injection H as <-.
  destruct (decide (offset = k)) as [->|Hne].
  - rewrite lookup_insert_eq in Hk. injection Hk as <-. cbn.
    right. repeat split; lia.
  - rewrite lookup_insert_ne in Hk by assumption. left. exact Hk.
Qed.

(** Every entry of an offset index stands for a module of the map whose
    slot is Pending with that offset and a positive length. *)
Lemma buildOffsets_entries (mods : ModuleMap) :
  forall (keys : list gostring) (so smo so' smo' : gmap Z sourceOffsetEntry),
  buildOffsets mods keys so smo = Ok (so', smo') ->
  forall (which : bool) k e,
    (if which then smo' else so') !! k = Some e ->
    (if which then smo else so) !! k = Some e \/
    exists d, ModuleMap_Get mods (entrySpecifier e) = Some (EModuleData d) /\
              slotOf which d = SlotPending k (entryLength e) /\
              0 < entryLength e <= maxSectionSize.
Proof.
  induction keys as [|specifier keys IH]; intros so smo so' smo' H which k e Hk;
    cbn [buildOffsets] in H.
  - injection H as <- <-. left. exact Hk.
  - destruct (ModuleMap_Get mods specifier) as [[d|target|id]|] eqn:Hget;
      try (eapply IH; eassumption).
    destruct (indexSlot specifier (Source d) MsgSourceOutOfRange
                MsgDuplicateSourceOffset so) as [so1| |] eqn:E1;
      cbn [obind] in H; try discriminate.
    destruct (indexSlot specifier (SourceMap d) MsgSourceMapOutOfRange
                MsgDuplicateSourceMapOffset smo) as [smo1| |] eqn:E2;
      cbn [obind] in H; try discriminate.
    destruct (IH _ _ _ _ H which k e Hk) as [Hold|Hnew]; [|right; exact Hnew].
    destruct which.
    + destruct (indexSlot_entries _ _ _ _ _ _ E2 k e Hold) as [Hin|(Hs & Hslot & Hpos)];
        [left; exact Hin|].
      right. exists d. subst specifier. cbn [slotOf]. auto.
    + destruct (indexSlot_entries _ _ _ _ _ _ E1 k e Hold) as [Hin|(Hs & Hslot & Hpos)];
        [left; exact Hin|].
      right. exists d. subst specifier. cbn [slotOf]. auto.
Qed.

(** ** The outcome of the completion task does not depend on the slots *)

Lemma loadSection_loop_outcome (ctx : Context) (options : Options)
    (offsets : gmap Z sourceOffsetEntry) (isSourceMap : bool) (totalLen : Z) :
  forall (fuel : nat) (read : Z) (br : Reader) (polls : nat) (m1 m2 : ModuleMap),
  let r1 := loadSection_loop fuel ctx options offsets isSourceMap totalLen read
              (mkLoader br m1 polls) in
  let r2 := loadSection_loop fuel ctx options offsets isSourceMap totalLen read
              (mkLoader br m2 polls) in
  r1.1 = r2.1 /\ l_br r1.2 = l_br r2.2 /\ l_polls r1.2 = l_polls r2.2.
Proof.
  induction fuel as [|fuel IH]; intros read br polls m1 m2.
  - cbn [loadSection_loop]. destruct (read <? totalLen); cbn; auto.
  - cbv zeta. rewrite !loadSection_loop_S. cbv zeta. cbn [l_br l_modules l_polls].
    destruct (read <? totalLen); [|cbn; auto].
    destruct (ctx polls); [cbn; auto|].
    destruct (offsets !! read) as [entry|]; [|cbn; auto].
    destruct (readSectionWithSize br options (entryLength entry))
      as [[section br']| |]; try (cbn; auto).
    destruct (negb (IsChecksumValid section)); [cbn; auto|].
    apply IH.
Qed.

Lemma loadSection_outcome (ctx : Context) (options : Options)
    (offsets : gmap Z sourceOffsetEntry) (isSourceMap : bool)
    (br : Reader) (polls : nat) (m1 m2 : ModuleMap) :
  let r1 := loadSection ctx options offsets isSourceMap (mkLoader br m1 polls) in
  let r2 := loadSection ctx options offsets isSourceMap (mkLoader br m2 polls) in
  r1.1 = r2.1 /\ l_br r1.2 = l_br r2.2 /\ l_polls r1.2 = l_polls r2.2.
Proof.
  cbv zeta. unfold loadSection. cbn [l_br l_modules l_polls].
  destruct (ReadFull br 4) as [[lenBytes br']| |]; try (cbn; auto).
  cbv zeta. destruct (BigEndian_Uint32 lenBytes >? maxSectionSize); [cbn; auto|].
  apply loadSection_loop_outcome.
Qed.

Lemma loadSources_outcome (ctx : Context) (br : Reader) (eszip1 eszip2 : EszipV2)
    (options : Options) (sourceOffsets sourceMapOffsets : gmap Z sourceOffsetEntry) :
  (loadSources ctx br eszip1 options sourceOffsets sourceMapOffsets).1 =
  (loadSources ctx br eszip2 options sourceOffsets sourceMapOffsets).1.
Proof.
  unfold loadSources.
  pose proof (loadSection_outcome ctx options sourceOffsets false br 0%nat
                (modules eszip1) (modules eszip2)) as H1. cbv zeta in H1.
  destruct (loadSection ctx options sourceOffsets false (mkLoader br (modules eszip1) 0))
    as [r1 [br1 m1 p1]],
    (loadSection ctx options sourceOffsets false (mkLoader br (modules eszip2) 0))
    as [r2 [br2 m2 p2]].
  cbn in H1. destruct H1 as (<- & <- & <-).
  destruct r1 as [[]| |]; try reflexivity.
  pose proof (loadSection_outcome ctx options sourceMapOffsets true br1 p1 m1 m2) as H2.
  cbv zeta in H2.
  destruct (loadSection ctx options sourceMapOffsets true (mkLoader br1 m1 p1))
    as [r3 st3],
    (loadSection ctx options sourceMapOffsets true (mkLoader br1 m2 p1))
    as [r4 st4].
  cbn in H2. destruct H2 as (<- & _ & _).
  destruct r3 as [[]| |]; reflexivity.
Qed.

Lemma setSlotReady_Get_other (m : ModuleMap) (specifier s : gostring)
    (isSourceMap which : bool) (data : option bytes) (d : ModuleData) :
  specifier <> s \/ isSourceMap <> which ->
  ModuleMap_Get m s = Some (EModuleData d) ->
  exists d', ModuleMap_Get (setSlotReady m specifier isSourceMap data) s
               = Some (EModuleData d') /\
             slotOf which d' = slotOf which d.
Proof.
  intros Hother Hget. unfold setSlotReady. rewrite ModuleMap_Get_update.
  destruct (decide (specifier = s)) as [->|Hne].
  - rewrite Hget. cbn. destruct Hother as [?|Hw]; [congruence|].
    destruct isSourceMap, which; try congruence; eexists; split; reflexivity.
  - eauto.
Qed.

(** C10. A Module frame with a nonzero offset and a zero length makes a
    Pending slot.  In the archive the parser returns, such a slot has no
    entry in the offset index; the completion task therefore never fills
    it, its backstop sets it Ready with nil, a [Get] on it then returns
    nil, and the outcome of the task is what it would be with any other
    slots. *)
Theorem zero_length_pending_slot (ver : EszipVersion) (br : Reader)
    (eszip : EszipV2) (c : Completion) (ctx : Context)
    (specifier : gostring) (d : ModuleData) (which : bool) (offset : Z) :
  parseV2WithVersion ver br = Ok (eszip, c) ->
  ModuleMap_Get (modules eszip) specifier = Some (EModuleData d) ->
  slotOf which d = slotFromHeader offset 0 ->
  offset <> 0 ->
  slotOf which d = SlotPending offset 0 /\
  (forall k e,
     (if which then c_sourceMapOffsets c else c_sourceOffsets c) !! k = Some e ->
     entrySpecifier e <> specifier) /\
  (exists d',
     ModuleMap_Get (modules (completeFn c ctx eszip).2) specifier
       = Some (EModuleData d') /\
     slotOf which d' = SlotReady None /\
     forall done, SourceSlot_Get done (slotOf which d') = Ok None) /\
  (forall other : EszipV2, (completeFn c ctx other).1 = (completeFn c ctx eszip).1).
Proof.
  intros Hparse Hget Hslot Hoffset.
  assert (Hpending : slotOf which d = SlotPending offset 0).
  { rewrite Hslot. unfold slotFromHeader.
    destruct (Z.eqb_spec offset 0); [contradiction|]. reflexivity. }
  clear Hslot.
  apply parseV2WithVersion_Ok in Hparse.
  destruct Hparse as (opts & br1 & header & br2 & mods & npmSpecifiers & snapshot
                      & br3 & so & smo & _ & _ & _ & _ & _ & Hbuild & -> & ->).
  cbn [modules] in Hget. cbn [c_sourceOffsets c_sourceMapOffsets].
  assert (Hindex : forall k e,
            (if which then smo else so) !! k = Some e -> entrySpecifier e <> specifier).
  { intros k e Hk Heq.
    destruct (buildOffsets_entries mods _ _ _ _ _ Hbuild which k e Hk) as [Hin|Hin].
    - destruct which; rewrite lookup_empty in Hin; discriminate.
    - destruct Hin as (d0 & Hget0 & Hslot0 & Hpos). rewrite Heq, Hget in Hget0.
      injection Hget0 as <-. rewrite Hpending in Hslot0.
      injection Hslot0 as _ Hzero. lia. }
  split; [exact Hpending|]. split; [exact Hindex|]. split.
  - unfold completeFn. cbn [c_br c_options c_sourceOffsets c_sourceMapOffsets].
    destruct (loadSources_backstop_form ctx br3
                (mkEszipV2 mods snapshot opts ver) opts so smo)
      as (loaded & -> & Hinv).
    cbn [modules withModules].
    assert (Hloaded : exists d1, ModuleMap_Get loaded specifier = Some (EModuleData d1) /\
                                 slotOf which d1 = SlotPending offset 0).
    { apply (Hinv (fun m => exists d1, ModuleMap_Get m specifier = Some (EModuleData d1) /\
                                       slotOf which d1 = SlotPending offset 0)).
      - intros m k e content Hk (d1 & Hget1 & Hslot1).
        destruct (setSlotReady_Get_other m (entrySpecifier e) specifier false which
                    (Some content) d1) as (d2 & Hget2 & Hslot2); [|exact Hget1|].
        + destruct which; [right; congruence|left; eapply Hindex, Hk].
        + exists d2. split; [exact Hget2|congruence].
      - intros m k e content Hk (d1 & Hget1 & Hslot1).
        destruct (setSlotReady_Get_other m (entrySpecifier e) specifier true which
                    (Some content) d1) as (d2 & Hget2 & Hslot2); [|exact Hget1|].
        + destruct which; [left; eapply Hindex, Hk|right; congruence].
        + exists d2. split; [exact Hget2|congruence].
      - cbn [modules]. eauto. }
    destruct Hloaded as (d1 & Hget1 & Hslot1).
    rewrite resolvePendingSlots_Get, Hget1. cbn.
    eexists. split; [reflexivity|].
    assert (Hready : slotOf which
      {| Kind := Kind d1;
         Source := if bool_decide (State (Source d1) = SourceSlotPending)
                   then SetReady (Source d1) None else Source d1;
         SourceMap := if bool_decide (State (SourceMap d1) = SourceSlotPending)
                      then SetReady (SourceMap d1) None else SourceMap d1 |}
      = SlotReady None).
    { destruct which; cbn [slotOf] in *; cbn [Source SourceMap]; rewrite Hslot1;
        reflexivity. }
    split; [exact Hready|]. intros done. rewrite Hready. reflexivity.
  - intros other. unfold completeFn. apply loadSources_outcome.
Qed.

(** ** The order on strings *)

Lemma byte_to_Z_inj (x y : byte) : byte_to_Z x = byte_to_Z y -> x = y.
Proof. intros H. rewrite <- (byte_of_to_Z x), <- (byte_of_to_Z y), H. reflexivity. Qed.

Lemma bytes_ltb_irrefl (a : gostring) : bytes_ltb a a = false.
Proof.
  induction a as [|x a IH]; cbn [bytes_ltb]; [reflexivity|].
  rewrite Z.ltb_irrefl. exact IH.
Qed.

Lemma bytes_ltb_antisym (a b : gostring) :
  bytes_ltb a b = false -> bytes_ltb b a = false -> a = b.
Proof.
  revert b. induction a as [|x a IH]; intros [|y b]; cbn [bytes_ltb];
    try reflexivity; try discriminate.
  destruct (Z.ltb_spec (byte_to_Z x) (byte_to_Z y)); [discriminate|].
  destruct (Z.ltb_spec (byte_to_Z y) (byte_to_Z x)); [discriminate|].
  intros Hab Hba. f_equal; [apply byte_to_Z_inj; lia|apply IH; assumption].
Qed.

Lemma bytes_leb_trans (a b c : gostring) :
  bytes_ltb b a = false -> bytes_ltb c b = false -> bytes_ltb c a = false.
Proof.
  revert b c. induction a as [|x a IH]; intros [|y b] [|z c]; cbn [bytes_ltb];
    try reflexivity; try discriminate.
  destruct (Z.ltb_spec (byte_to_Z y) (byte_to_Z x)); [discriminate|].
  destruct (Z.ltb_spec (byte_to_Z x) (byte_to_Z y)).
  - intros _.
    destruct (Z.ltb_spec (byte_to_Z z) (byte_to_Z y)); [discriminate|].
    destruct (Z.ltb_spec (byte_to_Z z) (byte_to_Z x)); [lia|].
    destruct (Z.ltb_spec (byte_to_Z x) (byte_to_Z z)); [reflexivity|lia].
  - intros Hab.
    destruct (Z.ltb_spec (byte_to_Z z) (byte_to_Z y)); [discriminate|].
    destruct (Z.ltb_spec (byte_to_Z y) (byte_to_Z z)).
    + intros _.
      destruct (Z.ltb_spec (byte_to_Z z) (byte_to_Z x)); [lia|].
      destruct (Z.ltb_spec (byte_to_Z x) (byte_to_Z z)); [reflexivity|lia].
    + intros Hbc.
      destruct (Z.ltb_spec (byte_to_Z z) (byte_to_Z x)); [lia|].
      destruct (Z.ltb_spec (byte_to_Z x) (byte_to_Z z)); [lia|].
      eapply IH; eassumption.
Qed.

Lemma bytes_ltb_total (a b : gostring) :
  bytes_ltb a b = false -> a = b \/ bytes_ltb b a = true.
Proof.
  intros H. destruct (bytes_ltb b a) eqn:E; [right; reflexivity|].
  left. apply bytes_ltb_antisym; assumption.
Qed.

(** A list sorted by distinct keys is fixed by its elements. *)
Lemma sorted_by_key_unique {A} (key : A -> gostring) (l1 l2 : list A) :
  StronglySorted (fun a b => bytes_ltb (key b) (key a) = false) l1 ->
  StronglySorted (fun a b => bytes_ltb (key b) (key a) = false) l2 ->
  NoDup (key <$> l1) ->
  l1 ≡ₚ l2 ->
  l1 = l2.
Proof.
  intros H1. revert l2. induction H1 as [|x1 t1 Ht1 IH Hx1]; intros l2 H2 Hnd Hperm.
  - apply Permutation_nil_l in Hperm. congruence.
  - destruct H2 as [|x2 t2 Ht2 Hx2].
    + apply Permutation_nil_r in Hperm. discriminate.
    + cbn [fmap list_fmap] in Hnd. apply NoDup_cons in Hnd. destruct Hnd as [Hfresh Hnd].
      assert (Hkey : key x1 = key x2).
      { apply bytes_ltb_antisym.
        - assert (Hin : x1 ∈ x2 :: t2) by (rewrite <- Hperm; apply list_elem_of_here).
          apply elem_of_cons in Hin. destruct Hin as [->|Hin];
            [apply bytes_ltb_irrefl|].
          rewrite Forall_forall in Hx2. apply (Hx2 x1), Hin.
        - assert (Hin : x2 ∈ x1 :: t1) by (rewrite Hperm; apply list_elem_of_here).
          apply elem_of_cons in Hin. destruct Hin as [->|Hin];
            [apply bytes_ltb_irrefl|].
          rewrite Forall_forall in Hx1. apply (Hx1 x2), Hin. }
      assert (Heq : x1 = x2).
      { assert (Hin : x2 ∈ x1 :: t1) by (rewrite Hperm; apply list_elem_of_here).
        apply elem_of_cons in Hin. destruct Hin as [->|Hin]; [reflexivity|].
        exfalso. apply Hfresh. rewrite Hkey. apply list_elem_of_fmap_2. exact Hin. }
      subst x2. f_equal. apply IH; try assumption.
      eapply Permutation_cons_inv, Hperm.
Qed.

(** ** The writer does not depend on the enumeration order of Go maps *)

Lemma agree_bind {A B} (R : A -> A -> Prop) (S : B -> B -> Prop)
    (m1 m2 : outcome A) (k1 k2 : A -> outcome B) :
  agree R m1 m2 ->
  (forall a b, R a b -> agree S (k1 a) (k2 b)) ->
  agree S (obind m1 k1) (obind m2 k2).
Proof. destruct m1, m2; cbn; auto; contradiction. Qed.

Lemma agree_eq_emitted (r1 r2 : outcome bytes) :
  agree eq r1 r2 -> emitted r1 = emitted r2.
Proof. destruct r1, r2; cbn; try contradiction; congruence. Qed.

Lemma agree_refl {A} (R : A -> A -> Prop) (r : outcome A) :
  (forall a, R a a) -> agree R r r.
Proof. destruct r; cbn; auto. Qed.

(** The validation of a map of optional IDs succeeds exactly when no ID is
    nil, whatever the order. *)
Lemma validateDependencies_Ok (pkg : gostring) (deps : gomap (option NpmPackageID))
    (l : gomap NpmPackageID) :
  validateDependencies pkg deps = Ok l <-> deps = prod_map id Some <$> l.
Proof.
  revert l. induction deps as [|[req [depID|]] deps IH]; intros l;
    cbn [validateDependencies].
  - split; [intros [= <-]; reflexivity|]. destruct l; [reflexivity|discriminate].
  - destruct (validateDependencies pkg deps) as [l'| |] eqn:E; cbn [obind].
    + split.
      * intros [= <-]. cbn. f_equal. apply IH. reflexivity.
      * destruct l as [|[r i] l]; [discriminate|]. cbn. intros [= -> -> Hl].
        apply IH in Hl. injection Hl as ->. reflexivity.
    + split; [discriminate|].
      destruct l as [|[r i] l]; [discriminate|]. cbn. intros [= -> -> Hl].
      apply IH in Hl. discriminate.
    + split; [discriminate|].
      destruct l as [|[r i] l]; [discriminate|]. cbn. intros [= -> -> Hl].
      apply IH in Hl. discriminate.
  - split; [discriminate|]. destruct l as [|[r i] l]; discriminate.
Qed.

Lemma validateDependencies_returns (pkg : gostring) (deps : gomap (option NpmPackageID)) :
  validateDependencies pkg deps <> Hang.
Proof.
  induction deps as [|[req [depID|]] deps IH]; cbn [validateDependencies];
    try discriminate.
  destruct (validateDependencies pkg deps); cbn; congruence.
Qed.

Lemma validateRoots_Ok (roots : gomap (option NpmPackageID)) (l : gomap NpmPackageID) :
  validateRoots roots = Ok l <-> roots = prod_map id Some <$> l.
Proof.
  revert l. induction roots as [|[req [depID|]] roots IH]; intros l;
    cbn [validateRoots].
  - split; [intros [= <-]; reflexivity|]. destruct l; [reflexivity|discriminate].
  - destruct (validateRoots roots) as [l'| |] eqn:E; cbn [obind].
    + split.
      * intros [= <-]. cbn. f_equal. apply IH. reflexivity.
      * destruct l as [|[r i] l]; [discriminate|]. cbn. intros [= -> -> Hl].
        apply IH in Hl. injection Hl as ->. reflexivity.
    + split; [discriminate|].
      destruct l as [|[r i] l]; [discriminate|]. cbn. intros [= -> -> Hl].
      apply IH in Hl. discriminate.
    + split; [discriminate|].
      destruct l as [|[r i] l]; [discriminate|]. cbn. intros [= -> -> Hl].
      apply IH in Hl. discriminate.
  - split; [discriminate|]. destruct l as [|[r i] l]; discriminate.
Qed.

Lemma validateRoots_returns (roots : gomap (option NpmPackageID)) :
  validateRoots roots <> Hang.
Proof.
  induction roots as [|[req [depID|]] roots IH]; cbn [validateRoots];
    try discriminate.
  destruct (validateRoots roots); cbn; congruence.
Qed.

Lemma unwrap_perm (d1 d2 : gomap (option NpmPackageID)) (l1 : gomap NpmPackageID) :
  d1 ≡ₚ d2 -> d1 = prod_map id Some <$> l1 ->
  exists l2, d2 = prod_map id Some <$> l2 /\ l1 ≡ₚ l2.
Proof.
  intros Hperm ->. symmetry in Hperm.
  apply Permutation_map_inv in Hperm. destruct Hperm as (l2 & -> & Hperm).
  exists l2. split; [reflexivity|exact Hperm].
Qed.

Lemma unwrap_keys (l : gomap NpmPackageID) :
  (prod_map id Some <$> l).*1 = l.*1.
Proof. induction l as [|[k v] l IH]; cbn; [reflexivity|]. f_equal. exact IH. Qed.

Lemma validateDependencies_perm (pkg : gostring)
    (d1 d2 : gomap (option NpmPackageID)) :
  d1 ≡ₚ d2 -> gomapOk d1 ->
  agree (fun l1 l2 => l1 ≡ₚ l2 /\ gomapOk l1)
    (validateDependencies pkg d1) (validateDependencies pkg d2).
Proof.
  intros Hperm Hok.
  pose proof (validateDependencies_returns pkg d1) as R1.
  pose proof (validateDependencies_returns pkg d2) as R2.
  destruct (validateDependencies pkg d1) as [l1| |] eqn:E1,
           (validateDependencies pkg d2) as [l2| |] eqn:E2; cbn; try congruence; auto.
  - apply validateDependencies_Ok in E1, E2.
    destruct (unwrap_perm d1 d2 l1 Hperm E1) as (l2' & E2' & Hl).
    rewrite E2 in E2'. apply (inj (fmap (prod_map id Some))) in E2'. subst l2'.
    split; [exact Hl|]. unfold gomapOk in *. rewrite E1, unwrap_keys in Hok. exact Hok.
  - apply validateDependencies_Ok in E1.
    destruct (unwrap_perm d1 d2 l1 Hperm E1) as (l2 & E2' & _).
    apply (proj2 (validateDependencies_Ok pkg _ _)) in E2'. congruence.
  - apply validateDependencies_Ok in E2. symmetry in Hperm.
    destruct (unwrap_perm d2 d1 l2 Hperm E2) as (l1 & E1' & _).
    apply (proj2 (validateDependencies_Ok pkg _ _)) in E1'. congruence.
Qed.

Lemma validateRoots_perm (d1 d2 : gomap (option NpmPackageID)) :
  d1 ≡ₚ d2 -> gomapOk d1 ->
  agree (fun l1 l2 => l1 ≡ₚ l2 /\ gomapOk l1) (validateRoots d1) (validateRoots d2).
Proof.
  intros Hperm Hok.
  pose proof (validateRoots_returns d1) as R1.
  pose proof (validateRoots_returns d2) as R2.
  destruct (validateRoots d1) as [l1| |] eqn:E1,
           (validateRoots d2) as [l2| |] eqn:E2; cbn; try congruence; auto.
  - apply validateRoots_Ok in E1, E2.
    destruct (unwrap_perm d1 d2 l1 Hperm E1) as (l2' & E2' & Hl).
    rewrite E2 in E2'. apply (inj (fmap (prod_map id Some))) in E2'. subst l2'.
    split; [exact Hl|]. unfold gomapOk in *. rewrite E1, unwrap_keys in Hok. exact Hok.
  - apply validateRoots_Ok in E1.
    destruct (unwrap_perm d1 d2 l1 Hperm E1) as (l2 & E2' & _).
    apply (proj2 (validateRoots_Ok _ _)) in E2'. congruence.
  - apply validateRoots_Ok in E2. symmetry in Hperm.
    destruct (unwrap_perm d2 d1 l2 Hperm E2) as (l1 & E1' & _).
    apply (proj2 (validateRoots_Ok _ _)) in E1'. congruence.
Qed.

Lemma validatePackages_same (ps qs : list (option NpmPackage)) :
  Forall2 samePackage ps qs ->
  Forall (fun p => match p with
                   | Some p => gomapOk (Dependencies p)
                   | None => True
                   end) ps ->
  forall i, agree (Forall2 sameChecked) (validatePackages ps i) (validatePackages qs i).
Proof.
  induction 1 as [|p q ps qs Hpq _ IH]; intros Hok i; cbn [validatePackages].
  - constructor.
  - apply Forall_cons in Hok. destruct Hok as [Hp Hps].
    destruct p as [[[idp|] dp]|], q as [[[idq|] dq]|]; cbn in Hpq; try tauto;
      try (destruct Hpq; discriminate); try exact I.
    destruct Hpq as [[= <-] Hdeps].
    eapply agree_bind; [apply validateDependencies_perm; eassumption|].
    intros l1 l2 [Hl Hnd].
    eapply agree_bind; [apply IH; assumption|].
    intros cs1 cs2 Hcs. cbn. constructor; [|exact Hcs].
    repeat split; assumption.
Qed.

Section Determinism.

(** What [sort.Slice] promises: the result is a permutation of the input;
    sorted by a key with [<], no element is followed by one with a smaller
    key; and the elements are looked at through [less] only. *)
Hypothesis sort_slice_perm :
  forall (A : Type) (less : A -> A -> bool) (l : list A),
  sort_slice A less l ≡ₚ l.
Hypothesis sort_slice_sorted :
  forall (A : Type) (key : A -> gostring) (l : list A),
  StronglySorted (fun a b => bytes_ltb (key b) (key a) = false)
    (sort_slice A (fun a b => bytes_ltb (key a) (key b)) l).
Hypothesis sort_slice_natural :
  forall (A B : Type) (f : A -> B) (lessA : A -> A -> bool) (lessB : B -> B -> bool)
         (l : list A),
  (forall x y, lessB (f x) (f y) = lessA x y) ->
  sort_slice B lessB (f <$> l) = f <$> sort_slice A lessA l.

Lemma sortedRequirements_perm (m1 m2 : gomap NpmPackageID) :
  m1 ≡ₚ m2 -> gomapOk m1 -> sortedRequirements m1 = sortedRequirements m2.
Proof.
  intros Hperm Hok. unfold sortedRequirements.
  apply (sorted_by_key_unique fst).
  - apply (sort_slice_sorted _ fst).
  - apply (sort_slice_sorted _ fst).
  - rewrite sort_slice_perm. rewrite <- list_fmap_compose.
    unfold gomapOk in Hok. exact Hok.
  - rewrite !sort_slice_perm. apply fmap_Permutation, Hperm.
Qed.

(** Two lists of validated packages that differ in the enumeration of the
    dependencies are two images of one list. *)
Lemma sameChecked_zip (l1 l2 : list CheckedPackage) :
  Forall2 sameChecked l1 l2 ->
  exists l0 : list (NpmPackageID * (gomap NpmPackageID * gomap NpmPackageID)),
    l1 = (fun x => mkCheckedPackage x.1 x.2.1) <$> l0 /\
    l2 = (fun x => mkCheckedPackage x.1 x.2.2) <$> l0 /\
    Forall (fun x => x.2.1 ≡ₚ x.2.2 /\ gomapOk x.2.1) l0.
Proof.
  induction 1 as [|[id1 d1] [id2 d2] l1 l2 (Hid & Hd & Hok) _ (l0 & -> & -> & Hall)].
  - exists []. repeat split. constructor.
  - cbn in Hid, Hd, Hok. subst id2.
    exists ((id1, (d1, d2)) :: l0). repeat split. constructor; [split|]; assumption.
Qed.

Lemma sort_packages_same (l1 l2 : list CheckedPackage) :
  Forall2 sameChecked l1 l2 ->
  Forall2 sameChecked
    (sort_slice _
       (fun a b => bytes_ltb (NpmPackageID_String (p_id a)) (NpmPackageID_String (p_id b)))
       l1)
    (sort_slice _
       (fun a b => bytes_ltb (NpmPackageID_String (p_id a)) (NpmPackageID_String (p_id b)))
       l2).
Proof.
  intros H. destruct (sameChecked_zip l1 l2 H) as (l0 & -> & -> & Hall).
  rewrite !(sort_slice_natural _ _ _
              (fun x y => bytes_ltb (NpmPackageID_String x.1) (NpmPackageID_String y.1)))
    by reflexivity.
  apply Forall2_fmap, Forall_Forall2_diag.
  rewrite sort_slice_perm.
  eapply Forall_impl; [exact Hall|].
  intros [id [d1 d2]] [Hd Hok]. repeat split; assumption.
Qed.

Lemma buildIdToIndex_same (l1 l2 : list CheckedPackage) :
  Forall2 sameChecked l1 l2 ->
  forall i idToIndex, buildIdToIndex l1 i idToIndex = buildIdToIndex l2 i idToIndex.
Proof.
  induction 1 as [|p q l1 l2 (Hid & _) _ IH]; intros i idToIndex; cbn [buildIdToIndex];
    [reflexivity|].
  rewrite Hid. apply IH.
Qed.

Lemma writePackages_same (idToIndex : gmap gostring Z) (l1 l2 : list CheckedPackage) :
  Forall2 sameChecked l1 l2 ->
  forall npmBytes, writePackages idToIndex l1 npmBytes = writePackages idToIndex l2 npmBytes.
Proof.
  induction 1 as [|p q l1 l2 (Hid & Hdeps & Hok) _ IH]; intros npmBytes;
    cbn [writePackages]; [reflexivity|].
  rewrite Hid. rewrite (sortedRequirements_perm _ _ Hdeps Hok).
  unfold len_gomap. rewrite (Permutation_length Hdeps).
  destruct (appendString npmBytes (NpmPackageID_String (p_id q))) as [b| |];
    cbn [obind]; try reflexivity.
  destruct (writeDependencies idToIndex (NpmPackageID_String (p_id q))
              (sortedRequirements (p_deps q)) _) as [b'| |];
    cbn [obind]; try reflexivity.
  apply IH.
Qed.

Lemma writeNpm_same (s t : NpmResolutionSnapshot) (modulesHeader : bytes) :
  sameSnapshot (Some s) (Some t) ->
  snapshotOk (Some s) ->
  agree eq (writeNpm s modulesHeader) (writeNpm t modulesHeader).
Proof.
  intros [Hpkgs Hroots] [Hrootsok Hdepsok]. unfold writeNpm.
  eapply agree_bind; [apply validatePackages_same; eassumption|].
  intros c1 c2 Hc.
  eapply agree_bind; [apply validateRoots_perm; eassumption|].
  intros r1 r2 [Hr Hrok]. cbv zeta.
  pose proof (sort_packages_same c1 c2 Hc) as Hsorted.
  rewrite (buildIdToIndex_same _ _ Hsorted).
  rewrite (sortedRequirements_perm r1 r2 Hr Hrok).
  destruct (writeRoots _ (sortedRequirements r2) modulesHeader) as [mh| |];
    cbn [obind agree]; try exact I.
  rewrite (writePackages_same _ _ _ Hsorted).
  apply agree_refl. reflexivity.
Qed.

(** C2. Serialization is a function of the archive state: two runs of
    [IntoBytes] on one state, which may enumerate the Go maps of the npm
    snapshot in different orders, emit the same bytes (or both emit
    none).  The module map is walked in its own order, and the packages,
    roots and dependencies are sorted before they are written. *)
Theorem IntoBytes_deterministic (done : bool) (e1 e2 : EszipV2) :
  sameState e1 e2 ->
  snapshotOk (npmSnapshot e1) ->
  emitted (IntoBytes done e1) = emitted (IntoBytes done e2).
Proof.
  intros (Hmods & Hopts & Hver & Hsnap) Hok.
  apply agree_eq_emitted. unfold IntoBytes. cbv zeta.
  rewrite <- Hmods, <- Hopts, <- Hver.
  eapply (agree_bind eq); [apply agree_refl; reflexivity|].
  intros w ? <-.
  eapply (agree_bind eq).
  - destruct (npmSnapshot e1) as [s|], (npmSnapshot e2) as [t|]; cbn in Hsnap;
      try contradiction.
    + destruct (SupportsNpm (version e1)).
      * apply writeNpm_same; assumption.
      * cbn. reflexivity.
    + cbn. reflexivity.
  - intros [mh npm] ? <-. apply agree_refl. reflexivity.
Qed.

End Determinism.

(** ** The writer lays the archive out as section 6.1 says *)

Lemma len_payloadEntry_nonneg (c : ChecksumType) (b : bytes) :
  0 <= len (payloadEntry c b).
Proof. apply len_nonneg. Qed.

Lemma len_payloadEntry_ge (c : ChecksumType) (b : bytes) :
  len b <= len (payloadEntry c b).
Proof.
  unfold payloadEntry. destruct (Z.gtb_spec (len b) 0).
  - rewrite len_app. pose proof (len_nonneg (Hash c b)). lia.
  - rewrite len_nil. lia.
Qed.

Lemma len_frameField (off : Z) (b : bytes) : len (frameField off b) = 8.
Proof. unfold frameField. destruct (len b >? 0); reflexivity. Qed.

Lemma appendPayload_layout (c : ChecksumType) (tooLarge overflow : Z -> WriteMsg)
    (payload modulesHeader : bytes) (data : option bytes) :
  len (payload ++ payloadEntry c (obytes data)) <= MaxUint32 ->
  appendPayload c tooLarge overflow payload modulesHeader data =
    Ok (payload ++ payloadEntry c (obytes data),
        modulesHeader ++ frameField (len payload) (obytes data)).
Proof.
  intros Hmax. rewrite len_app in Hmax.
  pose proof (len_nonneg payload). pose proof (len_nonneg (obytes data)).
  pose proof (len_payloadEntry_ge c (obytes data)).
  pose proof (len_payloadEntry_nonneg c (obytes data)).
  unfold appendPayload. ztest. cbv zeta.
  rewrite (to_uint32_small (len (obytes data))) by lia.
  unfold payloadEntry, frameField.
  destruct (Z.gtb_spec (len (obytes data)) 0) as [Hpos|Hzero].
  - ztest. rewrite (to_uint32_small (len payload)) by lia.
    unfold appendU32BE. rewrite <- !app_assoc. reflexivity.
  - unfold appendU32BE. rewrite app_nil_r, <- !app_assoc. reflexivity.
Qed.

Lemma appendString_layout (buf s : bytes) :
  len s <= MaxUint32 ->
  appendString buf s = Ok (buf ++ BigEndian_PutUint32 (len s) ++ s).
Proof.
  intros Hmax. pose proof (len_nonneg s). unfold appendString. ztest.
  rewrite to_uint32_small by lia. unfold appendU32BE.
  rewrite <- app_assoc. reflexivity.
Qed.

Lemma len_frameBytes (k : gostring) (e : EszipModule) (so mo : Z) :
  len (frameBytes k e so mo) = 4 + len k + 1 + len (frameBody e so mo).
Proof. unfold frameBytes. rewrite !len_app, len_cons, len_PutUint32. lia. Qed.

Lemma len_frameBody (e : EszipModule) (so mo : Z) :
  len (frameBody e so mo) =
    match e with
    | EModuleData _ => 17
    | EModuleRedirect target => 4 + len target
    | ENpmSpecifierEntry _ => 4
    end.
Proof.
  destruct e; cbn [frameBody]; rewrite ?len_app, ?len_frameField, ?len_PutUint32;
    reflexivity.
Qed.

Lemma writeModule_layout (done : bool) (c : ChecksumType) (k : gostring)
    (e : EszipModule) (w : WriterBufs) :
  readyEntry e ->
  len (frameBytes k e 0 0) <= MaxUint32 ->
  len (w_sources w ++ payloadEntry c (entryData false e)) <= MaxUint32 ->
  len (w_sourceMaps w ++ payloadEntry c (entryData true e)) <= MaxUint32 ->
  writeModule done c k e w =
    Ok (mkWriterBufs
          (w_modulesHeader w ++ frameBytes k e (len (w_sources w)) (len (w_sourceMaps w)))
          (w_sources w ++ payloadEntry c (entryData false e))
          (w_sourceMaps w ++ payloadEntry c (entryData true e))).
Proof.
  intros Hready Hframe Hsrc Hmap.
  rewrite len_frameBytes, len_frameBody in Hframe.
  pose proof (len_nonneg k).
  unfold writeModule.
  destruct e as [[kind src smap]|target|id]; cbn [readyEntry Source SourceMap] in Hready.
  - destruct Hready as [[s ->] [sm ->]].
    rewrite appendString_layout by lia. cbn [obind Source SourceMap SourceSlot_Get Kind].
    cbn [entryData slotOf Source SourceMap slotData] in Hsrc, Hmap.
    rewrite appendPayload_layout by assumption. cbn [obind].
    rewrite appendPayload_layout by assumption. cbn [obind].
    unfold frameBytes. cbn [frameKind frameBody entryData slotOf Source SourceMap slotData Kind].
    rewrite <- !app_assoc. reflexivity.
  - pose proof (len_nonneg target).
    rewrite appendString_layout by lia. cbn [obind].
    rewrite appendString_layout by lia. cbn [obind].
    unfold frameBytes. cbn [frameKind frameBody entryData payloadEntry].
    unfold payloadEntry. cbn. rewrite !app_nil_r.
    rewrite <- !app_assoc. reflexivity.
  - contradiction.
Qed.

Lemma ModuleMap_Get_app (pre l : ModuleMap) (k : gostring) :
  k ∉ pre.*1 -> ModuleMap_Get (pre ++ l) k = ModuleMap_Get l k.
Proof.
  induction pre as [|[k' v'] pre IH]; cbn [app ModuleMap_Get fmap list_fmap fst];
    [reflexivity|].
  intros Hnot. apply not_elem_of_cons in Hnot. destruct Hnot as [Hne Hnot].
  destruct (decide (k' = k)); [congruence|]. apply IH, Hnot.
Qed.

Lemma NoDup_app_head (pre m : ModuleMap) (k : gostring) (e : EszipModule) :
  NoDup (ModuleMap_Keys (pre ++ (k, e) :: m)) ->
  (k ∉ pre.*1) /\ (k ∉ m.*1) /\ NoDup (ModuleMap_Keys ((pre ++ [(k, e)]) ++ m)).
Proof.
  unfold ModuleMap_Keys. intros H.
  assert (H' : NoDup ((pre ++ [(k, e)]) ++ m).*1) by (rewrite <- app_assoc; exact H).
  split; [|split; [|exact H']].
  - rewrite fmap_app in H. apply NoDup_app in H. destruct H as (_ & Hdisj & _).
    intros Hin. apply (Hdisj k Hin). cbn. apply list_elem_of_here.
  - rewrite fmap_app in H. apply NoDup_app in H. destruct H as (_ & _ & Hm).
    cbn in Hm. apply NoDup_cons in Hm. tauto.
Qed.

Lemma len_headerBytes (c : ChecksumType) (m : ModuleMap) :
  forall so mo so' mo', len (headerBytes c m so mo) = len (headerBytes c m so' mo').
Proof.
  induction m as [|[k e] m IH]; intros so mo so' mo'; cbn [headerBytes]; [reflexivity|].
  rewrite !len_app, !len_frameBytes, !len_frameBody. f_equal. apply IH.
Qed.

Lemma writeModules_layout (done : bool) (c : ChecksumType) (m0 : ModuleMap) :
  forall (m pre : ModuleMap) (w : WriterBufs),
  m0 = pre ++ m ->
  NoDup (ModuleMap_Keys m0) ->
  Forall (fun kv => readyEntry kv.2) m ->
  len (headerBytes c m 0 0) <= MaxUint32 ->
  len (w_sources w ++ payloadBytes c false m) <= MaxUint32 ->
  len (w_sourceMaps w ++ payloadBytes c true m) <= MaxUint32 ->
  writeModules done c m0 (ModuleMap_Keys m) w =
    Ok (mkWriterBufs
          (w_modulesHeader w
           ++ headerBytes c m (len (w_sources w)) (len (w_sourceMaps w)))
          (w_sources w ++ payloadBytes c false m)
          (w_sourceMaps w ++ payloadBytes c true m)).
Proof.
  induction m as [|[k e] m IH]; intros pre w Hm0 Hnd Hready Hhdr Hsrc Hmap.
  - cbn. rewrite !app_nil_r. destruct w; reflexivity.
  - cbn [ModuleMap_Keys fmap list_fmap fst writeModules].
    subst m0. destruct (NoDup_app_head pre m k e Hnd) as (Hpre & _ & Hnd').
    rewrite ModuleMap_Get_app by assumption. cbn [ModuleMap_Get].
    destruct (decide (k = k)); [|congruence].
    apply Forall_cons in Hready. destruct Hready as [He Hready]. cbn in He.
    cbn [headerBytes] in Hhdr. cbn [payloadBytes foldr snd] in Hsrc, Hmap.
    fold (payloadBytes c false m) in Hsrc. fold (payloadBytes c true m) in Hmap.
    rewrite len_app in Hhdr. rewrite !len_app in Hsrc, Hmap.
    pose proof (len_nonneg (headerBytes c m (advance c 0 (entryData false e))
                              (advance c 0 (entryData true e)))).
    pose proof (len_nonneg (payloadBytes c false m)).
    pose proof (len_nonneg (payloadBytes c true m)).
    pose proof (len_nonneg (frameBytes k e 0 0)).
    rewrite writeModule_layout; try assumption; try (rewrite ?len_app; lia).
    cbn [obind].
    rewrite (IH (pre ++ [(k, e)])); cbn [w_modulesHeader w_sources w_sourceMaps];
      try assumption.
    + cbn [headerBytes payloadBytes foldr snd]. unfold advance.
      rewrite !len_app. rewrite <- !app_assoc. reflexivity.
    + rewrite <- app_assoc. reflexivity.
    + rewrite (len_headerBytes c m 0 0 (advance c 0 (entryData false e))
                 (advance c 0 (entryData true e))). lia.
    + rewrite <- app_assoc, !len_app. lia.
    + rewrite <- app_assoc, !len_app. lia.
Qed.

Lemma IntoBytes_layout (done : bool) (e : EszipV2) :
  constructed e ->
  sectionsWithin e MaxUint32 ->
  IntoBytes done e = Ok (archiveBytes e).
Proof.
  intros (Hver & Hnpm & Hsize & _ & Hnd & Hready) (Hhdr & Hsrc & Hmap).
  unfold IntoBytes, archiveBytes. cbv zeta. rewrite Hver, Hnpm.
  change (SupportsOptions LatestVersion) with true.
  change (SupportsNpm LatestVersion) with true. cbv iota.
  rewrite (writeModules_layout done _ (modules e) (modules e) []);
    cbn [w_modulesHeader w_sources w_sourceMaps app]; try assumption; try reflexivity.
  cbn [obind w_modulesHeader w_sources w_sourceMaps app].
  change (len []) with 0.
  ztest. ztest. cbn [obind]. ztest. ztest.
  pose proof (len_nonneg (headerBytes (Checksum (options e)) (modules e) 0 0)).
  pose proof (len_nonneg (payloadBytes (Checksum (options e)) false (modules e))).
  pose proof (len_nonneg (payloadBytes (Checksum (options e)) true (modules e))).
  unfold MaxUint32 in *.
  rewrite !to_uint32_small
    by (unfold MaxUint32; first [lia | unfold len; cbn [length]; lia]).
  unfold sectionBytes, optionsContent.
  rewrite <- !app_assoc. reflexivity.
Qed.

(** ** The modules header of a laid-out archive parses back *)

Lemma moduleKindFromByte_byte (kind : ModuleKind) :
  moduleKindFromByte (ModuleKind_byte kind) = Some kind.
Proof. destruct kind; reflexivity. Qed.

Lemma ChecksumFromU8_byte (c : ChecksumType) :
  ChecksumFromU8 (ChecksumType_byte c) = Some c.
Proof. destruct c; reflexivity. Qed.

Lemma frameField_parse (content p r : bytes) (off lo : Z) (b : bytes) :
  content = p ++ frameField off b ++ r ->
  lo = len p ->
  0 <= off <= MaxUint32 ->
  len b <= MaxUint32 ->
  slotFromHeader (BigEndian_Uint32 (slice content lo (lo + 4)))
                 (BigEndian_Uint32 (slice content (lo + 4) (lo + 4 + 4)))
  = stagedSlot false off b.
Proof.
  intros Hc -> Hoff Hb. pose proof (len_nonneg b).
  unfold frameField, stagedSlot in *.
  destruct (Z.gtb_spec (len b) 0) as [Hpos|Hzero].
  - rewrite (Uint32_at content p (BigEndian_PutUint32 (len b) ++ r) off)
      by (auto; rewrite Hc, <- ?app_assoc; reflexivity).
    rewrite (Uint32_at content (p ++ BigEndian_PutUint32 off) r (len b));
      [ | rewrite Hc, <- ?app_assoc; reflexivity
        | rewrite len_app, len_PutUint32; reflexivity | reflexivity | lia ].
    unfold slotFromHeader.
    destruct (Z.eqb_spec (len b) 0); [lia|]. rewrite andb_false_r. reflexivity.
  - rewrite (Uint32_at content p (BigEndian_PutUint32 0 ++ r) 0);
      [ | rewrite Hc, <- ?app_assoc; reflexivity | reflexivity | reflexivity
        | unfold MaxUint32; lia ].
    rewrite (Uint32_at content (p ++ BigEndian_PutUint32 0) r 0);
      [ | rewrite Hc, <- ?app_assoc; reflexivity
        | rewrite len_app, len_PutUint32; reflexivity | reflexivity
        | unfold MaxUint32; lia ].
    reflexivity.
Qed.

Lemma frame_staged (c : ChecksumType) (content pre post : bytes) (k : gostring)
    (e : EszipModule) (so mo : Z) (supportsNpm : bool) (st : HeaderState) :
  content = pre ++ frameBytes k e so mo ++ post ->
  h_read st = len pre ->
  len content <= MaxUint32 ->
  readyEntry e ->
  0 <= so <= MaxUint32 -> 0 <= mo <= MaxUint32 ->
  len (entryData false e) <= MaxUint32 -> len (entryData true e) <= MaxUint32 ->
  parseModulesHeader_frame content supportsNpm st =
    Ok (mkHeaderState (len pre + len (frameBytes k e so mo))
          (ModuleMap_Insert (h_modules st) k (stagedEntry (fun _ => false) e so mo))
          (h_npmSpecifiers st)).
Proof.
  intros Hc Hread Hmax Hready Hso Hmo Hsrc Hmap.
  assert (Hc' : content = pre ++ BigEndian_PutUint32 (len k) ++ k
                          ++ frameKind e :: (frameBody e so mo ++ post)).
  { rewrite Hc. unfold frameBytes. rewrite <- !app_assoc. reflexivity. }
  rewrite (frame_head content pre k (frameBody e so mo ++ post) (frameKind e)
             supportsNpm st Hc' Hread Hmax).
  pose proof (frame_content_len content pre k _ _ Hc') as Hlen.
  rewrite len_app, len_frameBody in Hlen.
  rewrite len_frameBytes, len_frameBody.
  pose proof (len_nonneg pre). pose proof (len_nonneg k). pose proof (len_nonneg post).
  set (read := len pre + 4 + len k + 1) in *.
  set (p0 := pre ++ BigEndian_PutUint32 (len k) ++ k ++ [frameKind e]).
  assert (Hp0 : len p0 = read).
  { unfold p0, read. rewrite !len_app, len_PutUint32, len_cons, len_nil. lia. }
  unfold parseModulesHeader_entry.
  destruct e as [[kind src smap]|target|id]; cbn [readyEntry] in Hready.
  - change (byte_to_Z (frameKind (EModuleData (mkModuleData kind src smap))) =? 0)
      with true. cbv iota.
    ztest. cbv zeta.
    set (e := EModuleData (mkModuleData kind src smap)) in *.
    assert (Hbody : content = p0 ++ frameField so (entryData false e)
                              ++ (frameField mo (entryData true e)
                                  ++ ModuleKind_byte kind :: post)).
    { rewrite Hc'. unfold p0, e. cbn [frameBody Kind]. rewrite <- !app_assoc.
      reflexivity. }
    rewrite (frameField_parse content p0 _ so read (entryData false e) Hbody)
      by (auto; lia).
    assert (Hbody2 : content = (p0 ++ frameField so (entryData false e))
                               ++ frameField mo (entryData true e)
                               ++ (ModuleKind_byte kind :: post)).
    { rewrite Hbody, <- !app_assoc. reflexivity. }
    rewrite (frameField_parse content _ _ mo (read + 4 + 4) (entryData true e) Hbody2)
      by (rewrite ?len_app, ?len_frameField; auto; lia).
    rewrite (index_at content
               (p0 ++ frameField so (entryData false e) ++ frameField mo (entryData true e))
               post (ModuleKind_byte kind))
      by (rewrite ?len_app, ?len_frameField; try lia;
          rewrite Hbody, <- !app_assoc; reflexivity).
    rewrite moduleKindFromByte_byte. cbn [stagedEntry Kind].
    do 2 f_equal. lia.
  - change (byte_to_Z (frameKind (EModuleRedirect target)) =? 0) with false.
    change (byte_to_Z (frameKind (EModuleRedirect target)) =? 1) with true. cbv iota.
    pose proof (len_nonneg target).
    ztest.
    assert (Hbody : content = p0 ++ BigEndian_PutUint32 (len target) ++ (target ++ post)).
    { rewrite Hc'. unfold p0. cbn [frameBody]. rewrite <- !app_assoc. reflexivity. }
    cbv zeta.
    rewrite (Uint32_at content p0 (target ++ post) (len target) read)
      by (auto; lia).
    rewrite (to_uint32_small (len content - (read + 4))) by lia.
    ztest.
    rewrite (slice_at content (p0 ++ BigEndian_PutUint32 (len target)) target post)
      by (rewrite ?len_app, ?len_PutUint32; try lia;
          rewrite Hbody, <- !app_assoc; reflexivity).
    cbn [stagedEntry]. do 2 f_equal. lia.
  - contradiction.
Qed.

Lemma foldl_Insert_fresh (l M : ModuleMap) :
  NoDup (M.*1 ++ l.*1) ->
  foldl (fun M kv => ModuleMap_Insert M kv.1 kv.2) M l = M ++ l.
Proof.
  revert M. induction l as [|[k e] l IH]; intros M Hnd; cbn [foldl].
  - rewrite app_nil_r. reflexivity.
  - assert (Hins : ModuleMap_Insert M k e = M ++ [(k, e)]).
    { assert (Hk : k ∉ M.*1).
      { apply NoDup_app in Hnd. destruct Hnd as (_ & Hdisj & _).
        intros Hin. apply (Hdisj k Hin). cbn. apply list_elem_of_here. }
      clear -Hk. induction M as [|[k' e'] M IHM]; cbn; [reflexivity|].
      cbn in Hk. apply not_elem_of_cons in Hk. destruct Hk as [Hne Hk].
      destruct (decide (k' = k)); [congruence|]. f_equal. apply IHM, Hk. }
    cbn [fst snd]. rewrite Hins, IH.
    + rewrite <- app_assoc. reflexivity.
    + rewrite fmap_app, <- app_assoc. exact Hnd.
Qed.

Lemma staged_Keys (c : ChecksumType) (loaded : bool -> bool) (m : ModuleMap) :
  forall so mo, (staged c loaded m so mo).*1 = m.*1.
Proof.
  induction m as [|[k e] m IH]; intros so mo; cbn; [reflexivity|].
  f_equal. apply IH.
Qed.

Lemma len_payloadBytes_cons (c : ChecksumType) (which : bool) (k : gostring)
    (e : EszipModule) (m : ModuleMap) :
  len (payloadBytes c which ((k, e) :: m)) =
  len (payloadEntry c (entryData which e)) + len (payloadBytes c which m).
Proof. cbn [payloadBytes foldr snd]. rewrite len_app. reflexivity. Qed.

Lemma parseModulesHeader_loop_staged (c : ChecksumType) (supportsNpm : bool)
    (content : bytes) :
  len content <= MaxUint32 ->
  forall (m : ModuleMap) (pre : bytes) (st : HeaderState) (so mo : Z) (fuel : nat),
  content = pre ++ headerBytes c m so mo ->
  h_read st = len pre ->
  len content - len pre <= Z.of_nat fuel ->
  Forall (fun kv => readyEntry kv.2) m ->
  0 <= so -> so + len (payloadBytes c false m) <= MaxUint32 ->
  0 <= mo -> mo + len (payloadBytes c true m) <= MaxUint32 ->
  parseModulesHeader_loop fuel content supportsNpm st =
    Ok (mkHeaderState (len content)
          (foldl (fun M kv => ModuleMap_Insert M kv.1 kv.2) (h_modules st)
             (staged c (fun _ => false) m so mo))
          (h_npmSpecifiers st)).
Proof.
  intros Hmax.
  induction m as [|[k e] m IH];
    intros pre st so mo fuel Hc Hread Hfuel Hready Hso Hsrc Hmo Hmap.
  - cbn [headerBytes] in Hc. rewrite app_nil_r in Hc. subst pre.
    rewrite parseModulesHeader_loop_step by (pose proof (len_nonneg content); lia).
    ztest. cbn. destruct st; cbn in *. subst. reflexivity.
  - cbn [headerBytes] in Hc. pose proof (len_nonneg pre).
    apply Forall_cons in Hready. destruct Hready as [He Hready]. cbn [snd] in He.
    rewrite len_payloadBytes_cons in Hsrc, Hmap.
    pose proof (len_payloadEntry_ge c (entryData false e)).
    pose proof (len_payloadEntry_ge c (entryData true e)).
    pose proof (len_nonneg (payloadBytes c false m)).
    pose proof (len_nonneg (payloadBytes c true m)).
    pose proof (len_nonneg (entryData false e)).
    pose proof (len_nonneg (entryData true e)).
    assert (Hlen : len content = len pre + len (frameBytes k e so mo)
                    + len (headerBytes c m (advance c so (entryData false e))
                             (advance c mo (entryData true e)))).
    { rewrite Hc, !len_app. lia. }
    pose proof (len_nonneg (headerBytes c m (advance c so (entryData false e))
                              (advance c mo (entryData true e)))).
    pose proof (len_frameBytes k e so mo) as Hfb. pose proof (len_frameBody e so mo) as Hbd.
    pose proof (len_nonneg k). pose proof (len_nonneg (frameBody e so mo)).
    rewrite parseModulesHeader_loop_step by lia.
    ztest.
    rewrite (frame_staged c content pre _ k e so mo supportsNpm st Hc Hread Hmax He)
      by lia.
    cbn [obind].
    rewrite (IH (pre ++ frameBytes k e so mo) _ (advance c so (entryData false e))
               (advance c mo (entryData true e)));
      cbn [h_read h_modules h_npmSpecifiers]; try assumption.
    + reflexivity.
    + rewrite Hc, <- app_assoc. reflexivity.
    + rewrite len_app. reflexivity.
    + rewrite len_app. lia.
    + unfold advance. lia.
    + unfold advance. lia.
    + unfold advance. lia.
    + unfold advance. lia.
Qed.

Lemma parseModulesHeader_staged (c : ChecksumType) (supportsNpm : bool) (m : ModuleMap) :
  len (headerBytes c m 0 0) <= MaxUint32 ->
  len (payloadBytes c false m) <= MaxUint32 ->
  len (payloadBytes c true m) <= MaxUint32 ->
  NoDup (ModuleMap_Keys m) ->
  Forall (fun kv => readyEntry kv.2) m ->
  parseModulesHeader (headerBytes c m 0 0) supportsNpm =
    Ok (staged c (fun _ => false) m 0 0, ∅).
Proof.
  intros Hhdr Hsrc Hmap Hnd Hready. unfold parseModulesHeader.
  rewrite (parseModulesHeader_loop_staged c supportsNpm _ Hhdr m [] _ 0 0);
    cbn [h_read h_modules h_npmSpecifiers obind app];
    try assumption; try reflexivity; try lia.
  - rewrite foldl_Insert_fresh; [reflexivity|].
    cbn. rewrite staged_Keys. exact Hnd.
  - change (len []) with 0. unfold len. lia.
Qed.

(** ** The offset indexes of a laid-out archive *)

Lemma advance_ge (c : ChecksumType) (off : Z) (b : bytes) : off <= advance c off b.
Proof. unfold advance. pose proof (len_payloadEntry_nonneg c b). lia. Qed.

Lemma advance_pos (c : ChecksumType) (off : Z) (b : bytes) :
  0 < len b -> off + len b <= advance c off b.
Proof. unfold advance. pose proof (len_payloadEntry_ge c b). lia. Qed.

Lemma indexSlot_staged (k : gostring) (off : Z) (b : bytes)
    (outOfRange : gostring -> HeaderMsg)
    (duplicate : Z -> gostring -> gostring -> HeaderMsg)
    (offsets : gmap Z sourceOffsetEntry) :
  0 <= off -> off + len b <= maxSectionSize ->
  (forall j, off <= j -> offsets !! j = None) ->
  indexSlot k (stagedSlot false off b) outOfRange duplicate offsets =
    Ok (if len b >? 0 then <[off := mkSourceOffsetEntry (len b) k]> offsets
        else offsets).
Proof.
  intros Hoff Hmax Hfresh. pose proof (len_nonneg b).
  unfold indexSlot, stagedSlot.
  destruct (Z.gtb_spec (len b) 0) as [Hpos|Hzero]; cbn [State Length Offset].
  - case_bool_decide; [|congruence]. cbn [andb].
    destruct (Z.gtb_spec (len b) 0); [|lia].
    destruct (Z.gtb_spec off maxSectionSize); [lia|].
    destruct (Z.gtb_spec (len b) maxSectionSize); [lia|]. cbn [orb].
    rewrite Hfresh by lia. reflexivity.
  - case_bool_decide; [discriminate|]. reflexivity.
Qed.

Lemma covers_below (index index' : gmap Z sourceOffsetEntry) (c : ChecksumType)
    (which : bool) (m : ModuleMap) :
  forall off,
  (forall j, off <= j -> index' !! j = index !! j) ->
  covers index c which m off -> covers index' c which m off.
Proof.
  induction m as [|[k e] m IH]; intros off Hsame; cbn [covers]; [auto|].
  intros [Hhead Htail]. split.
  - intros Hpos. rewrite Hsame by lia. auto.
  - apply IH; [|exact Htail]. intros j Hj. apply Hsame.
    pose proof (advance_ge c off (entryData which e)). lia.
Qed.

Lemma buildOffsets_staged (c : ChecksumType) (M0 : ModuleMap) :
  NoDup (ModuleMap_Keys M0) ->
  forall (m preM : ModuleMap) (so mo : Z) (soAcc smoAcc : gmap Z sourceOffsetEntry),
  M0 = preM ++ staged c (fun _ => false) m so mo ->
  Forall (fun kv => readyEntry kv.2) m ->
  0 <= so -> so + len (payloadBytes c false m) <= maxSectionSize ->
  0 <= mo -> mo + len (payloadBytes c true m) <= maxSectionSize ->
  (forall j, so <= j -> soAcc !! j = None) ->
  (forall j, mo <= j -> smoAcc !! j = None) ->
  exists sourceOffsets sourceMapOffsets,
    buildOffsets M0 m.*1 soAcc smoAcc = Ok (sourceOffsets, sourceMapOffsets) /\
    covers sourceOffsets c false m so /\
    covers sourceMapOffsets c true m mo /\
    (forall j, j < so -> sourceOffsets !! j = soAcc !! j) /\
    (forall j, j < mo -> sourceMapOffsets !! j = smoAcc !! j).
Proof.
  intros Hnd.
  induction m as [|[k e] m IH];
    intros preM so mo soAcc smoAcc HM0 Hready Hso Hsrc Hmo Hmap Hfs Hfm.
  - exists soAcc, smoAcc. cbn. auto.
  - cbn [staged] in HM0. cbn [fmap list_fmap fst buildOffsets].
    apply Forall_cons in Hready. destruct Hready as [He Hready]. cbn [snd] in He.
    rewrite len_payloadBytes_cons in Hsrc, Hmap.
    pose proof (len_payloadEntry_ge c (entryData false e)).
    pose proof (len_payloadEntry_ge c (entryData true e)).
    pose proof (len_nonneg (payloadBytes c false m)).
    pose proof (len_nonneg (payloadBytes c true m)).
    pose proof (len_nonneg (entryData false e)).
    pose proof (len_nonneg (entryData true e)).
    pose proof (advance_ge c so (entryData false e)) as Hadv.
    pose proof (advance_ge c mo (entryData true e)) as Hadvm.
    assert (Hget : ModuleMap_Get M0 k = Some (stagedEntry (fun _ => false) e so mo)).
    { rewrite HM0 in Hnd |- *.
      destruct (NoDup_app_head _ _ _ _ Hnd) as (Hpre & _ & _).
      rewrite ModuleMap_Get_app by assumption. cbn [ModuleMap_Get].
      destruct (decide (k = k)); [reflexivity|congruence]. }
    rewrite Hget.
    set (soAcc' := if len (entryData false e) >? 0
                   then <[so := mkSourceOffsetEntry (len (entryData false e)) k]> soAcc
                   else soAcc).
    set (smoAcc' := if len (entryData true e) >? 0
                    then <[mo := mkSourceOffsetEntry (len (entryData true e)) k]> smoAcc
                    else smoAcc).
    assert (Hfs' : forall j, advance c so (entryData false e) <= j -> soAcc' !! j = None).
    { intros j Hj. unfold soAcc'.
      destruct (Z.gtb_spec (len (entryData false e)) 0) as [Hpos|]; [|apply Hfs; lia].
      pose proof (advance_pos c so _ Hpos).
      rewrite lookup_insert_ne by lia. apply Hfs. lia. }
    assert (Hfm' : forall j, advance c mo (entryData true e) <= j -> smoAcc' !! j = None).
    { intros j Hj. unfold smoAcc'.
      destruct (Z.gtb_spec (len (entryData true e)) 0) as [Hpos|]; [|apply Hfm; lia].
      pose proof (advance_pos c mo _ Hpos).
      rewrite lookup_insert_ne by lia. apply Hfm. lia. }
    assert (HM0' : M0 = (preM ++ [(k, stagedEntry (fun _ => false) e so mo)])
                        ++ staged c (fun _ => false) m
                             (advance c so (entryData false e))
                             (advance c mo (entryData true e))).
    { rewrite HM0, <- app_assoc. reflexivity. }
    destruct (IH _ _ _ soAcc' smoAcc' HM0' Hready) as
      (so' & smo' & Hbuild & Hcs & Hcm & Hbs & Hbm);
      try assumption; try (unfold advance in *; lia).
    exists so', smo'.
    assert (Hheads : 0 < len (entryData false e) ->
              so' !! so = Some (mkSourceOffsetEntry (len (entryData false e)) k)).
    { intros Hpos. pose proof (advance_pos c so _ Hpos).
      rewrite Hbs by lia. unfold soAcc'.
      destruct (Z.gtb_spec (len (entryData false e)) 0); [|lia].
      apply lookup_insert_eq. }
    assert (Hheadm : 0 < len (entryData true e) ->
              smo' !! mo = Some (mkSourceOffsetEntry (len (entryData true e)) k)).
    { intros Hpos. pose proof (advance_pos c mo _ Hpos).
      rewrite Hbm by lia. unfold smoAcc'.
      destruct (Z.gtb_spec (len (entryData true e)) 0); [|lia].
      apply lookup_insert_eq. }
    assert (Hbelow_s : forall j, j < so -> so' !! j = soAcc !! j).
    { intros j Hj. rewrite Hbs by lia. unfold soAcc'.
      destruct (len (entryData false e) >? 0); [|reflexivity].
      apply lookup_insert_ne. lia. }
    assert (Hbelow_m : forall j, j < mo -> smo' !! j = smoAcc !! j).
    { intros j Hj. rewrite Hbm by lia. unfold smoAcc'.
      destruct (len (entryData true e) >? 0); [|reflexivity].
      apply lookup_insert_ne. lia. }
    split; [|cbn [covers]; auto].
    destruct e as [[kind src smap]|target|id]; cbn [stagedEntry]; cbn [readyEntry] in He.
    + cbn [Source SourceMap].
      rewrite indexSlot_staged by (try assumption; lia). cbn [obind].
      rewrite indexSlot_staged by (try assumption; lia). cbn [obind].
      exact Hbuild.
    + exact Hbuild.
    + contradiction.
Qed.

(** ** The loader over a laid-out payload section *)

Section RoundTrip.

(** What the round trip takes from the external functions: SHA-256 digests
    are 32 bytes long and XXH3 digests 8, and the npm decoder reads an
    empty npm section as the absence of a snapshot. *)
Hypothesis sha256_len : forall data, len (sha256_sum data) = 32.
Hypothesis xxh3_len : forall data, len (xxh3_sum data) = 8.
Hypothesis parseNpmContent_empty : parseNpmContent [] ∅ = Ok None.

Lemma len_Hash (c : ChecksumType) (data : bytes) : len (Hash c data) = DigestSize c.
Proof. destruct c; cbn [Hash DigestSize]; auto. Qed.

Lemma Verify_Hash (c : ChecksumType) (data : bytes) : Verify c data (Hash c data) = true.
Proof. destruct c; cbn [Verify]; [reflexivity| |]; apply bool_decide_eq_true; reflexivity. Qed.

Lemma ModuleMap_update_app (pre tl : ModuleMap) (k : gostring) (e : EszipModule)
    (f : EszipModule -> EszipModule) :
  k ∉ pre.*1 ->
  ModuleMap_update (pre ++ (k, e) :: tl) k f = pre ++ (k, f e) :: tl.
Proof.
  induction pre as [|[k' v'] pre IH]; cbn [app ModuleMap_update fmap list_fmap fst].
  - intros _. destruct (decide (k = k)); [reflexivity|congruence].
  - intros Hnot. apply not_elem_of_cons in Hnot. destruct Hnot as [Hne Hnot].
    destruct (decide (k' = k)); [congruence|]. rewrite IH by assumption. reflexivity.
Qed.

Lemma stagedEntry_skip (which : bool) (ld : bool -> bool) (e : EszipModule) (so mo : Z) :
  len (entryData which e) = 0 ->
  stagedEntry (afterPass which ld) e so mo = stagedEntry ld e so mo.
Proof.
  destruct e as [d|t|i]; cbn [stagedEntry]; try reflexivity.
  intros Hzero. unfold stagedSlot, afterPass.
  destruct which; cbn [Bool.eqb]; rewrite Hzero; reflexivity.
Qed.

Lemma setSlotReady_staged (which : bool) (ld : bool -> bool) (d : ModuleData)
    (so mo : Z) (pre tl : ModuleMap) (k : gostring) :
  ld which = false ->
  0 < len (entryData which (EModuleData d)) ->
  k ∉ pre.*1 ->
  setSlotReady (pre ++ (k, stagedEntry ld (EModuleData d) so mo) :: tl) k which
    (Some (entryData which (EModuleData d))) =
  pre ++ (k, stagedEntry (afterPass which ld) (EModuleData d) so mo) :: tl.
Proof.
  intros Hld Hpos Hpre. unfold setSlotReady.
  rewrite ModuleMap_update_app by assumption.
  apply Z.gtb_lt in Hpos.
  cbn [stagedEntry]. unfold stagedSlot, afterPass.
  destruct which; cbn [Bool.eqb Kind Source SourceMap]; rewrite Hld, Hpos;
    reflexivity.
Qed.

Lemma loadSection_loop_staged (ctx : Context) (c : ChecksumType) (options : Options)
    (index : gmap Z sourceOffsetEntry) (which : bool) (ld : bool -> bool)
    (totalLen : Z) (rest : bytes) :
  (forall k, ctx k = false) ->
  Checksum options = c -> GetChecksumSize options = DigestSize c ->
  ld which = false ->
  totalLen <= maxSectionSize ->
  forall (m preM : ModuleMap) (so mo read : Z) (fuel polls : nat),
  read = (if which then mo else so) ->
  covers index c which m read ->
  NoDup (ModuleMap_Keys (preM ++ staged c ld m so mo)) ->
  totalLen = read + len (payloadBytes c which m) ->
  0 <= read ->
  len (payloadBytes c which m) <= Z.of_nat fuel ->
  exists polls',
    loadSection_loop fuel ctx options index which totalLen read
      (mkLoader (payloadBytes c which m ++ rest) (preM ++ staged c ld m so mo) polls) =
    (Ok tt, mkLoader rest (preM ++ staged c (afterPass which ld) m so mo) polls').
Proof.
  intros Hctx Hc Hsize Hld Hmax.
  induction m as [|[k e] m IH]; intros preM so mo read fuel polls Hread Hcov Hnd Htotal Hpos Hfuel.
  - exists polls. cbn [payloadBytes foldr staged app] in *. rewrite len_nil in Htotal.
    destruct fuel; cbn [loadSection_loop];
      (destruct (Z.ltb_spec read totalLen); [lia|reflexivity]).
  - cbn [staged] in *. cbn [covers] in Hcov. destruct Hcov as [Hhead Hcov].
    rewrite len_payloadBytes_cons in Htotal, Hfuel.
    change (payloadBytes c which ((k, e) :: m))
      with (payloadEntry c (entryData which e) ++ payloadBytes c which m).
    pose proof (len_nonneg (payloadBytes c which m)) as Hnn.
    pose proof (len_nonneg (entryData which e)) as Hnb.
    destruct (NoDup_app_head _ _ _ _ Hnd) as (Hpre & _ & Hnd').
    assert (Hread' : advance c read (entryData which e) =
              if which then advance c mo (entryData true e)
              else advance c so (entryData false e)).
    { subst read. destruct which; reflexivity. }
    destruct (Z.eq_dec (len (entryData which e)) 0) as [Hzero|Hnz].
    + assert (Hpe : payloadEntry c (entryData which e) = []).
      { unfold payloadEntry. rewrite Hzero. reflexivity. }
      assert (Hadv : advance c read (entryData which e) = read).
      { unfold advance. rewrite Hpe, len_nil. lia. }
      rewrite Hpe in *. rewrite len_nil in *. cbn [app].
      rewrite Hadv in *.
      destruct (IH (preM ++ [(k, stagedEntry ld e so mo)])
                  (advance c so (entryData false e))
                  (advance c mo (entryData true e)) read fuel polls)
        as (polls' & Hloop); try assumption; try lia.
      exists polls'.
      rewrite <- !app_assoc in Hloop. cbn [app] in Hloop.
      rewrite stagedEntry_skip by assumption. exact Hloop.
    + assert (Hb : 0 < len (entryData which e)) by lia.
      specialize (Hhead Hb).
      pose proof (advance_pos c read _ Hb) as Hadv.
      assert (Hpe : payloadEntry c (entryData which e) =
                entryData which e ++ Hash c (entryData which e)).
      { unfold payloadEntry. destruct (Z.gtb_spec (len (entryData which e)) 0); [reflexivity|lia]. }
      assert (Hlpe : len (payloadEntry c (entryData which e)) =
                len (entryData which e) + DigestSize c).
      { rewrite Hpe, len_app, len_Hash. reflexivity. }
      assert (Hdn : 0 <= DigestSize c) by (destruct c; cbn; lia).
      destruct e as [d|t|i]; [|cbn [entryData] in Hb; rewrite len_nil in Hb; lia..].
      destruct fuel as [|fuel]; [lia|].
      rewrite loadSection_loop_S. cbn [l_polls l_br l_modules]. cbv zeta.
      destruct (Z.ltb_spec read totalLen); [|lia].
      rewrite Hctx, Hhead. cbn [entryLength entrySpecifier].
      rewrite Hpe, <- !app_assoc.
      rewrite readSectionWithSize_framed;
        [|reflexivity|lia|rewrite len_Hash; symmetry; exact Hsize].
      cbn [l_polls l_br l_modules]. unfold IsChecksumValid, TotalLen, IntoContent.
      cbn [s_checksum s_content s_hash]. rewrite Hc, Verify_Hash. cbn [negb].
      rewrite setSlotReady_staged by assumption.
      rewrite len_Hash.
      unfold advance in Hread', Hcov. rewrite Hlpe in Hread', Hcov.
      destruct (IH (preM ++ [(k, stagedEntry (afterPass which ld) (EModuleData d) so mo)])
                  (advance c so (entryData false (EModuleData d)))
                  (advance c mo (entryData true (EModuleData d)))
                  (read + (len (entryData which (EModuleData d)) + DigestSize c))
                  fuel (S polls))
        as (polls' & Hloop); try assumption; try lia.
      { unfold ModuleMap_Keys in *. rewrite !fmap_app in *. exact Hnd'. }
      exists polls'.
      rewrite <- !app_assoc in Hloop. cbn [app] in Hloop. exact Hloop.
Qed.


(** ** Reading a serialized archive back *)

Lemma readSection_section (c : ChecksumType) (options : Options) (content rest : bytes) :
  len content <= maxSectionSize ->
  Checksum options = c -> GetChecksumSize options = DigestSize c ->
  readSection (sectionBytes c content ++ rest) options =
    Ok (mkSection content (Hash c content) c, rest).
Proof.
  intros Hlen Hc Hsize. unfold sectionBytes. rewrite <- !app_assoc.
  rewrite readSection_framed by assumption. rewrite Hsize, Hc.
  destruct (Z.gtb_spec (DigestSize c) 0) as [Hpos|Hzero].
  - rewrite ReadFull_app by (rewrite len_Hash; reflexivity). reflexivity.
  - destruct c; cbn [DigestSize] in Hzero; try lia. reflexivity.
Qed.

Lemma parseOptionsHeader_archive (o : Options) (rest : bytes) :
  GetChecksumSize o = DigestSize (Checksum o) ->
  parseOptionsHeader (sectionBytes (Checksum o) (optionsContent o) ++ rest)
    (mkOptions ChecksumNone 0) =
  Ok (mkOptions (Checksum o) (DigestSize (Checksum o)), rest).
Proof.
  intros Hsize. unfold parseOptionsHeader. cbv zeta.
  unfold sectionBytes at 1. rewrite <- !app_assoc.
  rewrite readSection_framed
    by (rewrite maxSectionSize_val; unfold optionsContent, len; cbn [length]; lia).
  change (GetChecksumSize (mkOptions ChecksumNone 0) >? 0) with false. cbv iota.
  cbn [obind]. unfold ContentLen, Content. cbn [s_content].
  change (len (optionsContent o)) with 4.
  change (negb (Z.rem 4 2 =? 0)) with false. cbv iota.
  assert (Hpairs : parseOptionsHeader_pairs (optionsContent o) (mkOptions ChecksumNone 0)
                   = mkOptions (Checksum o) (DigestSize (Checksum o))).
  { unfold optionsContent. cbn [parseOptionsHeader_pairs].
    rewrite !byte_to_of_Z_small by lia.
    change (0 =? 0) with true. change (1 =? 0) with false. change (1 =? 1) with true.
    cbv iota. rewrite ChecksumFromU8_byte. cbn [Checksum ChecksumSize].
    rewrite Hsize. rewrite byte_to_of_Z_small by (destruct (Checksum o); cbn; lia).
    reflexivity. }
  rewrite Hpairs.
  assert (Hg : GetChecksumSize (mkOptions (Checksum o) (DigestSize (Checksum o)))
               = DigestSize (Checksum o)).
  { unfold GetChecksumSize. cbn [Checksum ChecksumSize].
    destruct (DigestSize (Checksum o) =? 0); reflexivity. }
  rewrite Hg. cbn [Checksum].
  destruct (Checksum o) eqn:Ec; cbn [DigestSize].
  - reflexivity.
  - change (32 =? 0) with false. change (32 >? 0) with true. cbn [andb]. cbv iota.
    rewrite ReadFull_app by (rewrite len_Hash; reflexivity). cbn [obind].
    rewrite Verify_Hash. reflexivity.
  - change (8 =? 0) with false. change (8 >? 0) with true. cbn [andb]. cbv iota.
    rewrite ReadFull_app by (rewrite len_Hash; reflexivity). cbn [obind].
    rewrite Verify_Hash. reflexivity.
Qed.

Lemma parseV2WithVersion_archive (e : EszipV2) :
  constructed e ->
  len (headerBytes (Checksum (options e)) (modules e) 0 0) <= maxSectionSize ->
  len (payloadBytes (Checksum (options e)) false (modules e)) <= MaxUint32 ->
  len (payloadBytes (Checksum (options e)) true (modules e)) <= MaxUint32 ->
  Parse (archiveBytes e) =
    let* offsets :=
      buildOffsets (modules (parsedArchive e)) (ModuleMap_Keys (modules e)) ∅ ∅ in
    Ok (UnionV2 (parsedArchive e), CompleteV2 (parsedCompletion e offsets)).
Proof.
  intros (Hver & Hnpm & Hsize & _ & Hnd & Hready) Hhdr Hsrc Hmap.
  unfold Parse, archiveBytes. cbv zeta. rewrite Hver.
  rewrite ReadFull_app by reflexivity. cbn [obind].
  rewrite (proj2 (VersionFromMagic_ToMagic _ LatestVersion) eq_refl).
  unfold parseV2WithVersion. cbv zeta.
  change (SupportsOptions LatestVersion) with true.
  change (SupportsNpm LatestVersion) with true. cbv iota.
  rewrite parseOptionsHeader_archive by assumption. cbn [obind].
  set (c := Checksum (options e)) in *.
  set (o := mkOptions c (DigestSize c)).
  assert (Hg : GetChecksumSize o = DigestSize c).
  { unfold GetChecksumSize, o. cbn [Checksum ChecksumSize].
    destruct (DigestSize c =? 0); reflexivity. }
  rewrite (readSection_section c) by (assumption || reflexivity). cbn [obind].
  unfold IsChecksumValid, Content. cbn [s_content s_hash s_checksum].
  rewrite Verify_Hash. cbn [negb].
  rewrite parseModulesHeader_staged; try assumption;
    [|rewrite maxSectionSize_val in Hhdr; unfold MaxUint32; lia].
  cbn [obind]. unfold parseNpmSection.
  rewrite (readSection_section c)
    by (first [assumption | reflexivity | rewrite maxSectionSize_val; change (len []) with 0; lia]).
  cbn [obind]. unfold IsChecksumValid, Content. cbn [s_content s_hash s_checksum].
  rewrite Verify_Hash. cbn [negb]. rewrite parseNpmContent_empty. cbn [obind].
  rewrite staged_Keys.
  unfold parsedArchive, parsedCompletion. cbv zeta. cbn [modules]. fold c. fold o.
  destruct (buildOffsets _ _ _ _) as [[so smo]| |]; reflexivity.
Qed.

(** ** The completion task on a serialized archive *)

Lemma loadSection_staged (ctx : Context) (c : ChecksumType) (options : Options)
    (index : gmap Z sourceOffsetEntry) (which : bool) (ld : bool -> bool)
    (m : ModuleMap) (rest : bytes) (polls : nat) :
  (forall k, ctx k = false) ->
  Checksum options = c -> GetChecksumSize options = DigestSize c ->
  ld which = false ->
  len (payloadBytes c which m) <= maxSectionSize ->
  covers index c which m 0 ->
  NoDup (ModuleMap_Keys m) ->
  exists polls',
    loadSection ctx options index which
      (mkLoader ((BigEndian_PutUint32 (len (payloadBytes c which m))
                  ++ payloadBytes c which m) ++ rest)
                (staged c ld m 0 0) polls) =
    (Ok tt, mkLoader rest (staged c (afterPass which ld) m 0 0) polls').
Proof.
  intros Hctx Hc Hsize Hld Hmax Hcov Hnd.
  pose proof (len_nonneg (payloadBytes c which m)) as Hnn.
  unfold loadSection. cbn [l_br l_modules l_polls]. rewrite <- !app_assoc.
  rewrite ReadFull_app by reflexivity. cbv zeta.
  rewrite <- (app_nil_r (BigEndian_PutUint32 _)).
  rewrite Uint32_PutUint32
    by (rewrite maxSectionSize_val in Hmax; unfold MaxUint32; lia).
  destruct (Z.gtb_spec (len (payloadBytes c which m)) maxSectionSize); [lia|].
  destruct (loadSection_loop_staged ctx c options index which ld
              (len (payloadBytes c which m)) rest Hctx Hc Hsize Hld Hmax
              m [] 0 0 0 (Z.to_nat (len (payloadBytes c which m))) polls)
    as (polls' & Hloop); try lia.
  - destruct which; reflexivity.
  - exact Hcov.
  - cbn [app]. rewrite staged_Keys. exact Hnd.
  - exists polls'. exact Hloop.
Qed.

Lemma completeFn_archive (ctx : Context) (e : EszipV2)
    (offsets : gmap Z sourceOffsetEntry * gmap Z sourceOffsetEntry) :
  (forall k, ctx k = false) ->
  NoDup (ModuleMap_Keys (modules e)) ->
  sectionsWithin e maxSectionSize ->
  covers offsets.1 (Checksum (options e)) false (modules e) 0 ->
  covers offsets.2 (Checksum (options e)) true (modules e) 0 ->
  completeFn (parsedCompletion e offsets) ctx (parsedArchive e) =
    (Ok tt,
     withModules (parsedArchive e)
       (resolvePendingSlots
          (staged (Checksum (options e))
             (afterPass true (afterPass false (fun _ => false))) (modules e) 0 0))).
Proof.
  intros Hctx Hnd (_ & Hsrc & Hmap) Hcs Hcm.
  unfold completeFn, loadSources, parsedCompletion, parsedArchive. cbv zeta.
  cbn [c_br c_options c_sourceOffsets c_sourceMapOffsets modules].
  set (c := Checksum (options e)) in *.
  assert (Hg : GetChecksumSize (mkOptions c (DigestSize c)) = DigestSize c).
  { unfold GetChecksumSize. cbn [Checksum ChecksumSize].
    destruct (DigestSize c =? 0); reflexivity. }
  destruct (loadSection_staged ctx c (mkOptions c (DigestSize c)) offsets.1 false
              (fun _ => false) (modules e)
              (BigEndian_PutUint32 (len (payloadBytes c true (modules e)))
               ++ payloadBytes c true (modules e)) 0)
    as (polls1 & Hone); try assumption; try reflexivity.
  rewrite Hone.
  destruct (loadSection_staged ctx c (mkOptions c (DigestSize c)) offsets.2 true
              (afterPass false (fun _ => false)) (modules e) [] polls1)
    as (polls2 & Htwo); try assumption; try reflexivity.
  rewrite app_nil_r in Htwo. rewrite Htwo. reflexivity.
Qed.

(** ** Equivalence of the loaded archive *)

Lemma slotView_staged (off : Z) (s : option bytes) :
  slotView (stagedSlot true off (obytes s)) = slotView (SlotReady s).
Proof.
  unfold stagedSlot, slotView. cbn [SourceSlot_Get obind].
  destruct (Z.gtb_spec (len (obytes s)) 0) as [Hpos|Hzero]; [reflexivity|].
  cbn [obytes default]. f_equal.
  destruct (obytes s) as [|b l]; [reflexivity|].
  rewrite len_cons in Hzero. pose proof (len_nonneg l). lia.
Qed.

Lemma entryView_staged (ld : bool -> bool) (e : EszipModule) (so mo : Z) :
  ld false = true -> ld true = true -> readyEntry e ->
  entryView (resolveModule (stagedEntry ld e so mo)) = entryView e.
Proof.
  intros Hf Ht. destruct e as [[kind src smap]|target|id]; cbn [readyEntry].
  - cbn [Source SourceMap]. intros [[s ->] [s' ->]].
    cbn [stagedEntry entryData slotOf slotData Source SourceMap Kind].
    rewrite Hf, Ht. unfold resolveModule. cbn [Source SourceMap Kind].
    assert (Hst : forall off b, State (stagedSlot true off b) = SourceSlotPending -> False).
    { intros off b. unfold stagedSlot. destruct (len b >? 0); discriminate. }
    do 2 (case_bool_decide as Hp; [exfalso; exact (Hst _ _ Hp)|clear Hp]).
    cbn [entryView Kind Source SourceMap]. rewrite !slotView_staged. reflexivity.
  - reflexivity.
  - contradiction.
Qed.

Lemma staged_Get_view (c : ChecksumType) (ld : bool -> bool) (m : ModuleMap)
    (specifier : gostring) :
  ld false = true -> ld true = true ->
  Forall (fun kv => readyEntry kv.2) m ->
  forall so mo,
  entryView <$> (resolveModule <$> ModuleMap_Get (staged c ld m so mo) specifier) =
  entryView <$> ModuleMap_Get m specifier.
Proof.
  intros Hf Ht. induction m as [|[k e] m IH]; intros Hready so mo; [reflexivity|].
  apply Forall_cons in Hready. destruct Hready as [He Hready]. cbn [snd] in He.
  cbn [staged ModuleMap_Get].
  destruct (decide (k = specifier)).
  - cbn [fmap option_fmap option_map]. rewrite entryView_staged by assumption.
    reflexivity.
  - apply IH, Hready.
Qed.

(** ** The mutators keep an archive well formed *)

Lemma Insert_Keys_NoDup (m : ModuleMap) (k : gostring) (v : EszipModule) :
  NoDup (ModuleMap_Keys m) -> NoDup (ModuleMap_Keys (ModuleMap_Insert m k v)).
Proof.
  unfold ModuleMap_Keys.
  assert (Hin : forall m x, x ∈ (ModuleMap_Insert m k v).*1 -> x = k \/ x ∈ m.*1).
  { intros m0. induction m0 as [|[k' v'] m0 IH]; intros x;
      cbn [ModuleMap_Insert fmap list_fmap fst].
    - intros Hx. apply elem_of_cons in Hx. destruct Hx as [->|Hx]; auto.
    - destruct (decide (k' = k)) as [->|Hne]; cbn [fmap list_fmap fst].
      + intros Hx. right. exact Hx.
      + intros Hx. apply elem_of_cons in Hx. destruct Hx as [->|Hx].
        * right. apply list_elem_of_here.
        * destruct (IH x Hx) as [->|Hx']; [auto|]. right.
          apply list_elem_of_further, Hx'. }
  induction m as [|[k' v'] m IH]; cbn [ModuleMap_Insert fmap list_fmap fst]; intros Hnd.
  - apply NoDup_singleton.
  - apply NoDup_cons in Hnd. destruct Hnd as [Hnot Hnd].
    destruct (decide (k' = k)) as [->|Hne]; cbn [fmap list_fmap fst];
      apply NoDup_cons; split; try assumption.
    + intros Hx. destruct (Hin _ _ Hx) as [->|Hx']; [congruence|auto].
    + apply IH, Hnd.
Qed.

Lemma Insert_Forall (P : gostring * EszipModule -> Prop) (m : ModuleMap)
    (k : gostring) (v : EszipModule) :
  P (k, v) -> Forall P m -> Forall P (ModuleMap_Insert m k v).
Proof.
  intros Hv. induction m as [|[k' v'] m IH]; cbn [ModuleMap_Insert]; intros Hall.
  - constructor; [exact Hv|constructor].
  - apply Forall_cons in Hall. destruct Hall as [Hh Ht].
    destruct (decide (k' = k)) as [->|Hne]; constructor; auto.
Qed.

Lemma Remove_sub (m : ModuleMap) (k x : gostring) :
  x ∈ (ModuleMap_Remove m k).*1 -> x ∈ m.*1.
Proof.
  induction m as [|[k' v'] m IH]; cbn [ModuleMap_Remove fmap list_fmap fst]; [auto|].
  destruct (decide (k' = k)); cbn [fmap list_fmap fst]; intros Hx.
  - apply list_elem_of_further, Hx.
  - apply elem_of_cons in Hx. destruct Hx as [->|Hx].
    + apply list_elem_of_here.
    + apply list_elem_of_further, IH, Hx.
Qed.

Lemma Remove_Keys_NoDup (m : ModuleMap) (k : gostring) :
  NoDup (ModuleMap_Keys m) ->
  NoDup (ModuleMap_Keys (ModuleMap_Remove m k)) /\ k ∉ (ModuleMap_Remove m k).*1.
Proof.
  unfold ModuleMap_Keys.
  induction m as [|[k' v'] m IH]; cbn [ModuleMap_Remove fmap list_fmap fst]; intros Hnd.
  - split; [constructor|]. intros Hx. inversion Hx.
  - apply NoDup_cons in Hnd. destruct Hnd as [Hnot Hnd].
    destruct (decide (k' = k)) as [->|Hne]; cbn [fmap list_fmap fst].
    + split; assumption.
    + destruct (IH Hnd) as [Hnd' Hk]. split.
      * apply NoDup_cons. split; [|exact Hnd'].
        intros Hx. apply Hnot. eapply Remove_sub, Hx.
      * intros Hx. apply elem_of_cons in Hx. destruct Hx as [Heq|Hx]; [congruence|auto].
Qed.

Lemma Remove_Forall (P : gostring * EszipModule -> Prop) (m : ModuleMap) (k : gostring) :
  Forall P m -> Forall P (ModuleMap_Remove m k).
Proof.
  induction m as [|[k' v'] m IH]; cbn [ModuleMap_Remove]; intros Hall; [constructor|].
  apply Forall_cons in Hall. destruct Hall as [Hh Ht].
  destruct (decide (k' = k)); [exact Ht|]. constructor; auto.
Qed.

Lemma constructed_applyMutator (e : EszipV2) (call : Mutator) :
  constructed e -> constructed (applyMutator e call).
Proof.
  intros (Hver & Hnpm & Hsize & Hcs & Hnd & Hready).
  destruct call; cbn [applyMutator]; unfold AddOpaqueData, AddModule, AddRedirect,
    AddImportMap, SetChecksum, withModules, constructed;
    cbn [version npmSnapshot options modules].
  1, 2, 4: repeat split; try assumption;
    [apply Insert_Keys_NoDup, Hnd
    |apply Insert_Forall; [|exact Hready]; cbn; unfold NewReadySourceSlot; eauto].
  - destruct (Remove_Keys_NoDup (modules e) specifier Hnd) as [Hnd' Hk].
    repeat split; try assumption.
    + unfold ModuleMap_InsertFront, ModuleMap_Keys. cbn [fmap list_fmap fst].
      apply NoDup_cons. split; assumption.
    + unfold ModuleMap_InsertFront. constructor.
      * cbn. unfold NewReadySourceSlot, NewEmptySourceSlot. eauto.
      * apply Remove_Forall, Hready.
  - repeat split; try assumption.
    + unfold GetChecksumSize. cbn [Checksum ChecksumSize].
      destruct (DigestSize checksum =? 0); reflexivity.
    + right. reflexivity.
Qed.

Lemma constructed_construct (calls : list Mutator) : constructed (construct calls).
Proof.
  unfold construct.
  assert (H0 : constructed NewV2).
  { unfold constructed, NewV2. cbn. repeat split; auto; constructor. }
  revert H0. generalize NewV2 as e.
  induction calls as [|call calls IH]; intros e He; cbn [foldl]; [exact He|].
  apply IH, constructed_applyMutator, He.
Qed.

(** ** Round trip *)

Lemma ParseBytes_archive (ctx : Context) (e : EszipV2) :
  (forall k, ctx k = false) ->
  constructed e ->
  sectionsWithin e maxSectionSize ->
  exists parsed,
    ParseBytes ctx (archiveBytes e) = Ok (UnionV2 parsed) /\ equivalent parsed e.
Proof.
  intros Hctx Hcons Hwithin.
  pose proof Hcons as (Hver & Hnpm & Hsize & _ & Hnd & Hready).
  pose proof Hwithin as (Hhdr & Hsrc & Hmap).
  set (c := Checksum (options e)) in *.
  destruct (buildOffsets_staged c (staged c (fun _ => false) (modules e) 0 0))
    with (m := modules e) (preM := @nil (gostring * EszipModule)) (so := 0) (mo := 0)
         (soAcc := (∅ : gmap Z sourceOffsetEntry))
         (smoAcc := (∅ : gmap Z sourceOffsetEntry))
    as (so & smo & Hbuild & Hcs & Hcm & _ & _);
    try assumption; try reflexivity; try lia;
    try (intros; apply lookup_empty).
  { rewrite staged_Keys. exact Hnd. }
  exists (withModules (parsedArchive e)
            (resolvePendingSlots
               (staged c (afterPass true (afterPass false (fun _ => false)))
                  (modules e) 0 0))).
  split.
  - unfold ParseBytes, ParseSync.
    rewrite parseV2WithVersion_archive; try assumption;
      try (rewrite maxSectionSize_val in *; unfold MaxUint32; fold c; lia).
    unfold parsedArchive at 1. cbv zeta. cbn [modules]. fold c.
    change (modules e).*1 with (ModuleMap_Keys (modules e)) in Hbuild.
    rewrite Hbuild. cbn [obind].
    rewrite (completeFn_archive ctx e (so, smo)); try assumption. reflexivity.
  - unfold equivalent, Specifiers, withModules. cbn [modules npmSnapshot].
    split; [|split].
    + rewrite (map_step_Keys _ _ (resolvePendingSlots_step _)). apply staged_Keys.
    + intros specifier. rewrite resolvePendingSlots_Get.
      apply staged_Get_view; [reflexivity|reflexivity|exact Hready].
    + unfold parsedArchive. cbn [npmSnapshot]. symmetry. exact Hnpm.
Qed.

(** C1.  Round trip: an archive built from [NewV2] by calls of AddModule,
    AddRedirect, AddImportMap, AddOpaqueData and SetChecksum, whose modules
    header, sources section and source-maps section are each at most
    [maxSectionSize] (256 MiB) long, serializes, and parsing the bytes under
    a context that is not cancelled returns an archive with the same
    specifiers in the same order, and for every specifier the same kind,
    source bytes, source-map bytes or redirect target, and the same npm
    snapshot.  The digests have their lengths (32 and 8 bytes), and the npm
    decoder reads the empty npm section as no snapshot. *)
Theorem IntoBytes_ParseBytes_roundtrip (calls : list Mutator) (done : bool)
    (ctx : Context) :
  (forall k, ctx k = false) ->
  sectionsWithin (construct calls) maxSectionSize ->
  exists serialized parsed,
    IntoBytes done (construct calls) = Ok serialized /\
    ParseBytes ctx serialized = Ok (UnionV2 parsed) /\
    equivalent parsed (construct calls).
Proof.
  intros Hctx Hwithin.
  pose proof (constructed_construct calls) as Hcons.
  destruct (ParseBytes_archive ctx _ Hctx Hcons Hwithin) as (parsed & Hparse & Heq).
  exists (archiveBytes (construct calls)), parsed.
  split; [|split; assumption].
  apply IntoBytes_layout; [exact Hcons|].
  destruct Hwithin as (Hhdr & Hsrc & Hmap). rewrite maxSectionSize_val in *.
  unfold sectionsWithin, MaxUint32. repeat split; lia.
Qed.

(** The same writer and parser on an archive with one module whose source
    is longer than [maxSectionSize]: the writer accepts it, the parser
    rejects the offset index entry. *)
Lemma oversized_source_rejected (specifier source : bytes) (done : bool) (ctx : Context) :
  len specifier <= 1024 ->
  maxSectionSize < len source <= MaxUint32 ->
  IntoBytes done
    (construct [CallAddModule specifier ModuleKindJavaScript (Some source) None]) =
    Ok (archiveBytes
          (construct [CallAddModule specifier ModuleKindJavaScript (Some source) None]))
  /\
  ParseBytes ctx
    (archiveBytes
       (construct [CallAddModule specifier ModuleKindJavaScript (Some source) None])) =
    Err (ErrInvalidV2Header (MsgSourceOutOfRange specifier)).
Proof.
  intros Hspec [Hbig Hfits].
  set (A := construct [CallAddModule specifier ModuleKindJavaScript (Some source) None]).
  pose proof (constructed_construct
                [CallAddModule specifier ModuleKindJavaScript (Some source) None]) as Hcons.
  fold A in Hcons.
  pose proof (len_nonneg specifier) as Hs0.
  assert (Hm : modules A =
            [(specifier, EModuleData (mkModuleData ModuleKindJavaScript
                                        (SlotReady (Some source)) (SlotReady None)))])
    by reflexivity.
  assert (Hc : Checksum (options A) = ChecksumNone) by reflexivity.
  assert (Hhdr : len (headerBytes (Checksum (options A)) (modules A) 0 0) = 4 + len specifier + 1 + 17).
  { rewrite Hm. cbn [headerBytes]. rewrite app_nil_r, len_frameBytes, len_frameBody.
    reflexivity. }
  assert (Hpe : payloadEntry ChecksumNone source = source ++ []).
  { unfold payloadEntry. destruct (Z.gtb_spec (len source) 0); [reflexivity|].
    rewrite maxSectionSize_val in Hbig. lia. }
  assert (Hsrc : len (payloadBytes (Checksum (options A)) false (modules A)) = len source).
  { rewrite Hm, Hc. cbn [payloadBytes foldr snd entryData slotOf slotData Source obytes default from_option id].
    rewrite Hpe, !app_nil_r. reflexivity. }
  assert (Hmap : len (payloadBytes (Checksum (options A)) true (modules A)) = 0).
  { rewrite Hm, Hc. reflexivity. }
  split.
  - apply IntoBytes_layout; [exact Hcons|].
    unfold sectionsWithin. rewrite Hhdr, Hsrc, Hmap. unfold MaxUint32 in *.
    repeat split; lia.
  - unfold ParseBytes, ParseSync.
    rewrite parseV2WithVersion_archive; try assumption;
      try (rewrite ?Hhdr, ?Hsrc, ?Hmap; rewrite ?maxSectionSize_val; unfold MaxUint32 in *; lia).
    unfold parsedArchive. cbv zeta. cbn [modules]. rewrite Hm, Hc.
    cbn [ModuleMap_Keys fmap list_fmap fst staged buildOffsets ModuleMap_Get].
    destruct (decide (specifier = specifier)); [|congruence].
    cbn [stagedEntry entryData slotOf slotData Source SourceMap obytes default from_option id].
    assert (Hslot : stagedSlot false 0 source = SlotPending 0 (len source)).
    { unfold stagedSlot. destruct (Z.gtb_spec (len source) 0); [reflexivity|].
      rewrite maxSectionSize_val in Hbig. lia. }
    rewrite Hslot. unfold indexSlot at 1. cbn [State Length Offset].
    case_bool_decide; [|congruence]. cbn [andb]. cbv zeta.
    ztest_gt (len source) 0. cbv iota.
    ztest_gt 0 maxSectionSize. ztest_gt (len source) maxSectionSize.
    reflexivity.
Qed.

(** ** Serializing what was parsed *)

Lemma ParseBytes_archive_loaded (ctx : Context) (e : EszipV2) :
  (forall k, ctx k = false) ->
  constructed e ->
  sectionsWithin e maxSectionSize ->
  ParseBytes ctx (archiveBytes e) =
    Ok (UnionV2
          (withModules (parsedArchive e)
             (resolvePendingSlots
                (staged (Checksum (options e))
                   (afterPass true (afterPass false (fun _ => false)))
                   (modules e) 0 0)))).
Proof.
  intros Hctx Hcons Hwithin.
  pose proof Hcons as (Hver & Hnpm & Hsize & _ & Hnd & Hready).
  pose proof Hwithin as (Hhdr & Hsrc & Hmap).
  set (c := Checksum (options e)) in *.
  destruct (buildOffsets_staged c (staged c (fun _ => false) (modules e) 0 0))
    with (m := modules e) (preM := @nil (gostring * EszipModule)) (so := 0) (mo := 0)
         (soAcc := (∅ : gmap Z sourceOffsetEntry))
         (smoAcc := (∅ : gmap Z sourceOffsetEntry))
    as (so & smo & Hbuild & Hcs & Hcm & _ & _);
    try assumption; try reflexivity; try lia;
    try (intros; apply lookup_empty).
  { rewrite staged_Keys. exact Hnd. }
  unfold ParseBytes, ParseSync.
  rewrite parseV2WithVersion_archive; try assumption;
    try (rewrite maxSectionSize_val in *; unfold MaxUint32; fold c; lia).
  unfold parsedArchive at 1. cbv zeta. cbn [modules]. fold c.
  change (modules e).*1 with (ModuleMap_Keys (modules e)) in Hbuild.
  rewrite Hbuild. cbn [obind].
  rewrite (completeFn_archive ctx e (so, smo)); try assumption. reflexivity.
Qed.

Lemma ModuleMap_update_same (m : ModuleMap) (k : gostring)
    (f : EszipModule -> EszipModule) :
  Forall (fun kv => f kv.2 = kv.2) m -> ModuleMap_update m k f = m.
Proof.
  induction m as [|[k' v'] m IH]; cbn [ModuleMap_update]; [reflexivity|].
  intros Hall. apply Forall_cons in Hall. destruct Hall as [Hv Hall]. cbn [snd] in Hv.
  destruct (decide (k' = k)); [rewrite Hv; reflexivity|].
  rewrite IH by assumption. reflexivity.
Qed.

Lemma resolvePendingSlots_same (m : ModuleMap) :
  Forall (fun kv => resolveModule kv.2 = kv.2) m -> resolvePendingSlots m = m.
Proof.
  intros Hall. unfold resolvePendingSlots.
  generalize (ModuleMap_Keys m) as keys.
  induction keys as [|k keys IH]; cbn [foldl]; [reflexivity|].
  rewrite ModuleMap_update_same by assumption. exact IH.
Qed.

Lemma stagedSlot_loaded (off : Z) (b : bytes) :
  stagedSlot true off b = SlotReady (if len b >? 0 then Some b else None).
Proof. unfold stagedSlot. destruct (len b >? 0); reflexivity. Qed.

Lemma slotData_loaded (off : Z) (b : bytes) : slotData (stagedSlot true off b) = b.
Proof.
  rewrite stagedSlot_loaded. cbn [slotData].
  destruct (Z.gtb_spec (len b) 0) as [|Hzero]; [reflexivity|].
  cbn [obytes default]. destruct b as [|x b]; [reflexivity|].
  rewrite len_cons in Hzero. pose proof (len_nonneg b). lia.
Qed.

Lemma resolveModule_loaded (loaded : bool -> bool) (e : EszipModule) (so mo : Z) :
  loaded false = true -> loaded true = true ->
  resolveModule (stagedEntry loaded e so mo) = stagedEntry loaded e so mo.
Proof.
  intros Hf Ht. destruct e as [d|target|id]; try reflexivity.
  cbn [stagedEntry]. rewrite Hf, Ht, !stagedSlot_loaded. reflexivity.
Qed.

Lemma entryData_loaded (loaded : bool -> bool) (which : bool) (e : EszipModule)
    (so mo : Z) :
  loaded false = true -> loaded true = true ->
  entryData which (stagedEntry loaded e so mo) = entryData which e.
Proof.
  intros Hf Ht. destruct e as [d|target|id]; try reflexivity.
  cbn [stagedEntry entryData]. rewrite Hf, Ht.
  destruct which; cbn [slotOf Source SourceMap]; apply slotData_loaded.
Qed.

Lemma frameBytes_loaded (loaded : bool -> bool) (k : gostring) (e : EszipModule)
    (so mo so' mo' : Z) :
  loaded false = true -> loaded true = true ->
  frameBytes k (stagedEntry loaded e so' mo') so mo = frameBytes k e so mo.
Proof.
  intros Hf Ht. unfold frameBytes. f_equal. f_equal.
  destruct e as [d|target|id]; try reflexivity.
  pose proof (entryData_loaded loaded false (EModuleData d) so' mo' Hf Ht) as Hs.
  pose proof (entryData_loaded loaded true (EModuleData d) so' mo' Hf Ht) as Hm.
  cbn [stagedEntry] in *. cbn [frameKind frameBody Kind]. rewrite Hs, Hm. reflexivity.
Qed.

Lemma staged_loaded_bytes (c : ChecksumType) (loaded : bool -> bool) (m : ModuleMap) :
  loaded false = true -> loaded true = true ->
  forall so mo so' mo',
  headerBytes c (staged c loaded m so' mo') so mo = headerBytes c m so mo /\
  (forall which, payloadBytes c which (staged c loaded m so' mo') = payloadBytes c which m).
Proof.
  intros Hf Ht. induction m as [|[k e] m IH]; intros so mo so' mo'.
  - split; reflexivity.
  - cbn [staged headerBytes].
    rewrite frameBytes_loaded, !entryData_loaded by assumption.
    destruct (IH (advance c so (entryData false e)) (advance c mo (entryData true e))
                 (advance c so' (entryData false e)) (advance c mo' (entryData true e)))
      as [Hh Hp].
    split; [rewrite Hh; reflexivity|].
    intros which. cbn [payloadBytes foldr snd].
    rewrite entryData_loaded by assumption. f_equal. apply Hp.
Qed.

Lemma stagedEntry_ready (loaded : bool -> bool) (e : EszipModule) (so mo : Z) :
  loaded false = true -> loaded true = true ->
  readyEntry e -> readyEntry (stagedEntry loaded e so mo).
Proof.
  intros Hf Ht. destruct e as [d|target|id]; cbn [stagedEntry readyEntry]; auto.
  intros _. cbn [Source SourceMap]. rewrite Hf, Ht, !stagedSlot_loaded. eauto.
Qed.

Lemma staged_ready (c : ChecksumType) (loaded : bool -> bool) (m : ModuleMap) :
  loaded false = true -> loaded true = true ->
  Forall (fun kv => readyEntry kv.2) m ->
  forall so mo, Forall (fun kv => readyEntry kv.2) (staged c loaded m so mo).
Proof.
  intros Hf Ht. induction m as [|[k e] m IH]; intros Hall so mo; cbn [staged];
    [constructor|].
  apply Forall_cons in Hall. destruct Hall as [He Hall]. cbn [snd] in He.
  constructor; [cbn [snd]; apply stagedEntry_ready; assumption|]. apply IH, Hall.
Qed.

Lemma staged_resolved (c : ChecksumType) (loaded : bool -> bool) (m : ModuleMap) :
  loaded false = true -> loaded true = true ->
  forall so mo,
  Forall (fun kv => resolveModule kv.2 = kv.2) (staged c loaded m so mo).
Proof.
  intros Hf Ht. induction m as [|[k e] m IH]; intros so mo; cbn [staged];
    constructor; [cbn [snd]; apply resolveModule_loaded; assumption|apply IH].
Qed.

(** X12. Serialization is stable under a round trip: for an archive built
    by the mutators whose sections are each at most [maxSectionSize]
    long, serializing the archive that parsing returns gives the bytes
    that were parsed; in particular the version and the checksum
    algorithm survive the round trip.  (Digest lengths and the npm
    decoder are as for the round trip itself.) *)
Theorem IntoBytes_ParseBytes_IntoBytes (calls : list Mutator) (done : bool)
    (ctx : Context) :
  (forall k, ctx k = false) ->
  sectionsWithin (construct calls) maxSectionSize ->
  exists serialized parsed,
    IntoBytes done (construct calls) = Ok serialized /\
    ParseBytes ctx serialized = Ok (UnionV2 parsed) /\
    IntoBytes done parsed = Ok serialized /\
    version parsed = version (construct calls) /\
    Checksum (options parsed) = Checksum (options (construct calls)).
Proof.
  intros Hctx Hwithin.
  pose proof (constructed_construct calls) as Hcons.
  set (e := construct calls) in *.
  pose proof Hcons as (Hver & Hnpm & Hsize & _ & Hnd & Hready).
  pose proof Hwithin as (Hhdr & Hsrc & Hmap).
  set (c := Checksum (options e)) in *.
  set (loaded := afterPass true (afterPass false (fun _ : bool => false))).
  assert (Hf : loaded false = true) by reflexivity.
  assert (Ht : loaded true = true) by reflexivity.
  assert (Hwithin32 : sectionsWithin e MaxUint32).
  { rewrite maxSectionSize_val in *. unfold sectionsWithin, MaxUint32. fold c.
    repeat split; lia. }
  exists (archiveBytes e),
         (withModules (parsedArchive e) (staged c loaded (modules e) 0 0)).
  destruct (staged_loaded_bytes c loaded (modules e) Hf Ht 0 0 0 0) as [Hh Hp].
  split; [apply IntoBytes_layout; assumption|].
  split.
  { rewrite (ParseBytes_archive_loaded ctx e Hctx Hcons Hwithin). fold c. fold loaded.
    rewrite resolvePendingSlots_same by (apply staged_resolved; assumption).
    reflexivity. }
  split; [|split; [symmetry; exact Hver|reflexivity]].
  set (parsed := withModules (parsedArchive e) (staged c loaded (modules e) 0 0)).
  assert (Hg : GetChecksumSize (mkOptions c (DigestSize c)) = DigestSize c).
  { unfold GetChecksumSize. cbn [Checksum ChecksumSize].
    destruct (DigestSize c =? 0); reflexivity. }
  assert (Hcons' : constructed parsed).
  { unfold constructed, parsed, withModules, parsedArchive.
    cbn [version npmSnapshot options modules Checksum ChecksumSize]. fold c.
    repeat split; try reflexivity; try exact Hg.
    - right. reflexivity.
    - unfold ModuleMap_Keys. rewrite staged_Keys. exact Hnd.
    - apply staged_ready; assumption. }
  assert (Hbytes : archiveBytes parsed = archiveBytes e).
  { unfold archiveBytes, parsed, withModules, parsedArchive. cbv zeta.
    cbn [version npmSnapshot options modules Checksum ChecksumSize]. fold c.
    rewrite Hh, !Hp, Hver. unfold optionsContent. cbn [Checksum]. fold c.
    rewrite Hg, Hsize. reflexivity. }
  rewrite <- Hbytes. apply IntoBytes_layout; [exact Hcons'|].
  unfold sectionsWithin, parsed, withModules, parsedArchive.
  cbn [options modules Checksum]. fold c. rewrite Hh, !Hp. exact Hwithin32.
Qed.
End RoundTrip.

(** * Further properties of the package *)

(** ** Entry points *)

(** X1. An input of fewer than 8 bytes fails every entry point with the
    I/O error of the first read: there is no version dispatch, and the V1
    parser is not consulted. *)
Theorem Parse_short_input (ctx : Context) (input : bytes) :
  len input < 8 ->
  Parse input = Err ErrIO /\
  ParseV2 input = Err ErrIO /\
  ParseSync ctx input = Err ErrIO /\
  ParseBytes ctx input = Err ErrIO /\
  ParseV2Sync ctx input = Err ErrIO.
Proof.
  intros Hshort.
  assert (Hread : ReadFull input 8 = Err ErrIO).
  { unfold ReadFull. destruct (Z.leb_spec 8 (len input)); [lia|reflexivity]. }
  unfold ParseBytes, ParseSync, ParseV2Sync, Parse, ParseV2.
  rewrite Hread. cbn [obind]. repeat split; reflexivity.
Qed.

(** X2. [Parse] and [ParseV2] are the same parser on V2 input: [Parse]
    returns a V2 archive exactly when [ParseV2] returns it, with the same
    completion data, and [ParseSync] returns a loaded V2 archive exactly
    when [ParseV2Sync] does.  They differ on 8 bytes that are no V2 magic
    only: there [ParseV2] fails with [InvalidV2]. *)
Theorem Parse_agrees_with_ParseV2 (ctx : Context) (input : bytes) :
  (forall eszip complete,
     Parse input = Ok (UnionV2 eszip, CompleteV2 complete) <->
     ParseV2 input = Ok (eszip, complete)) /\
  (forall eszip,
     ParseSync ctx input = Ok (UnionV2 eszip) <-> ParseV2Sync ctx input = Ok eszip) /\
  (forall magic rest,
     input = magic ++ rest -> len magic = 8 -> VersionFromMagic magic = None ->
     ParseV2 input = Err ErrInvalidV2).
Proof.
  unfold ParseSync, ParseV2Sync, Parse, ParseV2. cbv zeta.
  destruct (ReadFull input 8) as [[magic br]| |] eqn:Hread; cbn [obind].
  - destruct (VersionFromMagic magic) as [ver|] eqn:Hver.
    + destruct (parseV2WithVersion ver br) as [[e c]| |]; cbn [obind].
      * split; [|split].
        -- intros eszip complete. split; intros [= -> ->]; reflexivity.
        -- intros eszip.
           destruct (completeFn c ctx e) as [[[]| |] e']; split;
             try discriminate; intros [= ->]; reflexivity.
        -- intros magic' rest -> Hlen Hnone.
           rewrite ReadFull_app in Hread by (symmetry; exact Hlen).
           injection Hread as -> ->. congruence.
      * split; [|split]; try (intros; split; discriminate).
        intros magic' rest -> Hlen Hnone.
        rewrite ReadFull_app in Hread by (symmetry; exact Hlen).
        injection Hread as -> ->. congruence.
      * split; [|split]; try (intros; split; discriminate).
        intros magic' rest -> Hlen Hnone.
        rewrite ReadFull_app in Hread by (symmetry; exact Hlen).
        injection Hread as -> ->. congruence.
    + unfold ReadAll. cbn [obind].
      split; [|split]; try reflexivity.
      * intros eszip complete.
        destruct (ParseV1 _); cbn [obind]; split; intros H; discriminate H.
      * intros eszip.
        destruct (ParseV1 _); cbn [obind]; split; intros H; discriminate H.
  - split; [|split]; try (intros; split; discriminate).
    intros magic' rest -> Hlen _.
    rewrite ReadFull_app in Hread by (symmetry; exact Hlen). discriminate.
  - split; [|split]; try (intros; split; discriminate).
    intros magic' rest -> Hlen _.
    rewrite ReadFull_app in Hread by (symmetry; exact Hlen). discriminate.
Qed.

(** ** The modules header, frame by frame *)

Lemma parseModulesHeader_loop_end (fuel : nat) (content : bytes) (supportsNpm : bool)
    (st : HeaderState) :
  len content <= h_read st ->
  parseModulesHeader_loop fuel content supportsNpm st = Ok st.
Proof.
  intros Hend. destruct fuel; cbn [parseModulesHeader_loop];
    (destruct (Z.ltb_spec (h_read st) (len content)); [lia|reflexivity]).
Qed.

(** After a prefix that parses, one more frame that parses to [st'], at
    the end of the content. *)
Lemma parseModulesHeader_last_frame (pre frame : bytes) (supportsNpm : bool)
    (modules : ModuleMap) (npmSpecifiers : gmap gostring Z) (r : outcome HeaderState) :
  len (pre ++ frame) <= MaxUint32 ->
  0 < len frame ->
  parseModulesHeader pre supportsNpm = Ok (modules, npmSpecifiers) ->
  parseModulesHeader_frame (pre ++ frame) supportsNpm
    (mkHeaderState (len pre) modules npmSpecifiers) = r ->
  (forall st', r = Ok st' -> h_read st' = len (pre ++ frame)) ->
  parseModulesHeader (pre ++ frame) supportsNpm =
    let* st' := r in Ok (h_modules st', h_npmSpecifiers st').
Proof.
  intros Hmax Hpos Hpre Hframe Hend.
  rewrite (parseModulesHeader_after_prefix pre frame supportsNpm modules npmSpecifiers
             Hmax Hpre).
  pose proof (len_nonneg pre).
  rewrite parseModulesHeader_loop_step by (cbn [h_read]; unfold len; lia).
  cbn [h_read]. rewrite len_app.
  destruct (Z.ltb_spec (len pre) (len pre + len frame)); [|lia].
  rewrite Hframe. destruct r as [st'| |]; cbn [obind]; try reflexivity.
  rewrite parseModulesHeader_loop_end; [reflexivity|].
  rewrite (Hend st' eq_refl), len_app. lia.
Qed.

Lemma len_moduleFrame (specifier : gostring) (so sl mo ml : Z) (kindByte : byte) :
  len (moduleFrame specifier so sl mo ml kindByte) = 4 + len specifier + 1 + 17.
Proof.
  unfold moduleFrame. rewrite !len_app, len_cons, !len_app, !len_PutUint32, len_cons, len_nil.
  lia.
Qed.

Lemma len_redirectFrame (specifier target : gostring) :
  len (redirectFrame specifier target) = 4 + len specifier + 1 + 4 + len target.
Proof.
  unfold redirectFrame. rewrite !len_app, len_cons, !len_app, !len_PutUint32. lia.
Qed.

Lemma len_npmSpecifierFrame (specifier : gostring) (id : Z) :
  len (npmSpecifierFrame specifier id) = 4 + len specifier + 1 + 4.
Proof.
  unfold npmSpecifierFrame. rewrite !len_app, len_cons, !len_PutUint32. lia.
Qed.

Lemma byte_to_Z_small (z : Z) : 0 <= z < 256 -> byte_to_Z (byte_of_Z z) = z.
Proof. apply byte_to_of_Z_small. Qed.

Lemma moduleFrame_step (content pre post : bytes) (specifier : gostring)
    (so sl mo ml : Z) (kindByte : byte) (supportsNpm : bool) (st : HeaderState) :
  content = pre ++ moduleFrame specifier so sl mo ml kindByte ++ post ->
  h_read st = len pre ->
  len content <= MaxUint32 ->
  0 <= so <= MaxUint32 -> 0 <= sl <= MaxUint32 ->
  0 <= mo <= MaxUint32 -> 0 <= ml <= MaxUint32 ->
  parseModulesHeader_frame content supportsNpm st =
    match moduleKindFromByte kindByte with
    | Some kind =>
        Ok (mkHeaderState (len pre + len (moduleFrame specifier so sl mo ml kindByte))
              (ModuleMap_Insert (h_modules st) specifier
                 (EModuleData (mkModuleData kind (slotFromHeader so sl)
                                 (slotFromHeader mo ml))))
              (h_npmSpecifiers st))
    | None =>
        Err (ErrInvalidV2ModuleKind kindByte
               (len pre + len (moduleFrame specifier so sl mo ml kindByte)))
    end.
Proof.
  intros Hc Hread Hmax Hso Hsl Hmo Hml.
  set (body := BigEndian_PutUint32 so ++ BigEndian_PutUint32 sl
               ++ BigEndian_PutUint32 mo ++ BigEndian_PutUint32 ml ++ [kindByte]).
  assert (Hc' : content = pre ++ BigEndian_PutUint32 (len specifier) ++ specifier
                          ++ HeaderFrameModule :: (body ++ post)).
  { rewrite Hc. unfold moduleFrame, body. rewrite <- !app_assoc. reflexivity. }
  rewrite (frame_head content pre specifier (body ++ post) HeaderFrameModule
             supportsNpm st Hc' Hread Hmax).
  pose proof (frame_content_len content pre specifier _ _ Hc') as Hlen.
  assert (Hbody : len body = 17).
  { unfold body. rewrite !len_app, !len_PutUint32, len_cons, len_nil. lia. }
  rewrite len_app, Hbody in Hlen. rewrite len_moduleFrame.
  pose proof (len_nonneg pre). pose proof (len_nonneg specifier).
  pose proof (len_nonneg post).
  set (read := len pre + 4 + len specifier + 1) in *.
  set (p0 := pre ++ BigEndian_PutUint32 (len specifier) ++ specifier ++ [HeaderFrameModule]).
  assert (Hp0 : len p0 = read).
  { unfold p0, read. rewrite !len_app, len_PutUint32, len_cons, len_nil. lia. }
  assert (Hf0 : content = p0 ++ BigEndian_PutUint32 so
                 ++ (BigEndian_PutUint32 sl ++ BigEndian_PutUint32 mo
                     ++ BigEndian_PutUint32 ml ++ kindByte :: post)).
  { rewrite Hc'. unfold p0, body. rewrite <- !app_assoc. reflexivity. }
  assert (Hf1 : content = (p0 ++ BigEndian_PutUint32 so) ++ BigEndian_PutUint32 sl
                 ++ (BigEndian_PutUint32 mo ++ BigEndian_PutUint32 ml ++ kindByte :: post)).
  { rewrite Hf0, <- !app_assoc. reflexivity. }
  assert (Hf2 : content = (p0 ++ BigEndian_PutUint32 so ++ BigEndian_PutUint32 sl)
                 ++ BigEndian_PutUint32 mo
                 ++ (BigEndian_PutUint32 ml ++ kindByte :: post)).
  { rewrite Hf0, <- !app_assoc. reflexivity. }
  assert (Hf3 : content = (p0 ++ BigEndian_PutUint32 so ++ BigEndian_PutUint32 sl
                          ++ BigEndian_PutUint32 mo)
                 ++ BigEndian_PutUint32 ml ++ (kindByte :: post)).
  { rewrite Hf0, <- !app_assoc. reflexivity. }
  assert (Hf4 : content = (p0 ++ BigEndian_PutUint32 so ++ BigEndian_PutUint32 sl
                          ++ BigEndian_PutUint32 mo ++ BigEndian_PutUint32 ml)
                 ++ kindByte :: post).
  { rewrite Hf0, <- !app_assoc. reflexivity. }
  unfold parseModulesHeader_entry.
  change (byte_to_Z HeaderFrameModule =? 0) with true. cbv iota.
  ztest. cbv zeta.
  rewrite (Uint32_at content _ _ so read (read + 4) Hf0) by (auto; lia).
  rewrite (Uint32_at content _ _ sl (read + 4) (read + 4 + 4) Hf1)
    by (rewrite ?len_app, ?len_PutUint32; auto; lia).
  rewrite (Uint32_at content _ _ mo (read + 4 + 4) (read + 4 + 4 + 4) Hf2)
    by (rewrite ?len_app, ?len_PutUint32; auto; lia).
  rewrite (Uint32_at content _ _ ml (read + 4 + 4 + 4) (read + 4 + 4 + 4 + 4) Hf3)
    by (rewrite ?len_app, ?len_PutUint32; auto; lia).
  rewrite (index_at content _ post kindByte (read + 4 + 4 + 4 + 4) Hf4)
    by (rewrite ?len_app, ?len_PutUint32; lia).
  replace (read + 4 + 4 + 4 + 4 + 1) with (len pre + (4 + len specifier + 1 + 17))
    by (unfold read; lia).
  reflexivity.
Qed.

Lemma redirectFrame_step (content pre post : bytes) (specifier target : gostring)
    (supportsNpm : bool) (st : HeaderState) :
  content = pre ++ redirectFrame specifier target ++ post ->
  h_read st = len pre ->
  len content <= MaxUint32 ->
  parseModulesHeader_frame content supportsNpm st =
    Ok (mkHeaderState (len pre + len (redirectFrame specifier target))
          (ModuleMap_Insert (h_modules st) specifier (EModuleRedirect target))
          (h_npmSpecifiers st)).
Proof.
  intros Hc Hread Hmax.
  assert (Hc' : content = pre ++ BigEndian_PutUint32 (len specifier) ++ specifier
                          ++ HeaderFrameRedirect
                             :: ((BigEndian_PutUint32 (len target) ++ target) ++ post)).
  { rewrite Hc. unfold redirectFrame. rewrite <- !app_assoc. reflexivity. }
  rewrite (frame_head content pre specifier _ HeaderFrameRedirect
             supportsNpm st Hc' Hread Hmax).
  pose proof (frame_content_len content pre specifier _ _ Hc') as Hlen.
  rewrite !len_app, len_PutUint32 in Hlen. rewrite len_redirectFrame.
  pose proof (len_nonneg pre). pose proof (len_nonneg specifier).
  pose proof (len_nonneg post). pose proof (len_nonneg target).
  set (read := len pre + 4 + len specifier + 1) in *.
  set (p0 := pre ++ BigEndian_PutUint32 (len specifier) ++ specifier ++ [HeaderFrameRedirect]).
  assert (Hp0 : len p0 = read).
  { unfold p0, read. rewrite !len_app, len_PutUint32, len_cons, len_nil. lia. }
  assert (Hbody : content = p0 ++ BigEndian_PutUint32 (len target) ++ (target ++ post)).
  { rewrite Hc'. unfold p0. rewrite <- !app_assoc. reflexivity. }
  unfold parseModulesHeader_entry.
  change (byte_to_Z HeaderFrameRedirect =? 0) with false.
  change (byte_to_Z HeaderFrameRedirect =? 1) with true. cbv iota.
  ztest. cbv zeta.
  rewrite (Uint32_at content p0 (target ++ post) (len target) read) by (auto; lia).
  rewrite (to_uint32_small (len content - (read + 4))) by lia.
  ztest.
  rewrite (slice_at content (p0 ++ BigEndian_PutUint32 (len target)) target post)
    by (rewrite ?len_app, ?len_PutUint32; try lia;
        rewrite Hbody, <- !app_assoc; reflexivity).
  do 2 f_equal. unfold read. lia.
Qed.

Lemma npmSpecifierFrame_step (content pre post : bytes) (specifier : gostring)
    (id : Z) (supportsNpm : bool) (st : HeaderState) :
  content = pre ++ npmSpecifierFrame specifier id ++ post ->
  h_read st = len pre ->
  len content <= MaxUint32 ->
  0 <= id <= MaxUint32 ->
  parseModulesHeader_frame content supportsNpm st =
    if supportsNpm
    then Ok (mkHeaderState (len pre + len (npmSpecifierFrame specifier id))
               (h_modules st) (<[specifier := id]> (h_npmSpecifiers st)))
    else Err (ErrInvalidV2EntryKind HeaderFrameNpmSpecifier
                (len pre + 4 + len specifier + 1)).
Proof.
  intros Hc Hread Hmax Hid.
  assert (Hc' : content = pre ++ BigEndian_PutUint32 (len specifier) ++ specifier
                          ++ HeaderFrameNpmSpecifier :: (BigEndian_PutUint32 id ++ post)).
  { rewrite Hc. unfold npmSpecifierFrame. rewrite <- !app_assoc. reflexivity. }
  rewrite (frame_head content pre specifier _ HeaderFrameNpmSpecifier
             supportsNpm st Hc' Hread Hmax).
  pose proof (frame_content_len content pre specifier _ _ Hc') as Hlen.
  rewrite !len_app, len_PutUint32 in Hlen. rewrite len_npmSpecifierFrame.
  pose proof (len_nonneg pre). pose proof (len_nonneg specifier).
  pose proof (len_nonneg post).
  set (read := len pre + 4 + len specifier + 1) in *.
  set (p0 := pre ++ BigEndian_PutUint32 (len specifier) ++ specifier
             ++ [HeaderFrameNpmSpecifier]).
  assert (Hp0 : len p0 = read).
  { unfold p0, read. rewrite !len_app, len_PutUint32, len_cons, len_nil. lia. }
  assert (Hbody : content = p0 ++ BigEndian_PutUint32 id ++ post).
  { rewrite Hc'. unfold p0. rewrite <- !app_assoc. reflexivity. }
  unfold parseModulesHeader_entry.
  change (byte_to_Z HeaderFrameNpmSpecifier =? 0) with false.
  change (byte_to_Z HeaderFrameNpmSpecifier =? 1) with false.
  change (byte_to_Z HeaderFrameNpmSpecifier =? 2) with true. cbv iota.
  destruct supportsNpm; cbn [negb]; [|reflexivity].
  ztest. cbv zeta.
  rewrite (Uint32_at content p0 post id read) by (auto; lia).
  do 2 f_equal. unfold read. lia.
Qed.

(** X4. The modules header is read frame by frame, from left to right:
    after a prefix that parses, a Module frame inserts a module with the
    kind of its kind byte and a slot for each (offset, length) pair, a
    Redirect frame inserts a redirect, and an NpmSpecifier frame records
    the package index under the specifier and leaves the module map as it
    is. *)
Theorem parseModulesHeader_frame_by_frame (pre : bytes) (supportsNpm : bool)
    (modules : ModuleMap) (npmSpecifiers : gmap gostring Z) :
  parseModulesHeader pre supportsNpm = Ok (modules, npmSpecifiers) ->
  (forall specifier so sl mo ml kind,
     len (pre ++ moduleFrame specifier so sl mo ml (ModuleKind_byte kind)) <= MaxUint32 ->
     0 <= so <= MaxUint32 -> 0 <= sl <= MaxUint32 ->
     0 <= mo <= MaxUint32 -> 0 <= ml <= MaxUint32 ->
     parseModulesHeader
       (pre ++ moduleFrame specifier so sl mo ml (ModuleKind_byte kind)) supportsNpm =
     Ok (ModuleMap_Insert modules specifier
           (EModuleData (mkModuleData kind (slotFromHeader so sl) (slotFromHeader mo ml))),
         npmSpecifiers)) /\
  (forall specifier target,
     len (pre ++ redirectFrame specifier target) <= MaxUint32 ->
     parseModulesHeader (pre ++ redirectFrame specifier target) supportsNpm =
     Ok (ModuleMap_Insert modules specifier (EModuleRedirect target), npmSpecifiers)) /\
  (forall specifier id,
     len (pre ++ npmSpecifierFrame specifier id) <= MaxUint32 ->
     0 <= id <= MaxUint32 ->
     supportsNpm = true ->
     parseModulesHeader (pre ++ npmSpecifierFrame specifier id) supportsNpm =
     Ok (modules, <[specifier := id]> npmSpecifiers)).
Proof.
  intros Hpre. split; [|split].
  - intros specifier so sl mo ml kind Hmax Hso Hsl Hmo Hml.
    pose proof (len_nonneg specifier).
    rewrite (parseModulesHeader_last_frame pre _ supportsNpm modules npmSpecifiers
               _ Hmax ltac:(rewrite len_moduleFrame; lia) Hpre
               (moduleFrame_step _ pre [] specifier so sl mo ml _ supportsNpm
                  (mkHeaderState (len pre) modules npmSpecifiers)
                  ltac:(rewrite app_nil_r; reflexivity) eq_refl Hmax Hso Hsl Hmo Hml)).
    + rewrite moduleKindFromByte_byte. reflexivity.
    + rewrite moduleKindFromByte_byte. intros st' [= <-]. cbn [h_read].
      rewrite len_app. reflexivity.
  - intros specifier target Hmax.
    pose proof (len_nonneg specifier). pose proof (len_nonneg target).
    rewrite (parseModulesHeader_last_frame pre _ supportsNpm modules npmSpecifiers
               _ Hmax ltac:(rewrite len_redirectFrame; lia) Hpre
               (redirectFrame_step _ pre [] specifier target supportsNpm
                  (mkHeaderState (len pre) modules npmSpecifiers)
                  ltac:(rewrite app_nil_r; reflexivity) eq_refl Hmax)).
    + reflexivity.
    + intros st' [= <-]. cbn [h_read]. rewrite len_app. reflexivity.
  - intros specifier id Hmax Hid ->.
    pose proof (len_nonneg specifier).
    rewrite (parseModulesHeader_last_frame pre _ true modules npmSpecifiers
               _ Hmax ltac:(rewrite len_npmSpecifierFrame; lia) Hpre
               (npmSpecifierFrame_step _ pre [] specifier id true
                  (mkHeaderState (len pre) modules npmSpecifiers)
                  ltac:(rewrite app_nil_r; reflexivity) eq_refl Hmax Hid)).
    + reflexivity.
    + intros st' [= <-]. cbn [h_read]. rewrite len_app. reflexivity.
Qed.

(** What a frame returns inside a prefix of the content, other than a
    header error, it returns in the whole content. *)
Lemma frame_extend (pre rest : bytes) (supportsNpm : bool) (st : HeaderState)
    (r : outcome HeaderState) :
  0 <= h_read st ->
  len (pre ++ rest) <= MaxUint32 ->
  parseModulesHeader_frame pre supportsNpm st = r ->
  (forall msg, r <> Err (ErrInvalidV2Header msg)) ->
  parseModulesHeader_frame (pre ++ rest) supportsNpm st = r.
Proof.
  intros Hread Hmax H Hr. rewrite len_app in Hmax. pose proof (len_nonneg rest) as Hrest.
  pose proof (len_nonneg pre) as Hpre.
  unfold parseModulesHeader_frame, parseModulesHeader_entry in *. cbv zeta in *.
  rewrite len_app.
  pose proof (Uint32_range (slice pre (h_read st) (h_read st + 4))) as Hspec.
  destruct (h_read st + 4 >? len pre) eqn:E1; [exfalso; eapply Hr; symmetry; exact H|].
  zbool. ztest.
  rewrite (slice_prefix pre rest (h_read st)) by lia.
  set (specifierLenU := BigEndian_Uint32 (slice pre (h_read st) (h_read st + 4))) in *.
  rewrite (to_uint32_small (len pre - (h_read st + 4))) in H by lia.
  rewrite (to_uint32_small (len pre + len rest - (h_read st + 4))) by lia.
  destruct (specifierLenU >? len pre - (h_read st + 4)) eqn:E2;
    [exfalso; eapply Hr; symmetry; exact H|].
  zbool. ztest.
  rewrite (slice_prefix pre rest (h_read st + 4)) by lia.
  destruct (h_read st + 4 + specifierLenU + 1 >? len pre) eqn:E3;
    [exfalso; eapply Hr; symmetry; exact H|].
  zbool. ztest.
  rewrite (index_prefix pre rest) by lia.
  set (read := h_read st + 4 + specifierLenU + 1) in *.
  destruct (byte_to_Z (index pre (h_read st + 4 + specifierLenU)) =? 0).
  { destruct (read + 17 >? len pre) eqn:E4; [exfalso; eapply Hr; symmetry; exact H|].
    zbool. ztest.
    rewrite !(slice_prefix pre rest) by lia.
    rewrite (index_prefix pre rest) by lia. exact H. }
  destruct (byte_to_Z (index pre (h_read st + 4 + specifierLenU)) =? 1).
  { destruct (read + 4 >? len pre) eqn:E4; [exfalso; eapply Hr; symmetry; exact H|].
    zbool. ztest.
    pose proof (Uint32_range (slice pre read (read + 4))) as Htarget.
    rewrite (slice_prefix pre rest read) by lia.
    set (targetLenU := BigEndian_Uint32 (slice pre read (read + 4))) in *.
    rewrite (to_uint32_small (len pre - (read + 4))) in H by lia.
    rewrite (to_uint32_small (len pre + len rest - (read + 4))) by lia.
    destruct (targetLenU >? len pre - (read + 4)) eqn:E5;
      [exfalso; eapply Hr; symmetry; exact H|].
    zbool. ztest.
    rewrite (slice_prefix pre rest) by lia. exact H. }
  destruct (byte_to_Z (index pre (h_read st + 4 + specifierLenU)) =? 2); [|exact H].
  destruct (negb supportsNpm); [exact H|].
  destruct (read + 4 >? len pre) eqn:E4; [exfalso; eapply Hr; symmetry; exact H|].
  zbool. ztest.
  rewrite (slice_prefix pre rest) by lia. exact H.
Qed.

Lemma wellFormedFrame_step (pre frame : bytes) (supportsNpm : bool)
    (modules : ModuleMap) (npmSpecifiers : gmap gostring Z) :
  wellFormedFrame supportsNpm frame ->
  len (pre ++ frame) <= MaxUint32 ->
  exists st',
    parseModulesHeader_frame (pre ++ frame) supportsNpm
      (mkHeaderState (len pre) modules npmSpecifiers) = Ok st' /\
    h_read st' = len (pre ++ frame).
Proof.
  intros [(specifier & so & sl & mo & ml & kind & Hso & Hsl & Hmo & Hml & ->)
         |[(specifier & target & ->)|(-> & specifier & id & Hid & ->)]] Hmax.
  - rewrite (moduleFrame_step _ pre [] specifier so sl mo ml _ supportsNpm
               (mkHeaderState (len pre) modules npmSpecifiers)
               ltac:(rewrite app_nil_r; reflexivity) eq_refl Hmax Hso Hsl Hmo Hml).
    rewrite moduleKindFromByte_byte. eexists. split; [reflexivity|].
    cbn [h_read]. rewrite len_app. reflexivity.
  - rewrite (redirectFrame_step _ pre [] specifier target supportsNpm
               (mkHeaderState (len pre) modules npmSpecifiers)
               ltac:(rewrite app_nil_r; reflexivity) eq_refl Hmax).
    eexists. split; [reflexivity|]. cbn [h_read]. rewrite len_app. reflexivity.
  - rewrite (npmSpecifierFrame_step _ pre [] specifier id true
               (mkHeaderState (len pre) modules npmSpecifiers)
               ltac:(rewrite app_nil_r; reflexivity) eq_refl Hmax Hid).
    eexists. split; [reflexivity|]. cbn [h_read]. rewrite len_app. reflexivity.
Qed.

(** X5. A modules header that ends inside a frame is refused: after a
    prefix that parses, any proper, non-empty part of a well-formed frame
    fails the parse with [InvalidV2Header]; nothing of the cut frame is
    taken. *)
Theorem parseModulesHeader_truncated (pre frame kept cut : bytes) (supportsNpm : bool)
    (modules : ModuleMap) (npmSpecifiers : gmap gostring Z) :
  parseModulesHeader pre supportsNpm = Ok (modules, npmSpecifiers) ->
  wellFormedFrame supportsNpm frame ->
  frame = kept ++ cut -> kept <> [] -> cut <> [] ->
  len (pre ++ frame) <= MaxUint32 ->
  exists msg,
    parseModulesHeader (pre ++ kept) supportsNpm = Err (ErrInvalidV2Header msg).
Proof.
  intros Hpre Hframe -> Hkept Hcut Hmax.
  destruct (wellFormedFrame_step pre _ supportsNpm modules npmSpecifiers Hframe Hmax)
    as (st' & Hfull & Hend).
  pose proof (len_nonneg pre) as Hp. pose proof (len_nonneg kept) as Hk.
  pose proof (len_nonneg cut) as Hc.
  assert (Hkpos : 0 < len kept).
  { destruct kept; [congruence|]. rewrite len_cons. pose proof (len_nonneg kept). lia. }
  assert (Hcpos : 0 < len cut).
  { destruct cut; [congruence|]. rewrite len_cons. pose proof (len_nonneg cut). lia. }
  assert (Hmax' : len (pre ++ kept) <= MaxUint32).
  { rewrite !len_app in *. lia. }
  assert (Hmax'' : len ((pre ++ kept) ++ cut) <= MaxUint32).
  { rewrite <- app_assoc. exact Hmax. }
  assert (Hext : forall r,
            parseModulesHeader_frame (pre ++ kept) supportsNpm
              (mkHeaderState (len pre) modules npmSpecifiers) = r ->
            (forall msg, r <> Err (ErrInvalidV2Header msg)) -> r = Ok st').
  { intros r Hr Hnot. rewrite <- Hfull, app_assoc. symmetry.
    apply frame_extend; try assumption; cbn [h_read]; lia. }
  assert (Herr : exists msg,
            parseModulesHeader_frame (pre ++ kept) supportsNpm
              (mkHeaderState (len pre) modules npmSpecifiers)
            = Err (ErrInvalidV2Header msg)).
  { destruct (parseModulesHeader_frame (pre ++ kept) supportsNpm
                (mkHeaderState (len pre) modules npmSpecifiers)) as [st''|e|] eqn:Hr.
    - exfalso.
      pose proof (Hext _ eq_refl ltac:(discriminate)) as Heq. injection Heq as ->.
      apply frame_progress in Hr; [|cbn [h_read]; lia].
      rewrite Hend, !len_app in Hr. lia.
    - destruct e; try (eexists; reflexivity); exfalso;
        pose proof (Hext _ eq_refl ltac:(discriminate)) as Heq; discriminate Heq.
    - exfalso.
      pose proof (Hext _ eq_refl ltac:(discriminate)) as Heq. discriminate Heq. }
  destruct Herr as [msg Herr]. exists msg.
  rewrite (parseModulesHeader_last_frame pre kept supportsNpm modules npmSpecifiers
             _ Hmax' Hkpos Hpre Herr); [reflexivity|discriminate].
Qed.

Lemma frame_error (content : bytes) (supportsNpm : bool) (st : HeaderState) (e : Error) :
  0 <= h_read st ->
  parseModulesHeader_frame content supportsNpm st = Err e ->
  headerError content e.
Proof.
  intros Hread H.
  unfold parseModulesHeader_frame, parseModulesHeader_entry in H. cbv zeta in H.
  pose proof (Uint32_range (slice content (h_read st) (h_read st + 4))) as Hspec.
  set (specifierLenU := BigEndian_Uint32 (slice content (h_read st) (h_read st + 4))) in *.
  unfold MaxUint32 in *.
  split_ifs H; try discriminate; zbool; injection H as <-; cbn [headerError];
    try exact I; lia.
Qed.

Lemma parseModulesHeader_loop_error (content : bytes) (supportsNpm : bool) :
  forall (fuel : nat) (st : HeaderState) (e : Error),
  0 <= h_read st ->
  parseModulesHeader_loop fuel content supportsNpm st = Err e ->
  headerError content e.
Proof.
  induction fuel as [|fuel IH]; intros st e Hread H; cbn [parseModulesHeader_loop] in H;
    destruct (h_read st <? len content); try discriminate.
  destruct (parseModulesHeader_frame content supportsNpm st) as [st'|e'|] eqn:Hframe;
    cbn [obind] in H; try discriminate.
  - apply frame_progress in Hframe; [|assumption]. eapply IH; [|exact H]. lia.
  - injection H as <-. eapply frame_error; eassumption.
Qed.

(** X6. [parseModulesHeader] returns on every content, and it fails in
    three ways only: with [InvalidV2Header], with [InvalidV2EntryKind] or
    with [InvalidV2ModuleKind], the last two carrying an offset inside the
    content (just past the byte they refuse). *)
Theorem parseModulesHeader_outcomes (content : bytes) (supportsNpm : bool) :
  match parseModulesHeader content supportsNpm with
  | Ok _ => True
  | Err e => headerError content e
  | Hang => False
  end.
Proof.
  unfold parseModulesHeader.
  destruct (parseModulesHeader_loop (length content) content supportsNpm
              (mkHeaderState 0 NewModuleMap ∅)) as [st|e|] eqn:Hloop; cbn [obind].
  - exact I.
  - eapply parseModulesHeader_loop_error; [|exact Hloop]. cbn [h_read]. lia.
  - eapply parseModulesHeader_loop_returns; [| |exact Hloop]; cbn [h_read]; unfold len; lia.
Qed.

(** ** Sections *)

Lemma byte_testbit_high (b : byte) (n : Z) : 8 <= n -> Z.testbit (byte_to_Z b) n = false.
Proof.
  intros Hn. pose proof (byte_to_Z_range b) as Hb.
  destruct (Z.eq_dec (byte_to_Z b) 0) as [->|Hne]; [apply Z.testbit_0_l|].
  apply Z.bits_above_log2; [lia|].
  assert (Z.log2 (byte_to_Z b) < 8); [|lia].
  apply Z.log2_lt_pow2; [lia|]. change (2 ^ 8) with 256. lia.
Qed.

Lemma byte_of_Z_shiftr (x : Z) (b : byte) (k : Z) :
  0 <= k ->
  (forall n, 0 <= n < 8 -> Z.testbit x (n + k) = Z.testbit (byte_to_Z b) n) ->
  byte_of_Z (Z.shiftr x k) = b.
Proof.
  intros Hk Hbits. apply byte_to_Z_inj.
  apply Z.bits_inj'. intros n Hn. rewrite byte_testbit by assumption.
  destruct (Z.leb_spec 0 n); [|lia]. cbn [andb].
  destruct (Z.ltb_spec n 8).
  - apply Hbits. lia.
  - symmetry. apply byte_testbit_high. lia.
Qed.

(** [PutUint32] after [Uint32] gives the four bytes back. *)
Lemma PutUint32_Uint32 (b : bytes) :
  len b = 4 -> BigEndian_PutUint32 (BigEndian_Uint32 b) = b.
Proof.
  destruct b as [|b0 [|b1 [|b2 [|b3 [|b4 r]]]]]; unfold len; cbn [length]; try lia.
  intros _. cbn [BigEndian_Uint32]. unfold BigEndian_PutUint32.
  set (x := Z.lor _ _).
  assert (Hx : forall n, 0 <= n -> Z.testbit x n =
            Z.testbit (byte_to_Z b0) (n - 24) || Z.testbit (byte_to_Z b1) (n - 16)
            || Z.testbit (byte_to_Z b2) (n - 8) || Z.testbit (byte_to_Z b3) n).
  { intros n Hn. unfold x. apply Uint32_testbit, Hn. }
  assert (Hlow : forall (b : byte) n, n < 0 -> Z.testbit (byte_to_Z b) n = false).
  { intros b n Hn. apply Z.testbit_neg_r, Hn. }
  rewrite <- (Z.shiftr_0_r x) at 4.
  f_equal; [|f_equal; [|f_equal; [|f_equal]]];
    apply byte_of_Z_shiftr; try lia; intros n Hn; rewrite Hx by lia.
  - rewrite (byte_testbit_high b1), (byte_testbit_high b2), (byte_testbit_high b3) by lia.
    rewrite !orb_false_r. f_equal. lia.
  - rewrite (Hlow b0), (byte_testbit_high b2), (byte_testbit_high b3) by lia.
    rewrite !orb_false_r. cbn [orb]. f_equal. lia.
  - rewrite (Hlow b0), (Hlow b1), (byte_testbit_high b3) by lia.
    rewrite !orb_false_r. cbn [orb]. f_equal. lia.
  - rewrite (Hlow b0), (Hlow b1), (Hlow b2) by lia. cbn [orb]. f_equal. lia.
Qed.

(** X3. [readSection] succeeds exactly on an input of the form
    [length | content | digest | rest] with a length of at most
    [maxSectionSize] and a digest of the effective checksum size, and
    consumes exactly these bytes; a declared length above
    [maxSectionSize] is refused whatever follows the four length bytes. *)
Theorem readSection_exact (br : Reader) (options : Options) :
  (forall section rest,
     readSection br options = Ok (section, rest) <->
     br = BigEndian_PutUint32 (len (s_content section))
          ++ s_content section ++ s_hash section ++ rest /\
     len (s_content section) <= maxSectionSize /\
     len (s_hash section) = Z.max 0 (GetChecksumSize options) /\
     s_checksum section = Checksum options) /\
  (forall lengthBytes rest,
     br = lengthBytes ++ rest -> len lengthBytes = 4 ->
     maxSectionSize < BigEndian_Uint32 lengthBytes ->
     readSection br options =
       Err (ErrInvalidV2Header (MsgSectionTooLarge (BigEndian_Uint32 lengthBytes)))).
Proof.
  split.
  - intros [content hash checksum] rest. cbn [s_content s_hash s_checksum]. split.
    + unfold readSection. cbv zeta.
      destruct (ReadFull br 4) as [[lengthBytes br1]| |] eqn:E1; cbn [obind];
        try discriminate.
      apply ReadFull_Ok in E1. destruct E1 as [-> Hlen4]. specialize (Hlen4 ltac:(lia)).
      pose proof (Uint32_range lengthBytes) as Hrange.
      destruct (Z.gtb_spec (BigEndian_Uint32 lengthBytes) maxSectionSize) as [|Hmax];
        [discriminate|].
      destruct (ReadFull br1 (BigEndian_Uint32 lengthBytes)) as [[content' br2]| |] eqn:E2;
        cbn [obind]; try discriminate.
      apply ReadFull_Ok in E2. destruct E2 as [-> Hlenc]. specialize (Hlenc ltac:(lia)).
      destruct (Z.gtb_spec (GetChecksumSize options) 0) as [Hpos|Hzero].
      * destruct (ReadFull br2 (GetChecksumSize options)) as [[hash' br3]| |] eqn:E3;
          cbn [obind]; try discriminate.
        apply ReadFull_Ok in E3. destruct E3 as [-> Hlenh]. specialize (Hlenh ltac:(lia)).
        intros [= <- <- <- <-].
        rewrite Hlenc, (PutUint32_Uint32 _ Hlen4), <- ?app_assoc.
        repeat split; lia.
      * cbn [obind]. intros [= <- <- <- <-].
        rewrite Hlenc, (PutUint32_Uint32 _ Hlen4), <- ?app_assoc.
        change (len []) with 0. repeat split; lia.
    + intros (-> & Hmax & Hhash & ->).
      rewrite readSection_framed by assumption.
      destruct (Z.gtb_spec (GetChecksumSize options) 0) as [Hpos|Hzero].
      * rewrite ReadFull_app by lia. reflexivity.
      * pose proof (len_nonneg hash).
        destruct hash as [|h hash]; [reflexivity|].
        rewrite len_cons in *. pose proof (len_nonneg hash). lia.
  - intros lengthBytes rest -> Hlen4 Hbig. unfold readSection.
    rewrite ReadFull_app by (symmetry; exact Hlen4). cbn [obind]. cbv zeta.
    destruct (Z.gtb_spec (BigEndian_Uint32 lengthBytes) maxSectionSize); [reflexivity|lia].
Qed.

(** ** The offset indexes, from the other side *)

Lemma indexSlot_mono (specifier : gostring) (slot : SourceSlot)
    (outOfRange : gostring -> HeaderMsg)
    (duplicate : Z -> gostring -> gostring -> HeaderMsg)
    (offsets offsets' : gmap Z sourceOffsetEntry) :
  indexSlot specifier slot outOfRange duplicate offsets = Ok offsets' ->
  forall k e, offsets !! k = Some e -> offsets' !! k = Some e.
Proof.
  unfold indexSlot. intros H k e Hk.
  destruct (bool_decide (State slot = SourceSlotPending) && (Length slot >? 0));
    [|injection H as <-; exact Hk].
  destruct ((Offset slot >? maxSectionSize) || (Length slot >? maxSectionSize));
    [discriminate|].
  destruct (offsets !! Offset slot) eqn:Hfresh; [discriminate|].
  injection H as <-.
  rewrite lookup_insert_ne; [exact Hk|]. intros Heq. rewrite Heq in Hfresh. congruence.
Qed.

Lemma indexSlot_complete (specifier : gostring) (offset length : Z)
    (outOfRange : gostring -> HeaderMsg)
    (duplicate : Z -> gostring -> gostring -> HeaderMsg)
    (offsets offsets' : gmap Z sourceOffsetEntry) :
  indexSlot specifier (SlotPending offset length) outOfRange duplicate offsets
    = Ok offsets' ->
  0 < length ->
  offsets' !! offset = Some (mkSourceOffsetEntry length specifier) /\
  offset <= maxSectionSize.
Proof.
  unfold indexSlot. cbn [State Length Offset]. intros H Hpos.
  case_bool_decide; [|congruence]. cbn [andb] in H.
  destruct (Z.gtb_spec length 0); [|lia].
  destruct ((offset >? maxSectionSize) || (length >? maxSectionSize)) eqn:Hrange;
    [discriminate|].
  apply orb_false_iff in Hrange. destruct Hrange as [Hoff _]. zbool.
  destruct (offsets !! offset); [discriminate|].
  injection H as <-. split; [apply lookup_insert_eq|lia].
Qed.

Lemma buildOffsets_mono (mods : ModuleMap) :
  forall (keys : list gostring) (so smo so' smo' : gmap Z sourceOffsetEntry),
  buildOffsets mods keys so smo = Ok (so', smo') ->
  forall (which : bool) k e,
    (if which then smo else so) !! k = Some e ->
    (if which then smo' else so') !! k = Some e.
Proof.
  induction keys as [|specifier keys IH]; intros so smo so' smo' H which k e Hk;
    cbn [buildOffsets] in H.
  - injection H as <- <-. exact Hk.
  - destruct (ModuleMap_Get mods specifier) as [[d|target|id]|] eqn:Hget;
      try (eapply IH; eassumption).
    destruct (indexSlot specifier (Source d) MsgSourceOutOfRange
                MsgDuplicateSourceOffset so) as [so1| |] eqn:E1;
      cbn [obind] in H; try discriminate.
    destruct (indexSlot specifier (SourceMap d) MsgSourceMapOutOfRange
                MsgDuplicateSourceMapOffset smo) as [smo1| |] eqn:E2;
      cbn [obind] in H; try discriminate.
    apply (IH _ _ _ _ H which).
    destruct which; [eapply indexSlot_mono; eassumption|].
    eapply indexSlot_mono; eassumption.
Qed.

Lemma buildOffsets_complete (mods : ModuleMap) :
  forall (keys : list gostring) (so smo so' smo' : gmap Z sourceOffsetEntry),
  buildOffsets mods keys so smo = Ok (so', smo') ->
  forall (which : bool) specifier d offset length,
    specifier ∈ keys ->
    ModuleMap_Get mods specifier = Some (EModuleData d) ->
    slotOf which d = SlotPending offset length ->
    0 < length ->
    (if which then smo' else so') !! offset = Some (mkSourceOffsetEntry length specifier) /\
    offset <= maxSectionSize.
Proof.
  induction keys as [|key keys IH];
    intros so smo so' smo' H which specifier d offset length Hin Hget Hslot Hpos;
    cbn [buildOffsets] in H.
  - inversion Hin.
  - destruct (decide (key = specifier)) as [->|Hne].
    + rewrite Hget in H.
      destruct (indexSlot specifier (Source d) MsgSourceOutOfRange
                  MsgDuplicateSourceOffset so) as [so1| |] eqn:E1;
        cbn [obind] in H; try discriminate.
      destruct (indexSlot specifier (SourceMap d) MsgSourceMapOutOfRange
                  MsgDuplicateSourceMapOffset smo) as [smo1| |] eqn:E2;
        cbn [obind] in H; try discriminate.
      destruct which; cbn [slotOf] in Hslot.
      * rewrite Hslot in E2.
        destruct (indexSlot_complete _ _ _ _ _ _ _ E2 Hpos) as [Hentry Hoff].
        split; [|exact Hoff]. exact (buildOffsets_mono _ _ _ _ _ _ H true _ _ Hentry).
      * rewrite Hslot in E1.
        destruct (indexSlot_complete _ _ _ _ _ _ _ E1 Hpos) as [Hentry Hoff].
        split; [|exact Hoff]. exact (buildOffsets_mono _ _ _ _ _ _ H false _ _ Hentry).
    + apply elem_of_cons in Hin. destruct Hin as [Heq|Hin]; [congruence|].
      destruct (ModuleMap_Get mods key) as [[d'|target|id]|] eqn:Hget';
        try (eapply IH; eassumption).
      destruct (indexSlot key (Source d') MsgSourceOutOfRange
                  MsgDuplicateSourceOffset so) as [so1| |] eqn:E1;
        cbn [obind] in H; try discriminate.
      destruct (indexSlot key (SourceMap d') MsgSourceMapOutOfRange
                  MsgDuplicateSourceMapOffset smo) as [smo1| |] eqn:E2;
        cbn [obind] in H; try discriminate.
      eapply IH; eassumption.
Qed.

(** Every entry of an offset index stands for a Pending slot of positive
    length. *)
Lemma offset_index_sound (ver : EszipVersion) (br : Reader)
    (eszip : EszipV2) (c : Completion) (which : bool) :
  parseV2WithVersion ver br = Ok (eszip, c) ->
  forall offset e,
    (if which then c_sourceMapOffsets c else c_sourceOffsets c) !! offset = Some e ->
    exists d,
      ModuleMap_Get (modules eszip) (entrySpecifier e) = Some (EModuleData d) /\
      slotOf which d = SlotPending offset (entryLength e) /\
      0 < entryLength e <= maxSectionSize.
Proof.
  intros H.
  apply parseV2WithVersion_Ok in H.
  destruct H as (options & br1 & header & br2 & mods & npmSpecifiers & snapshot & br3
                 & so & smo & _ & _ & _ & _ & _ & Hbuild & -> & ->).
  cbn [c_sourceMapOffsets c_sourceOffsets modules] in *.
  intros offset e He.
  destruct (buildOffsets_entries _ _ _ _ _ _ Hbuild which offset e He) as [Hempty|Hd];
    [|exact Hd].
  destruct which; rewrite lookup_empty in Hempty; discriminate.
Qed.

(** X7. The offset indexes the parser hands to the completion function
    are exact: an index holds [(length, specifier)] under an offset
    exactly when the module of that specifier has a Pending slot with
    this offset and a positive length.  So no two such slots share an
    offset, and every indexed offset and length is at most
    [maxSectionSize]. *)
Theorem offset_index_exact (ver : EszipVersion) (br : Reader)
    (eszip : EszipV2) (c : Completion) (which : bool) :
  parseV2WithVersion ver br = Ok (eszip, c) ->
  let index := if which then c_sourceMapOffsets c else c_sourceOffsets c in
  (forall specifier offset length,
     index !! offset = Some (mkSourceOffsetEntry length specifier) <->
     exists d,
       ModuleMap_Get (modules eszip) specifier = Some (EModuleData d) /\
       slotOf which d = SlotPending offset length /\ 0 < length) /\
  (forall specifier1 specifier2 d1 d2 offset length1 length2,
     ModuleMap_Get (modules eszip) specifier1 = Some (EModuleData d1) ->
     ModuleMap_Get (modules eszip) specifier2 = Some (EModuleData d2) ->
     slotOf which d1 = SlotPending offset length1 -> 0 < length1 ->
     slotOf which d2 = SlotPending offset length2 -> 0 < length2 ->
     specifier1 = specifier2) /\
  (forall offset e,
     index !! offset = Some e ->
     offset <= maxSectionSize /\ 0 < entryLength e <= maxSectionSize).
Proof.
  intros H index.
  apply parseV2WithVersion_Ok in H.
  destruct H as (options & br1 & header & br2 & mods & npmSpecifiers & snapshot & br3
                 & so & smo & _ & _ & _ & _ & _ & Hbuild & -> & ->).
  cbn [c_sourceMapOffsets c_sourceOffsets modules] in *.
  assert (Hcomplete : forall specifier d offset length,
            ModuleMap_Get mods specifier = Some (EModuleData d) ->
            slotOf which d = SlotPending offset length -> 0 < length ->
            index !! offset = Some (mkSourceOffsetEntry length specifier) /\
            offset <= maxSectionSize).
  { intros specifier d offset length Hget Hslot Hpos.
    apply (buildOffsets_complete _ _ _ _ _ _ Hbuild which specifier d); try assumption.
    eapply ModuleMap_Get_Keys, Hget. }
  assert (Hsound : forall offset e,
            index !! offset = Some e ->
            exists d, ModuleMap_Get mods (entrySpecifier e) = Some (EModuleData d) /\
                      slotOf which d = SlotPending offset (entryLength e) /\
                      0 < entryLength e <= maxSectionSize).
  { intros offset e He.
    destruct (buildOffsets_entries _ _ _ _ _ _ Hbuild which offset e He) as [Hempty|Hd];
      [|exact Hd].
    destruct which; rewrite lookup_empty in Hempty; discriminate. }
  split; [|split].
  - intros specifier offset length. split.
    + intros He. destruct (Hsound _ _ He) as (d & Hget & Hslot & Hpos & _).
      exists d. cbn [entrySpecifier entryLength] in *. auto.
    + intros (d & Hget & Hslot & Hpos). apply (Hcomplete _ _ _ _ Hget Hslot Hpos).
  - intros s1 s2 d1 d2 offset l1 l2 Hg1 Hg2 Hs1 Hp1 Hs2 Hp2.
    destruct (Hcomplete _ _ _ _ Hg1 Hs1 Hp1) as [H1 _].
    destruct (Hcomplete _ _ _ _ Hg2 Hs2 Hp2) as [H2 _].
    rewrite H1 in H2. congruence.
  - intros offset e He. destruct (Hsound _ _ He) as (d & Hget & Hslot & Hpos).
    split; [|exact Hpos].
    destruct e as [length specifier]. cbn [entrySpecifier entryLength] in *.
    apply (Hcomplete _ _ _ _ Hget Hslot (proj1 Hpos)).
Qed.

(** ** The completion function returns *)

Lemma readSectionWithSize_outcome (br : Reader) (options : Options) (contentLen : Z) :
  0 <= contentLen <= maxSectionSize ->
  match readSectionWithSize br options contentLen with
  | Ok (section, _) => len (s_content section) = contentLen
  | Err e => e = ErrIO
  | Hang => False
  end.
Proof.
  intros Hlen. unfold readSectionWithSize.
  destruct (Z.gtb_spec contentLen maxSectionSize); [lia|].
  destruct (ReadFull br contentLen) as [[content br1]| |] eqn:E1; cbn [obind].
  - apply ReadFull_Ok in E1. destruct E1 as [_ Hc]. specialize (Hc ltac:(lia)).
    destruct (GetChecksumSize options >? 0); cbn [obind s_content]; [|exact Hc].
    destruct (ReadFull br1 (GetChecksumSize options)) as [[hash br2]| |] eqn:E2;
      cbn [obind s_content]; [exact Hc| |].
    + unfold ReadFull in E2. destruct (_ <=? _); [discriminate|congruence].
    + unfold ReadFull in E2. destruct (_ <=? _); discriminate.
  - unfold ReadFull in E1. destruct (_ <=? _); [discriminate|congruence].
  - unfold ReadFull in E1. destruct (_ <=? _); discriminate.
Qed.

Lemma loadSection_loop_outcomes (ctx : Context) (options : Options)
    (offsets : gmap Z sourceOffsetEntry) (isSourceMap : bool) (totalLen : Z) :
  (forall k e, offsets !! k = Some e -> 0 < entryLength e <= maxSectionSize) ->
  forall (fuel : nat) (read : Z) (st : Loader),
  totalLen - read <= Z.of_nat fuel ->
  match (loadSection_loop fuel ctx options offsets isSourceMap totalLen read st).1 with
  | Ok _ => True
  | Err e => loaderError e
  | Hang => False
  end.
Proof.
  intros Hindex. induction fuel as [|fuel IH]; intros read st Hfuel.
  - cbn [loadSection_loop]. destruct (Z.ltb_spec read totalLen); [lia|exact I].
  - rewrite loadSection_loop_S. cbv zeta.
    destruct (Z.ltb_spec read totalLen); [|exact I].
    destruct (ctx (l_polls st)); [exact I|].
    cbn [l_br l_modules l_polls].
    destruct (offsets !! read) as [entry|] eqn:Hentry; [|exact I].
    pose proof (Hindex _ _ Hentry) as Hlen.
    pose proof (readSectionWithSize_outcome (l_br st) options (entryLength entry)
                  ltac:(lia)) as Hsection.
    destruct (readSectionWithSize (l_br st) options (entryLength entry))
      as [[section br]|e|]; cbn [fst].
    + cbn [l_br l_modules l_polls].
      destruct (negb (IsChecksumValid section)); [exact I|].
      apply IH. unfold TotalLen. pose proof (len_nonneg (s_hash section)). lia.
    + subst e. exact I.
    + contradiction.
Qed.

Lemma loadSection_outcomes (ctx : Context) (options : Options)
    (offsets : gmap Z sourceOffsetEntry) (isSourceMap : bool) (st : Loader) :
  (forall k e, offsets !! k = Some e -> 0 < entryLength e <= maxSectionSize) ->
  match (loadSection ctx options offsets isSourceMap st).1 with
  | Ok _ => True
  | Err e => loaderError e
  | Hang => False
  end.
Proof.
  intros Hindex. unfold loadSection.
  destruct (ReadFull (l_br st) 4) as [[lenBytes br]| |] eqn:E; cbn [fst].
  - cbv zeta. destruct (_ >? maxSectionSize); [exact I|].
    apply loadSection_loop_outcomes; [exact Hindex|]. lia.
  - unfold ReadFull in E. destruct (_ <=? _); [discriminate|]. injection E as <-. exact I.
  - unfold ReadFull in E. destruct (_ <=? _); discriminate.
Qed.

(** X8. The completion function the parser returns always returns: every
    entry of its offset indexes is at least one byte long, so each round
    of the loader moves on.  It fails with an I/O error, a cancellation,
    a payload section above [maxSectionSize], a position that is no
    indexed offset, or a digest mismatch, and with nothing else. *)
Theorem completeFn_outcomes (ver : EszipVersion) (br : Reader)
    (eszip other : EszipV2) (c : Completion) (ctx : Context) :
  parseV2WithVersion ver br = Ok (eszip, c) ->
  match (completeFn c ctx other).1 with
  | Ok _ => True
  | Err e => loaderError e
  | Hang => False
  end.
Proof.
  intros H.
  assert (Hs' : forall k e, c_sourceOffsets c !! k = Some e ->
                  0 < entryLength e <= maxSectionSize).
  { intros k e He.
    destruct (offset_index_sound ver br eszip c false H k e He) as (_ & _ & _ & Hb).
    exact Hb. }
  assert (Hm' : forall k e, c_sourceMapOffsets c !! k = Some e ->
                  0 < entryLength e <= maxSectionSize).
  { intros k e He.
    destruct (offset_index_sound ver br eszip c true H k e He) as (_ & _ & _ & Hb).
    exact Hb. }
  unfold completeFn, loadSources. cbv zeta.
  pose proof (loadSection_outcomes ctx (c_options c) (c_sourceOffsets c) false
                (mkLoader (c_br c) (modules other) 0) Hs') as H1.
  destruct (loadSection ctx (c_options c) (c_sourceOffsets c) false
              (mkLoader (c_br c) (modules other) 0)) as [[[]|e1|] st1];
    cbn [fst] in *; try assumption.
  pose proof (loadSection_outcomes ctx (c_options c) (c_sourceMapOffsets c) true st1 Hm')
    as H2.
  destruct (loadSection ctx (c_options c) (c_sourceMapOffsets c) true st1)
    as [[[]|e2|] st2]; cbn [fst] in *; assumption.
Qed.

(** X9. The loader asks the context before each entry and at no other
    point.  Under a context that is cancelled from the start, a sources
    section with a positive declared length fails the completion function
    with the cancellation error before anything is loaded, and every
    Pending slot is resolved without bytes; two empty payload sections
    complete all the same. *)
Theorem completeFn_cancelled (c : Completion) (ctx : Context) (eszip : EszipV2) :
  ctx 0%nat = true ->
  (forall n rest,
     c_br c = BigEndian_PutUint32 n ++ rest -> 0 < n <= maxSectionSize ->
     completeFn c ctx eszip =
       (Err ErrCanceled, withModules eszip (resolvePendingSlots (modules eszip)))) /\
  (forall rest,
     c_br c = BigEndian_PutUint32 0 ++ BigEndian_PutUint32 0 ++ rest ->
     completeFn c ctx eszip =
       (Ok tt, withModules eszip (resolvePendingSlots (modules eszip)))).
Proof.
  intros Hctx. split.
  - intros n rest Hbr Hn. unfold completeFn, loadSources, loadSection. cbv zeta.
    cbn [l_br l_modules l_polls]. rewrite Hbr.
    rewrite ReadFull_app by reflexivity.
    rewrite <- (app_nil_r (BigEndian_PutUint32 n)).
    rewrite Uint32_PutUint32 by (rewrite maxSectionSize_val in Hn; unfold MaxUint32; lia).
    destruct (Z.gtb_spec n maxSectionSize); [lia|].
    destruct (Z.to_nat n) as [|fuel] eqn:Hfuel; [lia|].
    rewrite loadSection_loop_S. cbv zeta. cbn [l_br l_modules l_polls].
    destruct (Z.ltb_spec 0 n); [|lia]. rewrite Hctx. reflexivity.
  - intros rest Hbr. unfold completeFn, loadSources, loadSection. cbv zeta.
    cbn [l_br l_modules l_polls]. rewrite Hbr.
    rewrite ReadFull_app by reflexivity.
    change (BigEndian_Uint32 (BigEndian_PutUint32 0)) with 0.
    change (0 >? maxSectionSize) with false. cbv iota.
    change (Z.to_nat 0) with 0%nat. cbn [loadSection_loop].
    change (0 <? 0) with false. cbv iota. cbn [l_br l_modules l_polls].
    rewrite ReadFull_app by reflexivity.
    change (BigEndian_Uint32 (BigEndian_PutUint32 0)) with 0.
    change (0 >? maxSectionSize) with false. cbv iota.
    change (Z.to_nat 0) with 0%nat. cbn [loadSection_loop].
    change (0 <? 0) with false. reflexivity.
Qed.

(** ** What the writer returns *)

Lemma len_ToMagic (v : EszipVersion) : len (ToMagic v) = 8.
Proof. destruct v; reflexivity. Qed.

(** X10. Whatever [IntoBytes] emits starts with the magic of the
    archive's version, so [Parse] reads it as a V2 archive of that
    version and never hands it to the V1 parser. *)
Theorem IntoBytes_magic (done : bool) (e : EszipV2) (serialized : bytes) :
  IntoBytes done e = Ok serialized ->
  exists rest,
    serialized = ToMagic (version e) ++ rest /\
    Parse serialized =
      match parseV2WithVersion (version e) rest with
      | Ok (eszip, complete) => Ok (UnionV2 eszip, CompleteV2 complete)
      | Err err => Err err
      | Hang => Hang
      end.
Proof.
  intros H.
  assert (Hshape : exists rest, serialized = ToMagic (version e) ++ rest).
  { unfold IntoBytes in H. cbv zeta in H.
    destruct (writeModules _ _ _ _ _) as [w| |]; cbn [obind] in H; try discriminate.
    destruct (match npmSnapshot e with Some _ => _ | None => _ end)
      as [[modulesHeader npmBytes]| |]; cbn [obind] in H; try discriminate.
    destruct (len modulesHeader >? MaxUint32); [discriminate|].
    destruct (SupportsOptions (version e)), (SupportsNpm (version e));
      repeat match type of H with
      | context [ if ?c then _ else _ ] => destruct c
      end; cbn [obind] in H; try discriminate;
      injection H as <-; cbn [app]; rewrite <- ?app_assoc; eexists; reflexivity. }
  destruct Hshape as [rest ->]. exists rest. split; [reflexivity|].
  unfold Parse. rewrite ReadFull_app by (rewrite len_ToMagic; reflexivity).
  cbn [obind]. rewrite (proj2 (VersionFromMagic_ToMagic _ (version e)) eq_refl).
  destruct (parseV2WithVersion (version e) rest) as [[eszip complete]| |]; reflexivity.
Qed.

Lemma appendString_Ok (buf s r : bytes) :
  appendString buf s = Ok r ->
  len s <= MaxUint32 /\ r = buf ++ BigEndian_PutUint32 (len s) ++ s.
Proof.
  unfold appendString. destruct (Z.gtb_spec (len s) MaxUint32); [discriminate|].
  intros [= <-]. split; [assumption|].
  pose proof (len_nonneg s). rewrite to_uint32_small by lia.
  unfold appendU32BE. rewrite <- app_assoc. reflexivity.
Qed.

Lemma appendPayload_Ok (c : ChecksumType) (tooLarge overflow : Z -> WriteMsg)
    (payload modulesHeader : bytes) (data : option bytes) (payload' header' : bytes) :
  appendPayload c tooLarge overflow payload modulesHeader data = Ok (payload', header') ->
  payload' = payload ++ payloadEntry c (obytes data) /\
  header' = modulesHeader ++ frameField (len payload) (obytes data).
Proof.
  unfold appendPayload. cbv zeta.
  pose proof (len_nonneg payload). pose proof (len_nonneg (obytes data)).
  destruct (Z.gtb_spec (len (obytes data)) MaxUint32); [discriminate|].
  rewrite (to_uint32_small (len (obytes data))) by lia.
  unfold payloadEntry, frameField.
  destruct (Z.gtb_spec (len (obytes data)) 0) as [Hpos|Hzero].
  - destruct (Z.gtb_spec (len payload) MaxUint32); [discriminate|].
    rewrite (to_uint32_small (len payload)) by lia.
    intros [= <- <-]. unfold appendU32BE. rewrite <- !app_assoc. auto.
  - intros [= <- <-]. unfold appendU32BE. rewrite app_nil_r, <- !app_assoc. auto.
Qed.

Lemma writeModule_Ok (done : bool) (c : ChecksumType) (k : gostring)
    (e : EszipModule) (w w' : WriterBufs) :
  readyEntry e ->
  writeModule done c k e w = Ok w' ->
  w' = mkWriterBufs
         (w_modulesHeader w ++ frameBytes k e (len (w_sources w)) (len (w_sourceMaps w)))
         (w_sources w ++ payloadEntry c (entryData false e))
         (w_sourceMaps w ++ payloadEntry c (entryData true e)).
Proof.
  intros Hready H. unfold writeModule in H.
  destruct (appendString (w_modulesHeader w) k) as [hdr| |] eqn:Ek;
    cbn [obind] in H; try discriminate.
  apply appendString_Ok in Ek. destruct Ek as [_ ->].
  destruct e as [[kind src smap]|target|id]; cbn [readyEntry Source SourceMap] in Hready.
  - destruct Hready as [[s ->] [sm ->]].
    cbn [obind Source SourceMap SourceSlot_Get Kind] in H.
    destruct (appendPayload c _ _ (w_sources w) _ s) as [[sources hdr1]| |] eqn:E1;
      cbn [obind] in H; try discriminate.
    apply appendPayload_Ok in E1. destruct E1 as [-> ->].
    destruct (appendPayload c _ _ (w_sourceMaps w) _ sm) as [[maps hdr2]| |] eqn:E2;
      cbn [obind] in H; try discriminate.
    apply appendPayload_Ok in E2. destruct E2 as [-> ->].
    injection H as <-.
    unfold frameBytes. cbn [frameKind frameBody entryData slotOf Source SourceMap slotData Kind].
    rewrite <- !app_assoc. reflexivity.
  - destruct (appendString _ target) as [hdr| |] eqn:Et; cbn [obind] in H;
      try discriminate.
    apply appendString_Ok in Et. destruct Et as [_ ->]. injection H as <-.
    unfold frameBytes. cbn [frameKind frameBody entryData payloadEntry].
    unfold payloadEntry. cbn. rewrite !app_nil_r.
    rewrite <- !app_assoc. reflexivity.
  - contradiction.
Qed.

Lemma writeModules_Ok (done : bool) (c : ChecksumType) (m0 : ModuleMap) :
  forall (m pre : ModuleMap) (w w' : WriterBufs),
  m0 = pre ++ m ->
  NoDup (ModuleMap_Keys m0) ->
  Forall (fun kv => readyEntry kv.2) m ->
  writeModules done c m0 (ModuleMap_Keys m) w = Ok w' ->
  w' = mkWriterBufs
         (w_modulesHeader w
          ++ headerBytes c m (len (w_sources w)) (len (w_sourceMaps w)))
         (w_sources w ++ payloadBytes c false m)
         (w_sourceMaps w ++ payloadBytes c true m).
Proof.
  induction m as [|[k e] m IH]; intros pre w w' Hm0 Hnd Hready H.
  - cbn in H. injection H as <-. cbn. rewrite !app_nil_r. destruct w; reflexivity.
  - cbn [ModuleMap_Keys fmap list_fmap fst writeModules] in H.
    subst m0. destruct (NoDup_app_head pre m k e Hnd) as (Hpre & _ & Hnd').
    rewrite ModuleMap_Get_app in H by assumption. cbn [ModuleMap_Get] in H.
    destruct (decide (k = k)); [|congruence].
    apply Forall_cons in Hready. destruct Hready as [He Hready]. cbn in He.
    destruct (writeModule done c k e w) as [w1| |] eqn:E1; cbn [obind] in H;
      try discriminate.
    apply writeModule_Ok in E1; [|assumption]. subst w1.
    apply (IH (pre ++ [(k, e)])) in H; try assumption;
      [|rewrite <- app_assoc; reflexivity].
    cbn [w_modulesHeader w_sources w_sourceMaps] in H. subst w'.
    cbn [headerBytes payloadBytes foldr snd]. unfold advance.
    rewrite !len_app. rewrite <- !app_assoc. reflexivity.
Qed.

(** X11. On an archive built by the mutators, [IntoBytes] succeeds exactly
    when the modules header, the sources section and the source-maps
    section it builds each fit the 32-bit length that precedes them; it
    then returns the layout [magic | options | modules header | npm |
    sources | source maps], each section with its exact length, and
    otherwise no bytes at all: no length or offset is ever written
    truncated. *)
Theorem IntoBytes_exact (calls : list Mutator) (done : bool) (serialized : bytes) :
  IntoBytes done (construct calls) = Ok serialized <->
  sectionsWithin (construct calls) MaxUint32 /\
  serialized = archiveBytes (construct calls).
Proof.
  pose proof (constructed_construct calls) as Hcons.
  set (e := construct calls) in *.
  split.
  - intros H.
    assert (Hwithin : sectionsWithin e MaxUint32).
    { destruct Hcons as (Hver & Hnpm & Hsize & _ & Hnd & Hready).
      unfold IntoBytes in H. cbv zeta in H. rewrite Hver, Hnpm in H.
      destruct (writeModules done (Checksum (options e)) (modules e)
                  (ModuleMap_Keys (modules e)) (mkWriterBufs [] [] [])) as [w| |] eqn:Ew;
        cbn [obind] in H; try discriminate.
      apply (writeModules_Ok done _ (modules e) (modules e) []) in Ew;
        try assumption; try reflexivity.
      cbn [w_modulesHeader w_sources w_sourceMaps app] in Ew. subst w.
      cbn [w_modulesHeader w_sources w_sourceMaps] in H. change (len []) with 0 in H.
      unfold sectionsWithin.
      destruct (Z.gtb_spec (len (headerBytes (Checksum (options e)) (modules e) 0 0))
                  MaxUint32); [discriminate|].
      change (SupportsNpm LatestVersion) with true in H. cbv iota in H.
      destruct (0 >? MaxUint32); [discriminate|]. cbn [obind] in H.
      destruct (Z.gtb_spec (len (payloadBytes (Checksum (options e)) false (modules e)))
                  MaxUint32); [discriminate|].
      destruct (Z.gtb_spec (len (payloadBytes (Checksum (options e)) true (modules e)))
                  MaxUint32); [discriminate|].
      auto. }
    split; [exact Hwithin|].
    rewrite (IntoBytes_layout done e Hcons Hwithin) in H. congruence.
  - intros [Hwithin ->]. apply IntoBytes_layout; assumption.
Qed.

(** ** The header digests *)

Lemma Verify_mismatch (c : ChecksumType) (content digest : bytes) :
  c <> ChecksumNone -> digest <> Hash c content -> Verify c content digest = false.
Proof.
  intros Hc Hd. destruct c; [congruence| |]; cbn [Verify];
    case_bool_decide; congruence.
Qed.

Lemma readSection_digest (options : Options) (content digest rest : bytes) :
  len content <= maxSectionSize ->
  len digest = GetChecksumSize options ->
  readSection (BigEndian_PutUint32 (len content) ++ content ++ digest ++ rest) options =
    Ok (mkSection content digest (Checksum options), rest).
Proof.
  intros Hlen Hd. rewrite readSection_framed by assumption.
  destruct (Z.gtb_spec (GetChecksumSize options) 0) as [Hpos|Hzero].
  - rewrite ReadFull_app by lia. reflexivity.
  - pose proof (len_nonneg digest). destruct digest as [|x digest]; [reflexivity|].
    rewrite len_cons in *. pose proof (len_nonneg digest). lia.
Qed.

(** X13. The options header carries its own digest, computed with the
    checksum algorithm the header itself selects: when the bytes that
    follow an even-length options content are not the digest of that
    content under the selected algorithm, parsing stops with
    [ErrInvalidV22OptionsHeaderHash], whatever the rest of the input
    holds. *)
Theorem options_header_digest_checked (version : EszipVersion)
    (content digest rest : bytes) :
  SupportsOptions version = true ->
  len content <= maxSectionSize ->
  Z.rem (len content) 2 = 0 ->
  let options := parseOptionsHeader_pairs content (DefaultOptionsForVersion version) in
  Checksum options <> ChecksumNone ->
  len digest = GetChecksumSize options ->
  digest <> Hash (Checksum options) content ->
  parseV2WithVersion version
    (BigEndian_PutUint32 (len content) ++ content ++ digest ++ rest) =
    Err ErrInvalidV22OptionsHeaderHash.
Proof.
  intros Hsup Hlen Heven options Hc Hd Hneq.
  unfold parseV2WithVersion. cbv zeta. rewrite Hsup.
  unfold parseOptionsHeader. cbv zeta.
  rewrite readSection_framed by assumption.
  change (GetChecksumSize (mkOptions ChecksumNone 0) >? 0) with false.
  cbn [obind]. unfold ContentLen, Content. cbn [s_content].
  rewrite Heven. cbn [Z.eqb negb]. cbv iota. fold options.
  assert (Hpos : 0 < GetChecksumSize options).
  { unfold GetChecksumSize in *. pose proof (len_nonneg digest).
    destruct (Z.eqb_spec (ChecksumSize options) 0); [|lia].
    destruct (Checksum options); [congruence|cbn; lia..]. }
  destruct (Z.eqb_spec (GetChecksumSize options) 0); [lia|]. cbn [andb]. cbv iota.
  destruct (Z.gtb_spec (GetChecksumSize options) 0); [|lia].
  rewrite ReadFull_app by lia. cbn [obind].
  rewrite Verify_mismatch by assumption. reflexivity.
Qed.

(** X14. The modules header is checked against its digest before any of
    its frames is decoded: with the options in force (the defaults of the
    version, or what the options header set), a modules header followed by
    bytes that are not its digest is refused with [ErrInvalidV2HeaderHash],
    whatever the header content and the rest of the input hold. *)
Theorem modules_header_digest_checked (version : EszipVersion) (br br' : Reader)
    (options : Options) (content digest rest : bytes) :
  (if SupportsOptions version
   then parseOptionsHeader br (DefaultOptionsForVersion version)
   else Ok (DefaultOptionsForVersion version, br)) = Ok (options, br') ->
  br' = BigEndian_PutUint32 (len content) ++ content ++ digest ++ rest ->
  len content <= maxSectionSize ->
  Checksum options <> ChecksumNone ->
  len digest = GetChecksumSize options ->
  digest <> Hash (Checksum options) content ->
  parseV2WithVersion version br = Err ErrInvalidV2HeaderHash.
Proof.
  intros Hopt -> Hlen Hc Hd Hneq.
  unfold parseV2WithVersion. cbv zeta. rewrite Hopt. cbn [obind].
  rewrite readSection_digest by assumption. cbn [obind].
  unfold IsChecksumValid. cbn [s_checksum s_content s_hash].
  rewrite Verify_mismatch by assumption. reflexivity.
Qed.

(** ** The npm snapshot the writer accepts *)

Section NpmWriter.

(** What [sort.Slice] promises here: the result is a permutation of the
    input. *)
Hypothesis sort_slice_perm :
  forall (A : Type) (less : A -> A -> bool) (l : list A),
  sort_slice A less l ≡ₚ l.

Lemma validatePackages_Ok (packages : list (option NpmPackage)) (i : Z)
    (checked : list CheckedPackage) :
  validatePackages packages i = Ok checked ->
  Forall2 (fun entry c =>
             entry = Some (mkNpmPackage (Some (p_id c))
                             (prod_map id Some <$> p_deps c)))
          packages checked.
Proof.
  revert i checked. induction packages as [|entry packages IH]; intros i checked;
    cbn [validatePackages].
  - intros [= <-]. constructor.
  - destruct entry as [[[pid|] deps]|]; try discriminate.
    destruct (validateDependencies (NpmPackageID_String pid) deps) as [l| |] eqn:Hd;
      cbn [obind]; try discriminate.
    destruct (validatePackages packages (i + 1)) as [rest| |] eqn:Hp;
      cbn [obind]; try discriminate.
    intros [= <-]. apply validateDependencies_Ok in Hd. subst deps.
    constructor; [reflexivity|]. eapply IH, Hp.
Qed.

Lemma buildIdToIndex_lookup (packages : list CheckedPackage) (i : Z)
    (idToIndex : gmap gostring Z) (key : gostring) :
  is_Some (buildIdToIndex packages i idToIndex !! key) ->
  (exists c, c ∈ packages /\ NpmPackageID_String (p_id c) = key) \/
  is_Some (idToIndex !! key).
Proof.
  revert i idToIndex. induction packages as [|c packages IH]; intros i idToIndex;
    cbn [buildIdToIndex]; [auto|].
  intros Hsome. apply IH in Hsome. destruct Hsome as [(c' & Hin & Hkey)|Hsome].
  - left. exists c'. split; [right; exact Hin|exact Hkey].
  - destruct (decide (NpmPackageID_String (p_id c) = key)) as [Heq|Hne].
    + left. exists c. split; [left|exact Heq].
    + rewrite lookup_insert_ne in Hsome by exact Hne. right. exact Hsome.
Qed.

Lemma writeRoots_Ok (idToIndex : gmap gostring Z) (rootPkgs : list (gostring * gostring))
    (modulesHeader out : bytes) :
  writeRoots idToIndex rootPkgs modulesHeader = Ok out ->
  Forall (fun rp => is_Some (idToIndex !! rp.2)) rootPkgs.
Proof.
  revert modulesHeader. induction rootPkgs as [|rp rootPkgs IH]; intros modulesHeader;
    cbn [writeRoots]; [constructor|].
  destruct (idToIndex !! rp.2) as [idx|] eqn:Hidx; [|discriminate].
  destruct (appendString modulesHeader rp.1) as [hdr| |]; cbn [obind]; try discriminate.
  intros Hrest. constructor; [rewrite Hidx; eauto|]. eapply IH, Hrest.
Qed.

Lemma writeDependencies_Ok (idToIndex : gmap gostring Z) (pkg : gostring)
    (deps : list (gostring * gostring)) (npmBytes out : bytes) :
  writeDependencies idToIndex pkg deps npmBytes = Ok out ->
  Forall (fun dep => is_Some (idToIndex !! dep.2)) deps.
Proof.
  revert npmBytes. induction deps as [|dep deps IH]; intros npmBytes;
    cbn [writeDependencies]; [constructor|].
  destruct (idToIndex !! dep.2) as [idx|] eqn:Hidx; [|discriminate].
  destruct (appendString npmBytes dep.1) as [buf| |]; cbn [obind]; try discriminate.
  intros Hrest. constructor; [rewrite Hidx; eauto|]. eapply IH, Hrest.
Qed.

Lemma writePackages_Ok (idToIndex : gmap gostring Z) (packages : list CheckedPackage)
    (npmBytes out : bytes) :
  writePackages idToIndex packages npmBytes = Ok out ->
  Forall (fun c =>
            Forall (fun dep => is_Some (idToIndex !! dep.2))
                   (sortedRequirements (p_deps c)))
         packages.
Proof.
  revert npmBytes. induction packages as [|c packages IH]; intros npmBytes;
    cbn [writePackages]; [constructor|].
  destruct (appendString npmBytes (NpmPackageID_String (p_id c))) as [buf| |];
    cbn [obind]; try discriminate.
  destruct (writeDependencies idToIndex (NpmPackageID_String (p_id c))
              (sortedRequirements (p_deps c)) _) as [buf'| |] eqn:Hd;
    cbn [obind]; try discriminate.
  intros Hrest. constructor; [eapply writeDependencies_Ok, Hd|]. eapply IH, Hrest.
Qed.

Lemma sortedRequirements_all (P : gostring -> Prop) (m : gomap NpmPackageID) :
  Forall (fun dep => P dep.2) (sortedRequirements m) ->
  Forall (fun kv => P (NpmPackageID_String kv.2)) m.
Proof.
  unfold sortedRequirements. rewrite sort_slice_perm, Forall_fmap.
  intros Hall. eapply Forall_impl; [exact Hall|]. intros [k v] Hp. exact Hp.
Qed.

Lemma checked_listed (snapshot : NpmResolutionSnapshot) (checked : list CheckedPackage)
    (c : CheckedPackage) :
  Forall2 (fun entry c =>
             entry = Some (mkNpmPackage (Some (p_id c))
                             (prod_map id Some <$> p_deps c)))
          (Packages snapshot) checked ->
  c ∈ checked -> listsPackage snapshot (NpmPackageID_String (p_id c)).
Proof.
  intros Hshape Hin. apply list_elem_of_lookup in Hin. destruct Hin as [n Hn].
  destruct (Forall2_lookup_r _ _ _ _ _ Hshape Hn) as (entry & Hentry & ->).
  eexists _, (p_id c). split; [eapply list_elem_of_lookup_2, Hentry|].
  split; reflexivity.
Qed.

Lemma checked_closed (Q : gomap (option NpmPackageID) -> Prop)
    (entries : list (option NpmPackage)) (checked : list CheckedPackage) :
  Forall2 (fun entry c =>
             entry = Some (mkNpmPackage (Some (p_id c))
                             (prod_map id Some <$> p_deps c)))
          entries checked ->
  Forall (fun c => Q (prod_map id Some <$> p_deps c)) checked ->
  Forall (fun entry =>
            exists pkg id,
              entry = Some pkg /\ ID pkg = Some id /\ Q (Dependencies pkg))
         entries.
Proof.
  intros Hshape. induction Hshape as [|entry c entries cs -> _ IH]; intros Hall;
    [constructor|].
  apply Forall_cons in Hall. destruct Hall as [Hc Hall].
  constructor; [|apply IH, Hall].
  eexists _, (p_id c). repeat split. exact Hc.
Qed.

Lemma writeNpm_closed (snapshot : NpmResolutionSnapshot) (modulesHeader : bytes)
    (out : bytes * bytes) :
  writeNpm snapshot modulesHeader = Ok out -> closedSnapshot snapshot.
Proof.
  unfold writeNpm. cbv zeta.
  destruct (validatePackages (Packages snapshot) 0) as [checked| |] eqn:Hp;
    cbn [obind]; try discriminate.
  destruct (validateRoots (RootPackages snapshot)) as [roots| |] eqn:Hr;
    cbn [obind]; try discriminate.
  set (packages := sort_slice _ _ checked).
  set (idToIndex := buildIdToIndex packages 0 ∅).
  destruct (writeRoots idToIndex (sortedRequirements roots) modulesHeader)
    as [hdr| |] eqn:Hw; cbn [obind]; try discriminate.
  destruct (writePackages idToIndex packages []) as [npm| |] eqn:Hk;
    cbn [obind]; try discriminate.
  intros _.
  apply validatePackages_Ok in Hp. apply validateRoots_Ok in Hr.
  assert (Hknown : forall id : NpmPackageID,
            is_Some (idToIndex !! NpmPackageID_String id) ->
            listsPackage snapshot (NpmPackageID_String id)).
  { intros id Hsome. apply buildIdToIndex_lookup in Hsome.
    destruct Hsome as [(c & Hin & Hkey)|Hsome].
    - rewrite <- Hkey. apply (checked_listed snapshot checked c Hp).
      unfold packages in Hin. rewrite sort_slice_perm in Hin. exact Hin.
    - rewrite lookup_empty in Hsome. destruct Hsome as [? [=]]. }
  assert (Hrefs : forall m : gomap NpmPackageID,
            Forall (fun dep => is_Some (idToIndex !! dep.2)) (sortedRequirements m) ->
            Forall (resolvedIn snapshot) (prod_map id Some <$> m)).
  { intros m Hall.
    apply (sortedRequirements_all (fun key => is_Some (idToIndex !! key))) in Hall.
    rewrite Forall_fmap. eapply Forall_impl; [exact Hall|].
    intros [k v] Hsome. exists v. split; [reflexivity|]. apply Hknown, Hsome. }
  split.
  - apply writePackages_Ok in Hk. unfold packages in Hk. rewrite sort_slice_perm in Hk.
    apply (checked_closed _ _ checked Hp).
    eapply Forall_impl; [exact Hk|]. intros c Hc. apply Hrefs, Hc.
  - rewrite Hr. apply Hrefs. eapply writeRoots_Ok, Hw.
Qed.

(** X15. The writer serializes closed npm snapshots only: when [IntoBytes]
    returns bytes for an archive with an npm snapshot, in a version that
    carries npm data, no package, package ID, dependency or root of the
    snapshot is nil, and every dependency and every root names a package
    the snapshot lists; so no package index it writes is dangling. *)
Theorem IntoBytes_npm_closed (done : bool) (e : EszipV2)
    (snapshot : NpmResolutionSnapshot) (serialized : bytes) :
  npmSnapshot e = Some snapshot ->
  SupportsNpm (version e) = true ->
  IntoBytes done e = Ok serialized ->
  closedSnapshot snapshot.
Proof.
  intros Hsnap Hsup. unfold IntoBytes. cbv zeta. rewrite Hsnap, Hsup.
  destruct (writeModules _ _ _ _ _) as [w| |]; cbn [obind]; try discriminate.
  destruct (writeNpm snapshot (w_modulesHeader w)) as [out| |] eqn:Hnpm;
    cbn [obind]; try discriminate.
  intros _. eapply writeNpm_closed, Hnpm.
Qed.

End NpmWriter.

(** ** The completion task: what it leaves in the slots *)

Lemma readSectionWithSize_Ok (br : Reader) (options : Options) (contentLen : Z)
    (section : Section_) (rest : Reader) :
  readSectionWithSize br options contentLen = Ok (section, rest) ->
  br = s_content section ++ s_hash section ++ rest /\
  s_checksum section = Checksum options.
Proof.
  unfold readSectionWithSize.
  destruct (contentLen >? maxSectionSize); [discriminate|].
  destruct (ReadFull br contentLen) as [[content br1]| |] eqn:E1; cbn [obind];
    try discriminate.
  apply ReadFull_Ok in E1. destruct E1 as [-> _]. cbv zeta.
  destruct (GetChecksumSize options >? 0).
  - destruct (ReadFull br1 (GetChecksumSize options)) as [[hash br2]| |] eqn:E2;
      cbn [obind]; try discriminate.
    apply ReadFull_Ok in E2. destruct E2 as [-> _].
    intros [= <- <-]. split; reflexivity.
  - cbn [obind]. intros [= <- <-]. split; reflexivity.
Qed.

(** The loop of [loadSection] reads forward in its input, and what holds
    of the module map and survives the write of a payload that was read
    from that input, with a digest that verifies, holds when the loop is
    done, however it ends. *)
Lemma loadSection_loop_trace (I : ModuleMap -> Prop) (br0 : Reader) (ctx : Context)
    (options : Options) (offsets : gmap Z sourceOffsetEntry) (isSourceMap : bool)
    (totalLen : Z) :
  (forall m k e content before digest rest,
     offsets !! k = Some e ->
     br0 = before ++ content ++ digest ++ rest ->
     Verify (Checksum options) content digest = true ->
     I m -> I (setSlotReady m (entrySpecifier e) isSourceMap (Some content))) ->
  forall (fuel : nat) (read : Z) (st : Loader),
  (exists before, br0 = before ++ l_br st) ->
  I (l_modules st) ->
  (exists before,
     br0 = before
           ++ l_br (loadSection_loop fuel ctx options offsets isSourceMap
                      totalLen read st).2) /\
  I (l_modules (loadSection_loop fuel ctx options offsets isSourceMap totalLen read st).2).
Proof.
  intros Hpres. induction fuel as [|fuel IH]; intros read st Hbr HI.
  - cbn [loadSection_loop]. destruct (read <? totalLen); split; assumption.
  - rewrite loadSection_loop_S. cbv zeta.
    destruct (read <? totalLen); [|split; assumption].
    destruct (ctx (l_polls st)); [split; assumption|].
    cbn [l_br l_modules l_polls].
    destruct (offsets !! read) as [entry|] eqn:Hentry; [|split; assumption].
    destruct (readSectionWithSize (l_br st) options (entryLength entry))
      as [[section br]| |] eqn:Hread; try (split; assumption).
    apply readSectionWithSize_Ok in Hread. destruct Hread as [Hsplit Hsum].
    destruct Hbr as [before Hbr].
    assert (Hbr' : exists before', br0 = before' ++ br).
    { exists (before ++ s_content section ++ s_hash section).
      rewrite Hbr, Hsplit, <- !app_assoc. reflexivity. }
    destruct (IsChecksumValid section) eqn:Hvalid; cbn [negb];
      [|split; [exact Hbr'|exact HI]].
    apply IH; cbn [l_br l_modules]; [exact Hbr'|].
    unfold IsChecksumValid in Hvalid. rewrite Hsum in Hvalid.
    eapply (Hpres _ _ _ _ before (s_hash section) br); try eassumption.
    rewrite Hbr, Hsplit. reflexivity.
Qed.

Lemma loadSection_trace (I : ModuleMap -> Prop) (br0 : Reader) (ctx : Context)
    (options : Options) (offsets : gmap Z sourceOffsetEntry) (isSourceMap : bool)
    (st : Loader) :
  (forall m k e content before digest rest,
     offsets !! k = Some e ->
     br0 = before ++ content ++ digest ++ rest ->
     Verify (Checksum options) content digest = true ->
     I m -> I (setSlotReady m (entrySpecifier e) isSourceMap (Some content))) ->
  (exists before, br0 = before ++ l_br st) ->
  I (l_modules st) ->
  (exists before, br0 = before ++ l_br (loadSection ctx options offsets isSourceMap st).2) /\
  I (l_modules (loadSection ctx options offsets isSourceMap st).2).
Proof.
  intros Hpres Hbr HI. unfold loadSection.
  destruct (ReadFull (l_br st) 4) as [[lenBytes br]| |] eqn:E; try (split; assumption).
  apply ReadFull_Ok in E. destruct E as [Hsplit _].
  destruct Hbr as [before Hbr].
  assert (Hbr' : exists before', br0 = before' ++ br).
  { exists (before ++ lenBytes). rewrite Hbr, Hsplit, <- app_assoc. reflexivity. }
  cbv zeta. destruct (BigEndian_Uint32 lenBytes >? maxSectionSize);
    [split; [exact Hbr'|exact HI]|].
  apply loadSection_loop_trace; assumption.
Qed.

Lemma filledOnly_refl (c : Completion) (m : ModuleMap) : filledOnly c m m.
Proof.
  split; [apply map_step_refl|].
  intros specifier d' which content Hget Hslot. left. exists d'. split; assumption.
Qed.

Lemma filledOnly_setSlotReady (c : Completion) (m0 m : ModuleMap)
    (specifier : gostring) (isSourceMap : bool) (content : bytes) :
  loadedPayload c isSourceMap specifier content ->
  filledOnly c m0 m ->
  filledOnly c m0 (setSlotReady m specifier isSourceMap (Some content)).
Proof.
  intros Hpayload [Hstep Hfilled]. split.
  - eapply map_step_trans; [exact Hstep|apply setSlotReady_step].
  - intros s d' which content' Hget Hslot.
    unfold setSlotReady in Hget. rewrite ModuleMap_Get_update in Hget.
    destruct (decide (specifier = s)) as [->|Hne]; [|eapply Hfilled; eassumption].
    destruct (ModuleMap_Get m s) as [[d0| |]|] eqn:E0; cbn in Hget; try discriminate.
    destruct isSourceMap, which; injection Hget as <-;
      cbn [slotOf Source SourceMap] in Hslot.
    + destruct (SourceMap d0) eqn:Es; cbn [SetReady] in Hslot; try discriminate.
      * injection Hslot as <-. right. exact Hpayload.
      * apply (Hfilled s d0 true content' E0). cbn [slotOf]. rewrite Es. exact Hslot.
    + apply (Hfilled s d0 false content' E0). exact Hslot.
    + apply (Hfilled s d0 true content' E0). exact Hslot.
    + destruct (Source d0) eqn:Es; cbn [SetReady] in Hslot; try discriminate.
      * injection Hslot as <-. right. exact Hpayload.
      * apply (Hfilled s d0 false content' E0). cbn [slotOf]. rewrite Es. exact Hslot.
Qed.

(** The state the two passes of [loadSources] leave to the backstop. *)
Lemma loadSources_filledOnly (c : Completion) (ctx : Context) (eszip : EszipV2) :
  exists loaded : ModuleMap,
    (completeFn c ctx eszip).2 = withModules eszip (resolvePendingSlots loaded) /\
    filledOnly c (modules eszip) loaded.
Proof.
  unfold completeFn, loadSources. cbv zeta.
  set (st0 := mkLoader (c_br c) (modules eszip) 0).
  assert (Hpres : forall (which : bool) m k e content before digest rest,
            (if which then c_sourceMapOffsets c else c_sourceOffsets c) !! k = Some e ->
            c_br c = before ++ content ++ digest ++ rest ->
            Verify (Checksum (c_options c)) content digest = true ->
            filledOnly c (modules eszip) m ->
            filledOnly c (modules eszip)
              (setSlotReady m (entrySpecifier e) which (Some content))).
  { intros which m k e content before digest rest He Hbr Hv Hm.
    apply filledOnly_setSlotReady; [|exact Hm].
    exists k, e, before, digest, rest. repeat split; assumption. }
  destruct (loadSection_trace (filledOnly c (modules eszip)) (c_br c) ctx (c_options c)
              (c_sourceOffsets c) false st0 (Hpres false))
    as [Hbr1 HI1].
  { exists []. reflexivity. }
  { apply filledOnly_refl. }
  destruct (loadSection ctx (c_options c) (c_sourceOffsets c) false st0) as [r1 st1].
  cbn [snd] in Hbr1, HI1.
  destruct r1 as [[]| |]; try (exists (l_modules st1); split; [reflexivity|exact HI1]).
  destruct (loadSection_trace (filledOnly c (modules eszip)) (c_br c) ctx (c_options c)
              (c_sourceMapOffsets c) true st1 (Hpres true) Hbr1 HI1)
    as [_ HI2].
  destruct (loadSection ctx (c_options c) (c_sourceMapOffsets c) true st1) as [r2 st2].
  cbn [snd] in HI2.
  exists (l_modules st2). split; [destruct r2 as [[]| |]; reflexivity|exact HI2].
Qed.

(** C3. When the completion task returns -- with success, with a parse
    error or with a cancellation -- no source or source-map slot of the
    archive is Pending.  A slot that was Pending is Ready with nil bytes,
    unless the loader filled it: then it is Ready with payload bytes that
    the loader read, for an entry of the offset index that names the
    slot's specifier, from the input of the task, with a digest that
    verifies them.  A slot that was not Pending is as it was. *)
Theorem completeFn_backstop (c : Completion) (ctx : Context) (eszip : EszipV2) :
  let eszip' := (completeFn c ctx eszip).2 in
  (forall specifier data,
     ModuleMap_Get (modules eszip') specifier = Some (EModuleData data) ->
     State (Source data) <> SourceSlotPending /\
     State (SourceMap data) <> SourceSlotPending) /\
  (forall specifier data,
     ModuleMap_Get (modules eszip) specifier = Some (EModuleData data) ->
     exists data',
       ModuleMap_Get (modules eszip') specifier = Some (EModuleData data') /\
       (forall which : bool,
          match slotOf which data with
          | SlotPending _ _ =>
              slotOf which data' = SlotReady None \/
              exists content,
                slotOf which data' = SlotReady (Some content) /\
                loadedPayload c which specifier content
          | slot => slotOf which data' = slot
          end)).
Proof.
  intros eszip'. unfold eszip'.
  destruct (loadSources_filledOnly c ctx eszip) as (loaded & -> & Hstep & Hfilled).
  cbn [modules withModules].
  split.
  { intros specifier data H. rewrite resolvePendingSlots_Get in H.
    destruct (ModuleMap_Get loaded specifier) as [e|]; [|discriminate].
    cbn in H. injection H as H. eapply resolveModule_not_pending, H. }
  intros specifier data Hget.
  pose proof (map_step_Get _ _ specifier Hstep) as H. rewrite Hget in H.
  destruct (ModuleMap_Get loaded specifier) as [[dl| |]|] eqn:El; cbn in H;
    try contradiction.
  destruct H as (_ & Hs & Hm).
  rewrite resolvePendingSlots_Get, El. cbn [fmap option_fmap option_map resolveModule].
  eexists. split; [reflexivity|].
  assert (Hslot : forall which,
            slot_step (slotOf which data) (slotOf which dl))
    by (intros [|]; assumption).
  intros which. specialize (Hslot which).
  assert (Hres : slotOf which
                   (mkModuleData (Kind dl)
                      (if bool_decide (State (Source dl) = SourceSlotPending)
                       then SetReady (Source dl) None else Source dl)
                      (if bool_decide (State (SourceMap dl) = SourceSlotPending)
                       then SetReady (SourceMap dl) None else SourceMap dl)) =
                 if bool_decide (State (slotOf which dl) = SourceSlotPending)
                 then SetReady (slotOf which dl) None else slotOf which dl)
    by (destruct which; reflexivity).
  rewrite Hres. clear Hres.
  pose proof (Hfilled specifier dl which) as Hfill. specialize (Hfill) with (1 := El).
  destruct (slotOf which data) as [offset length|bytes|] eqn:Eslot; cbn [slot_step] in Hslot.
  - destruct Hslot as [Hdl|[[content|] Hdl]]; rewrite Hdl; cbn [State SetReady];
      try (rewrite bool_decide_eq_true_2 by reflexivity);
      try (rewrite bool_decide_eq_false_2 by discriminate).
    + left. reflexivity.
    + right. exists content. split; [reflexivity|].
      destruct (Hfill content Hdl) as [(d & Hd & Hready)|Hpayload];
        [|exact Hpayload].
      rewrite Hget in Hd. injection Hd as <-. rewrite Eslot in Hready. discriminate.
    + left. reflexivity.
  - rewrite Hslot. cbn [State]. rewrite bool_decide_eq_false_2 by discriminate.
    reflexivity.
  - rewrite Hslot. cbn [State]. rewrite bool_decide_eq_false_2 by discriminate.
    reflexivity.
Qed.

(** ** The metadata the parse returns *)

Lemma readSection_Ok (br : Reader) (options : Options) (section : Section_)
    (rest : Reader) :
  readSection br options = Ok (section, rest) ->
  br = BigEndian_PutUint32 (len (s_content section))
       ++ s_content section ++ s_hash section ++ rest /\
  len (s_content section) <= maxSectionSize /\
  len (s_hash section) = Z.max 0 (GetChecksumSize options).
Proof.
  unfold readSection. cbv zeta.
  destruct (ReadFull br 4) as [[lengthBytes br1]| |] eqn:E1; cbn [obind];
    try discriminate.
  apply ReadFull_Ok in E1. destruct E1 as [-> Hlen4]. specialize (Hlen4 ltac:(lia)).
  pose proof (Uint32_range lengthBytes) as Hrange.
  destruct (Z.gtb_spec (BigEndian_Uint32 lengthBytes) maxSectionSize) as [|Hmax];
    [discriminate|].
  destruct (ReadFull br1 (BigEndian_Uint32 lengthBytes)) as [[content br2]| |] eqn:E2;
    cbn [obind]; try discriminate.
  apply ReadFull_Ok in E2. destruct E2 as [-> Hlenc]. specialize (Hlenc ltac:(lia)).
  destruct (Z.gtb_spec (GetChecksumSize options) 0) as [Hpos|Hzero].
  - destruct (ReadFull br2 (GetChecksumSize options)) as [[hash br3]| |] eqn:E3;
      cbn [obind]; try discriminate.
    apply ReadFull_Ok in E3. destruct E3 as [-> Hlenh]. specialize (Hlenh ltac:(lia)).
    intros [= <- <-]. cbn [s_content s_hash].
    rewrite Hlenc, (PutUint32_Uint32 _ Hlen4), <- ?app_assoc.
    repeat split; lia.
  - cbn [obind]. intros [= <- <-]. cbn [s_content s_hash].
    rewrite Hlenc, (PutUint32_Uint32 _ Hlen4), <- ?app_assoc.
    change (len []) with 0. repeat split; lia.
Qed.

(** C5. The archive [parseV2WithVersion] returns carries, before the
    completion function has run, the complete module map of the input:
    what [parseModulesHeader] makes of the whole content of the modules
    header section, the section that follows the options header (in the
    versions that have one) with the length its first four bytes declare.
    And the completion function writes to source and source-map slots
    only: the specifiers, every module's kind, every redirect target and
    the npm snapshot are the same before and after it. *)
Theorem completeFn_frame (ver : EszipVersion) (br : Reader)
    (eszip : EszipV2) (c : Completion) (ctx : Context) :
  parseV2WithVersion ver br = Ok (eszip, c) ->
  (exists afterOptions content digest rest npmSpecifiers,
     (if SupportsOptions ver
      then parseOptionsHeader br (DefaultOptionsForVersion ver)
      else Ok (DefaultOptionsForVersion ver, br)) = Ok (options eszip, afterOptions) /\
     afterOptions = BigEndian_PutUint32 (len content) ++ content ++ digest ++ rest /\
     len content <= maxSectionSize /\
     len digest = Z.max 0 (GetChecksumSize (options eszip)) /\
     parseModulesHeader content (SupportsNpm ver) = Ok (modules eszip, npmSpecifiers)) /\
  let eszip' := (completeFn c ctx eszip).2 in
  Specifiers eszip' = Specifiers eszip /\
  (forall specifier,
     entryMeta <$> ModuleMap_Get (modules eszip') specifier =
     entryMeta <$> ModuleMap_Get (modules eszip) specifier) /\
  npmSnapshot eszip' = npmSnapshot eszip /\
  options eszip' = options eszip /\
  version eszip' = version eszip.
Proof.
  intros Hparse. split.
  - apply parseV2WithVersion_Ok in Hparse.
    destruct Hparse as (opts & br1 & header & br2 & mods & npmSpecifiers & snapshot
                        & br3 & so & smo & Hopts & Hread & _ & Hmods & _ & _ & -> & _).
    apply readSection_Ok in Hread. destruct Hread as (Hsplit & Hmax & Hdigest).
    cbn [options modules].
    exists br1, (s_content header), (s_hash header), br2, npmSpecifiers.
    repeat split; assumption.
  - clear Hparse. intros eszip'. unfold eszip', completeFn.
    destruct (loadSources_step ctx (c_br c) eszip (c_options c)
                (c_sourceOffsets c) (c_sourceMapOffsets c)) as (loaded & -> & Hstep).
    pose proof (map_step_trans _ _ _ Hstep (resolvePendingSlots_step loaded)) as Hall.
    unfold Specifiers. cbn [modules npmSnapshot options version withModules].
    split; [apply map_step_Keys, Hall|].
    split; [|repeat split].
    intros specifier. pose proof (map_step_Get _ _ specifier Hall) as H.
    destruct (ModuleMap_Get (modules eszip) specifier) as [e|],
             (ModuleMap_Get (resolvePendingSlots loaded) specifier) as [e'|];
      try contradiction; [|reflexivity].
    cbn. f_equal. apply entry_step_meta, H.
Qed.

End Eszip.

(** * The stand-ins meet what is assumed of the external functions *)

Lemma len_sum_digest (size : nat) (data : bytes) :
  len (sum_digest size data) = Z.of_nat size.
Proof. unfold len, sum_digest. rewrite length_replicate. reflexivity. Qed.

Lemma insert_sorted_perm {A} (less : A -> A -> bool) (x : A) (l : list A) :
  insert_sorted less x l ≡ₚ x :: l.
Proof.
  induction l as [|y l IH]; cbn [insert_sorted]; [reflexivity|].
  destruct (less y x); [|reflexivity].
  rewrite IH. apply Permutation_swap.
Qed.

Lemma insertion_sort_perm (A : Type) (less : A -> A -> bool) (l : list A) :
  insertion_sort A less l ≡ₚ l.
Proof.
  unfold insertion_sort. induction l as [|x l IH]; cbn [foldr]; [reflexivity|].
  rewrite insert_sorted_perm, IH. reflexivity.
Qed.

Lemma bytes_ltb_asym (a b : gostring) : bytes_ltb a b = true -> bytes_ltb b a = false.
Proof.
  revert b. induction a as [|x a IH]; intros [|y b]; cbn [bytes_ltb];
    try reflexivity; try discriminate.
  destruct (Z.ltb_spec (byte_to_Z x) (byte_to_Z y)) as [Hxy|Hxy].
  - intros _. destruct (Z.ltb_spec (byte_to_Z y) (byte_to_Z x)); [lia|reflexivity].
  - destruct (Z.ltb_spec (byte_to_Z y) (byte_to_Z x)); [discriminate|]. apply IH.
Qed.

Lemma insert_sorted_sorted {A} (key : A -> gostring) (x : A) (l : list A) :
  StronglySorted (fun a b => bytes_ltb (key b) (key a) = false) l ->
  StronglySorted (fun a b => bytes_ltb (key b) (key a) = false)
    (insert_sorted (fun a b => bytes_ltb (key a) (key b)) x l).
Proof.
  induction l as [|y l IH]; cbn [insert_sorted]; intros Hsorted.
  - repeat constructor.
  - apply StronglySorted_inv in Hsorted. destruct Hsorted as [Hl Hy].
    destruct (bytes_ltb (key y) (key x)) eqn:Hyx.
    + constructor; [apply IH, Hl|].
      rewrite insert_sorted_perm. constructor; [|exact Hy].
      apply bytes_ltb_asym, Hyx.
    + constructor; [constructor; assumption|].
      constructor; [exact Hyx|].
      eapply Forall_impl; [exact Hy|]. cbn beta. intros z Hz.
      eapply bytes_leb_trans; eassumption.
Qed.

Lemma insertion_sort_sorted (A : Type) (key : A -> gostring) (l : list A) :
  StronglySorted (fun a b => bytes_ltb (key b) (key a) = false)
    (insertion_sort A (fun a b => bytes_ltb (key a) (key b)) l).
Proof.
  unfold insertion_sort. induction l as [|x l IH]; cbn [foldr]; [constructor|].
  apply insert_sorted_sorted, IH.
Qed.

Lemma insertion_sort_natural (A B : Type) (f : A -> B) (lessA : A -> A -> bool)
    (lessB : B -> B -> bool) (l : list A) :
  (forall x y, lessB (f x) (f y) = lessA x y) ->
  insertion_sort B lessB (f <$> l) = f <$> insertion_sort A lessA l.
Proof.
  intros Hless. unfold insertion_sort.
  induction l as [|x l IH]; cbn [foldr fmap list_fmap]; [reflexivity|].
  change (list_fmap A B f l) with (f <$> l). rewrite IH.
  generalize (foldr (insert_sorted lessA) [] l) as s.
  induction s as [|y s IHs]; cbn [insert_sorted fmap list_fmap]; [reflexivity|].
  rewrite Hless. destruct (lessA y x); cbn [fmap list_fmap]; [|reflexivity].
  f_equal. exact IHs.
Qed.

(** * The command line *)

Lemma HasPrefix_app (prefix rest : gostring) : HasPrefix (prefix ++ rest) prefix = true.
Proof.
  induction prefix as [|p prefix IH]; [reflexivity|]. cbn [app HasPrefix].
  rewrite bool_decide_eq_true_2 by reflexivity. exact IH.
Qed.

Lemma HasPrefix_inv (s prefix : gostring) :
  HasPrefix s prefix = true -> s = prefix ++ drop (length prefix) s.
Proof.
  revert s. induction prefix as [|p prefix IH]; intros s; [reflexivity|].
  destruct s as [|c s]; cbn [HasPrefix]; [discriminate|].
  intros H. apply andb_prop in H. destruct H as [Hc Hs].
  apply bool_decide_eq_true_1 in Hc. subst c. cbn [app length drop].
  f_equal. apply IH, Hs.
Qed.

Lemma TrimPrefix_suffix (s prefix : gostring) :
  exists dropped,
    s = dropped ++ TrimPrefix s prefix /\ (length dropped <= length prefix)%nat.
Proof.
  unfold TrimPrefix. destruct (HasPrefix s prefix) eqn:H.
  - exists prefix. split; [apply HasPrefix_inv, H|lia].
  - exists []. split; [reflexivity|cbn; lia].
Qed.

Lemma specifierToPath_loop_suffix (path : gostring) (prefixes : list gostring) :
  Forall (fun prefix => (length prefix <= 8)%nat) prefixes ->
  exists dropped,
    path = dropped ++ specifierToPath_loop path prefixes /\ (length dropped <= 8)%nat.
Proof.
  induction prefixes as [|prefix prefixes IH]; intros Hall; cbn [specifierToPath_loop].
  - exists []. split; [reflexivity|cbn; lia].
  - apply Forall_cons in Hall. destruct Hall as [Hp Hall].
    unfold CutPrefix. destruct (HasPrefix path prefix) eqn:H.
    + exists prefix. split; [apply HasPrefix_inv, H|exact Hp].
    + apply IH, Hall.
Qed.

(** X16. [specifierToPath] only ever removes a prefix of the specifier, of
    at most nine bytes (a scheme and one slash), and never touches the
    rest; a specifier made of one of the four schemes [file:///],
    [file://], [https://], [http://] and a path with no leading slash
    maps to that path; and a specifier that starts with none of
    [file://], [https://], [http://] only loses one leading slash, if it
    has one. *)
Theorem specifierToPath_strips_prefix (specifier : gostring) :
  (exists dropped,
     specifier = dropped ++ specifierToPath specifier /\ len dropped <= 9) /\
  (forall prefix path,
     prefix ∈ schemePrefixes -> specifier = prefix ++ path ->
     HasPrefix path (bs "/") = false ->
     specifierToPath specifier = path) /\
  (HasPrefix specifier (bs "file://") = false ->
   HasPrefix specifier (bs "https://") = false ->
   HasPrefix specifier (bs "http://") = false ->
   specifierToPath specifier = TrimPrefix specifier (bs "/")).
Proof.
  split; [|split].
  - unfold specifierToPath. cbv zeta.
    destruct (specifierToPath_loop_suffix specifier schemePrefixes)
      as (d1 & H1 & Hl1).
    { repeat constructor. }
    destruct (TrimPrefix_suffix (specifierToPath_loop specifier schemePrefixes) (bs "/"))
      as (d2 & H2 & Hl2).
    exists (d1 ++ d2). split.
    + rewrite <- app_assoc, <- H2. exact H1.
    + unfold len. rewrite length_app. cbn in Hl2. lia.
  - intros prefix path Hin -> Hslash.
    assert (Hloop : specifierToPath_loop (prefix ++ path) schemePrefixes = path).
    { unfold schemePrefixes in *. cbn [specifierToPath_loop]. unfold CutPrefix.
      destruct path as [|c path].
      - repeat (apply elem_of_cons in Hin; destruct Hin as [->|Hin];
                [vm_compute; reflexivity|]).
        apply elem_of_nil in Hin. destruct Hin.
      - cbn [HasPrefix bs String.list_byte_of_string] in Hslash.
        apply andb_false_iff in Hslash. destruct Hslash as [Hslash|Hslash];
          [|discriminate Hslash].
        apply bool_decide_eq_false_1 in Hslash.
        assert (Hc : bool_decide (c = "/"%byte) = false)
          by (apply bool_decide_eq_false_2, Hslash).
        repeat (apply elem_of_cons in Hin; destruct Hin as [->|Hin];
                [cbn; rewrite ?Hc; reflexivity|]).
        apply elem_of_nil in Hin. destruct Hin. }
    unfold specifierToPath. cbv zeta. rewrite Hloop. unfold TrimPrefix.
    rewrite Hslash. reflexivity.
  - intros Hfile Hhttps Hhttp. unfold specifierToPath. cbv zeta.
    assert (Hfile3 : HasPrefix specifier (bs "file:///") = false).
    { destruct (HasPrefix specifier (bs "file:///")) eqn:H; [|reflexivity].
      apply HasPrefix_inv in H. rewrite H in Hfile.
      change (bs "file:///") with (bs "file://" ++ bs "/") in Hfile.
      rewrite <- app_assoc, HasPrefix_app in Hfile. discriminate. }
    unfold schemePrefixes. cbn [specifierToPath_loop]. unfold CutPrefix.
    rewrite Hfile3, Hfile, Hhttps, Hhttp. reflexivity.
Qed.

(** * The theorems at concrete inputs *)

(** C8 at a V2.3 archive without modules. *)
Lemma Parse_dispatch_witness :
  8 <= len (ToMagic VersionV2_3 ++ example_body [] []) /\
  exists eszip complete,
    Parse (sum_digest 32) (sum_digest 8) empty_npm_decoder unit no_v1
      (ToMagic VersionV2_3 ++ example_body [] []) =
    Ok (UnionV2 unit eszip, CompleteV2 complete).
Proof.
  assert (H : 8 <= len (ToMagic VersionV2_3 ++ example_body [] []))
    by (vm_compute; discriminate).
  split; [exact H|].
  rewrite (proj2 (Parse_dispatch (sum_digest 32) (sum_digest 8) empty_npm_decoder
                    unit no_v1 _ H)).
  eexists _, _. vm_compute. reflexivity.
Defined.

(** C6 at an options header with an unknown option and an unknown checksum
    type. *)
Lemma parseOptionsHeader_forward_compat_witness :
  len [byte_of_Z 9; byte_of_Z 5; byte_of_Z 0; byte_of_Z 7] <= maxSectionSize /\
  parseOptionsHeader (sum_digest 32) (sum_digest 8)
    (BigEndian_PutUint32 (len [byte_of_Z 9; byte_of_Z 5; byte_of_Z 0; byte_of_Z 7])
     ++ [byte_of_Z 9; byte_of_Z 5; byte_of_Z 0; byte_of_Z 7] ++ bs "rest")
    (DefaultOptionsForVersion VersionV2_3) =
  Ok (DefaultOptionsForVersion VersionV2_3, bs "rest").
Proof.
  assert (H : len [byte_of_Z 9; byte_of_Z 5; byte_of_Z 0; byte_of_Z 7] <= maxSectionSize)
    by (vm_compute; discriminate).
  split; [exact H|].
  rewrite (proj1 (parseOptionsHeader_forward_compat (sum_digest 32) (sum_digest 8)
                    (DefaultOptionsForVersion VersionV2_3) _ (bs "rest") H)).
  reflexivity.
Defined.

(** C7 at a header with one good frame followed by a frame of entry kind
    7. *)
Lemma parseModulesHeader_invalid_kinds_witness :
  len (example_frame (bs "m") 0 0 0 0
       ++ BigEndian_PutUint32 (len (bs "a")) ++ bs "a" ++ [byte_of_Z 7]) <= MaxUint32 /\
  parseModulesHeader (example_frame (bs "m") 0 0 0 0) true =
    Ok ([(bs "m", EModuleData (mkModuleData ModuleKindJavaScript
                                 (SlotReady None) (SlotReady None)))], ∅) /\
  parseModulesHeader
    (example_frame (bs "m") 0 0 0 0
     ++ BigEndian_PutUint32 (len (bs "a")) ++ bs "a" ++ [byte_of_Z 7]) true =
    Err (ErrInvalidV2EntryKind (byte_of_Z 7) 29).
Proof.
  assert (H1 : len (example_frame (bs "m") 0 0 0 0
                    ++ BigEndian_PutUint32 (len (bs "a")) ++ bs "a" ++ [byte_of_Z 7])
               <= MaxUint32) by (vm_compute; discriminate).
  assert (H2 : parseModulesHeader (example_frame (bs "m") 0 0 0 0) true =
               Ok ([(bs "m", EModuleData (mkModuleData ModuleKindJavaScript
                                            (SlotReady None) (SlotReady None)))], ∅))
    by (vm_compute; reflexivity).
  split; [exact H1|]. split; [exact H2|].
  destruct (parseModulesHeader_invalid_kinds _ (bs "a") [] (byte_of_Z 7) true _ _ H1 H2)
    as (Hkind & _ & _).
  apply Hkind; vm_compute; discriminate.
Defined.

(** C5 at a V2.3 archive with one module and its three source bytes. *)
Lemma completeFn_frame_witness :
  exists eszip c,
    parseV2WithVersion (sum_digest 32) (sum_digest 8) empty_npm_decoder VersionV2_3
      (example_body (example_frame (bs "a") 0 3 0 0) (bs "abc")) = Ok (eszip, c) /\
    (exists afterOptions content digest rest npmSpecifiers,
       parseOptionsHeader (sum_digest 32) (sum_digest 8)
         (example_body (example_frame (bs "a") 0 3 0 0) (bs "abc"))
         (DefaultOptionsForVersion VersionV2_3) = Ok (options eszip, afterOptions) /\
       afterOptions = BigEndian_PutUint32 (len content) ++ content ++ digest ++ rest /\
       len content <= maxSectionSize /\
       len digest = Z.max 0 (GetChecksumSize (options eszip)) /\
       parseModulesHeader content true = Ok (modules eszip, npmSpecifiers)) /\
    Specifiers eszip = [bs "a"] /\
    Specifiers (completeFn (sum_digest 32) (sum_digest 8) c never_cancelled eszip).2
      = Specifiers eszip /\
    npmSnapshot (completeFn (sum_digest 32) (sum_digest 8) c never_cancelled eszip).2
      = npmSnapshot eszip.
Proof.
  destruct (parseV2WithVersion (sum_digest 32) (sum_digest 8) empty_npm_decoder
              VersionV2_3 (example_body (example_frame (bs "a") 0 3 0 0) (bs "abc")))
    as [[eszip c]| |] eqn:H; [|vm_compute in H; discriminate..].
  exists eszip, c. split; [reflexivity|].
  destruct (completeFn_frame (sum_digest 32) (sum_digest 8) empty_npm_decoder unit no_v1
              VersionV2_3 _ eszip c never_cancelled H)
    as (Hmap & Hspec & _ & Hnpm & _).
  split; [exact Hmap|].
  split; [vm_compute in H; injection H as <- _; reflexivity|].
  split; assumption.
Defined.

(** C3 at the same archive: the Pending source slot of [a] ends Ready
    with the three bytes the loader read for it. *)
Lemma completeFn_backstop_witness :
  exists eszip c,
    parseV2WithVersion (sum_digest 32) (sum_digest 8) empty_npm_decoder VersionV2_3
      (example_body (example_frame (bs "a") 0 3 0 0) (bs "abc")) = Ok (eszip, c) /\
    ModuleMap_Get (modules eszip) (bs "a") =
      Some (EModuleData (mkModuleData ModuleKindJavaScript
                           (SlotPending 0 3) (SlotReady None))) /\
    exists data',
      ModuleMap_Get
        (modules (completeFn (sum_digest 32) (sum_digest 8) c never_cancelled eszip).2)
        (bs "a") = Some (EModuleData data') /\
      slotOf false data' = SlotReady (Some (bs "abc")) /\
      loadedPayload (sum_digest 32) (sum_digest 8) c false (bs "a") (bs "abc") /\
      slotOf true data' = SlotReady None.
Proof.
  destruct (parseV2WithVersion (sum_digest 32) (sum_digest 8) empty_npm_decoder
              VersionV2_3 (example_body (example_frame (bs "a") 0 3 0 0) (bs "abc")))
    as [[eszip c]| |] eqn:H; [|vm_compute in H; discriminate..].
  assert (Hget : ModuleMap_Get (modules eszip) (bs "a") =
                 Some (EModuleData (mkModuleData ModuleKindJavaScript
                                      (SlotPending 0 3) (SlotReady None))))
    by (vm_compute in H; injection H as <- _; reflexivity).
  exists eszip, c. split; [reflexivity|]. split; [exact Hget|].
  destruct (completeFn_backstop (sum_digest 32) (sum_digest 8) empty_npm_decoder unit
              no_v1 c never_cancelled eszip)
    as [_ Hslots].
  destruct (Hslots (bs "a") _ Hget) as (data' & Hget' & Hwhich).
  pose proof (Hwhich false) as Hsource. pose proof (Hwhich true) as Hmap.
  cbn [slotOf Source SourceMap] in Hsource, Hmap.
  exists data'. split; [exact Hget'|].
  assert (Hloaded : slotOf false data' = SlotReady (Some (bs "abc"))).
  { vm_compute in H. injection H as <- <-. vm_compute in Hget'.
    injection Hget' as <-. reflexivity. }
  split; [exact Hloaded|]. split; [|exact Hmap].
  destruct Hsource as [Hnil|(content & Hcontent & Hpayload)].
  - cbn [slotOf] in Hloaded. rewrite Hloaded in Hnil. discriminate.
  - cbn [slotOf] in Hloaded. rewrite Hloaded in Hcontent. injection Hcontent as <-.
    exact Hpayload.
Defined.

(** C10 at a V2.3 archive whose one module has source offset 5 and source
    length 0. *)
Lemma zero_length_pending_slot_witness :
  exists eszip c,
    parseV2WithVersion (sum_digest 32) (sum_digest 8) empty_npm_decoder VersionV2_3
      (example_body (example_frame (bs "m") 5 0 0 0) []) = Ok (eszip, c) /\
    ModuleMap_Get (modules eszip) (bs "m") =
      Some (EModuleData (mkModuleData ModuleKindJavaScript
                           (SlotPending 5 0) (SlotReady None))) /\
    5 <> 0 /\
    exists d',
      ModuleMap_Get
        (modules (completeFn (sum_digest 32) (sum_digest 8) c never_cancelled eszip).2)
        (bs "m") = Some (EModuleData d') /\
      slotOf false d' = SlotReady None.
Proof.
  destruct (parseV2WithVersion (sum_digest 32) (sum_digest 8) empty_npm_decoder
              VersionV2_3 (example_body (example_frame (bs "m") 5 0 0 0) []))
    as [[eszip c]| |] eqn:H; [|vm_compute in H; discriminate..].
  assert (Hget : ModuleMap_Get (modules eszip) (bs "m") =
                 Some (EModuleData (mkModuleData ModuleKindJavaScript
                                      (SlotPending 5 0) (SlotReady None))))
    by (vm_compute in H; injection H as <- _; reflexivity).
  assert (Hne : 5 <> 0) by discriminate.
  exists eszip, c. split; [reflexivity|]. split; [exact Hget|]. split; [exact Hne|].
  destruct (zero_length_pending_slot (sum_digest 32) (sum_digest 8) empty_npm_decoder
              VersionV2_3 _ eszip c never_cancelled (bs "m") _ false 5
              H Hget eq_refl Hne)
    as (_ & _ & (d' & Hget' & Hslot & _) & _).
  exists d'. split; assumption.
Defined.


(** C9 at the same loader with a declared length of 2: the entry of three
    bytes carries the walk past it. *)
Lemma loadSection_overshoot_witness :
  0 < 2 /\
  2 <= 0 + len (bs "abc") + len (@nil byte) /\
  loadSection_loop (sum_digest 32) (sum_digest 8) 1 never_cancelled
    (mkOptions ChecksumNone 0) example_offsets false 2 0 example_loader =
  (Ok tt,
   mkLoader []
     [(bs "a", EModuleData (mkModuleData ModuleKindJavaScript
                              (SlotReady (Some (bs "abc"))) (SlotReady None)))]
     1).
Proof.
  assert (H1 : 0 < 2) by reflexivity.
  assert (H2 : 2 <= 0 + len (bs "abc") + len (@nil byte)) by (vm_compute; discriminate).
  assert (H3 : entryLength (mkSourceOffsetEntry 3 (bs "a")) <= maxSectionSize)
    by (vm_compute; discriminate).
  split; [exact H1|]. split; [exact H2|].
  rewrite (loadSection_overshoot (sum_digest 32) (sum_digest 8) 0 never_cancelled
             (mkOptions ChecksumNone 0) example_offsets false 2 0 example_loader
             (mkSourceOffsetEntry 3 (bs "a")) (bs "abc") [] [] H1 H2
             eq_refl eq_refl eq_refl eq_refl H3 eq_refl eq_refl).
  reflexivity.
Defined.

(** C2 at an archive with an npm snapshot, its Go maps enumerated in one
    order and in the reverse order. *)
Lemma IntoBytes_deterministic_witness :
  sameState (example_npm_archive false) (example_npm_archive true) /\
  snapshotOk (npmSnapshot (example_npm_archive false)) /\
  emitted (IntoBytes (sum_digest 32) (sum_digest 8) insertion_sort false
             (example_npm_archive false)) =
  emitted (IntoBytes (sum_digest 32) (sum_digest 8) insertion_sort false
             (example_npm_archive true)).
Proof.
  assert (H1 : sameState (example_npm_archive false) (example_npm_archive true)).
  { unfold sameState, example_npm_archive, example_snapshot.
    cbn [modules options version npmSnapshot sameSnapshot Packages RootPackages].
    split; [reflexivity|]. split; [reflexivity|]. split; [reflexivity|]. split.
    - constructor; [split; [reflexivity|symmetry; apply reverse_Permutation]|].
      constructor; [split; reflexivity|].
      constructor; [split; reflexivity|constructor].
    - symmetry. apply reverse_Permutation. }
  assert (H2 : snapshotOk (npmSnapshot (example_npm_archive false))).
  { unfold snapshotOk, example_npm_archive, example_snapshot, gomapOk.
    cbn [npmSnapshot Packages RootPackages].
    split; [|repeat constructor; cbn [Dependencies]];
      apply (bool_decide_unpack _); vm_compute; exact I. }
  split; [exact H1|]. split; [exact H2|].
  exact (IntoBytes_deterministic (sum_digest 32) (sum_digest 8) insertion_sort
           insertion_sort_perm insertion_sort_sorted insertion_sort_natural
           false _ _ H1 H2).
Defined.

(** C1 at an archive with a checksum, a module with a source map, a
    redirect, an import map and opaque data. *)
Lemma IntoBytes_ParseBytes_roundtrip_witness :
  (forall k, never_cancelled k = false) /\
  sectionsWithin (sum_digest 32) (sum_digest 8) (construct example_calls)
    maxSectionSize /\
  exists serialized parsed,
    IntoBytes (sum_digest 32) (sum_digest 8) insertion_sort false
      (construct example_calls) = Ok serialized /\
    ParseBytes (sum_digest 32) (sum_digest 8) empty_npm_decoder unit no_v1
      never_cancelled serialized = Ok (UnionV2 unit parsed) /\
    equivalent parsed (construct example_calls).
Proof.
  assert (H1 : forall k, never_cancelled k = false) by reflexivity.
  assert (H2 : sectionsWithin (sum_digest 32) (sum_digest 8) (construct example_calls)
                 maxSectionSize)
    by (vm_compute; repeat split; discriminate).
  split; [exact H1|]. split; [exact H2|].
  exact (IntoBytes_ParseBytes_roundtrip (sum_digest 32) (sum_digest 8) insertion_sort
           empty_npm_decoder unit no_v1
           (len_sum_digest 32) (len_sum_digest 8) eq_refl
           example_calls false never_cancelled H1 H2).
Defined.

(** C1 without the bound on the sections: a module whose source is one
    byte longer than [maxSectionSize] is serialized, and the bytes are
    rejected by the parser. *)
Lemma roundtrip_oversized_counterexample :
  exists serialized,
    IntoBytes (sum_digest 32) (sum_digest 8) insertion_sort false
      (construct [CallAddModule (bs "big.js") ModuleKindJavaScript
                    (Some (replicate (Z.to_nat 268435457) (byte_of_Z 0))) None])
      = Ok serialized /\
    ParseBytes (sum_digest 32) (sum_digest 8) empty_npm_decoder unit no_v1
      never_cancelled serialized
      = Err (ErrInvalidV2Header (MsgSourceOutOfRange (bs "big.js"))).
Proof.
  assert (Hlen : len (replicate (Z.to_nat 268435457) (byte_of_Z 0)) = 268435457).
  { unfold len. rewrite length_replicate. apply Z2Nat.id. discriminate. }
  assert (Hsize : maxSectionSize <
                  len (replicate (Z.to_nat 268435457) (byte_of_Z 0)) <= MaxUint32).
  { rewrite Hlen. split; [reflexivity|discriminate]. }
  assert (Hspec : len (bs "big.js") <= 1024) by (vm_compute; discriminate).
  eexists.
  exact (oversized_source_rejected (sum_digest 32) (sum_digest 8) insertion_sort
           empty_npm_decoder unit no_v1
           (len_sum_digest 32) (len_sum_digest 8) eq_refl
           (bs "big.js") _ false never_cancelled Hspec Hsize).
Qed.

(** * Further theorems at concrete inputs *)

(** X1 at the first five bytes of a magic. *)
Lemma Parse_short_input_witness :
  len (bs "ESZIP") < 8 /\
  ParseBytes (sum_digest 32) (sum_digest 8) empty_npm_decoder unit no_v1
    never_cancelled (bs "ESZIP") = Err ErrIO.
Proof.
  assert (H : len (bs "ESZIP") < 8) by reflexivity.
  split; [exact H|].
  exact (proj1 (proj2 (proj2 (proj2
           (Parse_short_input (sum_digest 32) (sum_digest 8) empty_npm_decoder
              unit no_v1 never_cancelled _ H))))).
Defined.

(** X4 at a header with one module, extended by a redirect to it. *)
Lemma parseModulesHeader_frame_by_frame_witness :
  parseModulesHeader (example_frame (bs "m") 0 0 0 0) true =
    Ok ([(bs "m", EModuleData (mkModuleData ModuleKindJavaScript
                                 (SlotReady None) (SlotReady None)))], ∅) /\
  parseModulesHeader
    (example_frame (bs "m") 0 0 0 0 ++ redirectFrame (bs "a") (bs "m")) true =
    Ok (ModuleMap_Insert
          [(bs "m", EModuleData (mkModuleData ModuleKindJavaScript
                                   (SlotReady None) (SlotReady None)))]
          (bs "a") (EModuleRedirect (bs "m")), ∅).
Proof.
  assert (H : parseModulesHeader (example_frame (bs "m") 0 0 0 0) true =
              Ok ([(bs "m", EModuleData (mkModuleData ModuleKindJavaScript
                                           (SlotReady None) (SlotReady None)))], ∅))
    by (vm_compute; reflexivity).
  split; [exact H|].
  destruct (parseModulesHeader_frame_by_frame _ true _ _ H) as (_ & Hredirect & _).
  apply Hredirect. vm_compute. discriminate.
Defined.

(** X5 at the same header followed by the first six bytes of a
    redirect frame. *)
Lemma parseModulesHeader_truncated_witness :
  parseModulesHeader (example_frame (bs "m") 0 0 0 0) true =
    Ok ([(bs "m", EModuleData (mkModuleData ModuleKindJavaScript
                                 (SlotReady None) (SlotReady None)))], ∅) /\
  wellFormedFrame true (redirectFrame (bs "a") (bs "m")) /\
  redirectFrame (bs "a") (bs "m") =
    take 6 (redirectFrame (bs "a") (bs "m")) ++ drop 6 (redirectFrame (bs "a") (bs "m")) /\
  take 6 (redirectFrame (bs "a") (bs "m")) <> [] /\
  drop 6 (redirectFrame (bs "a") (bs "m")) <> [] /\
  len (example_frame (bs "m") 0 0 0 0 ++ redirectFrame (bs "a") (bs "m")) <= MaxUint32 /\
  exists msg,
    parseModulesHeader
      (example_frame (bs "m") 0 0 0 0 ++ take 6 (redirectFrame (bs "a") (bs "m"))) true =
    Err (ErrInvalidV2Header msg).
Proof.
  assert (H1 : parseModulesHeader (example_frame (bs "m") 0 0 0 0) true =
               Ok ([(bs "m", EModuleData (mkModuleData ModuleKindJavaScript
                                            (SlotReady None) (SlotReady None)))], ∅))
    by (vm_compute; reflexivity).
  assert (H2 : wellFormedFrame true (redirectFrame (bs "a") (bs "m")))
    by (right; left; exists (bs "a"), (bs "m"); reflexivity).
  assert (H3 : redirectFrame (bs "a") (bs "m") =
               take 6 (redirectFrame (bs "a") (bs "m"))
               ++ drop 6 (redirectFrame (bs "a") (bs "m")))
    by (symmetry; apply take_drop).
  assert (H4 : take 6 (redirectFrame (bs "a") (bs "m")) <> [])
    by (vm_compute; discriminate).
  assert (H5 : drop 6 (redirectFrame (bs "a") (bs "m")) <> [])
    by (vm_compute; discriminate).
  assert (H6 : len (example_frame (bs "m") 0 0 0 0 ++ redirectFrame (bs "a") (bs "m"))
               <= MaxUint32) by (vm_compute; discriminate).
  repeat (split; [assumption|]).
  exact (parseModulesHeader_truncated _ _ _ _ true _ _ H1 H2 H3 H4 H5 H6).
Defined.

(** X7 at a V2.3 archive with one module and its three source bytes. *)
Lemma offset_index_exact_witness :
  exists eszip c,
    parseV2WithVersion (sum_digest 32) (sum_digest 8) empty_npm_decoder VersionV2_3
      (example_body (example_frame (bs "a") 0 3 0 0) (bs "abc")) = Ok (eszip, c) /\
    forall offset e,
      c_sourceOffsets c !! offset = Some e ->
      offset <= maxSectionSize /\ 0 < entryLength e <= maxSectionSize.
Proof.
  destruct (parseV2WithVersion (sum_digest 32) (sum_digest 8) empty_npm_decoder
              VersionV2_3 (example_body (example_frame (bs "a") 0 3 0 0) (bs "abc")))
    as [[eszip c]| |] eqn:H; [|vm_compute in H; discriminate..].
  exists eszip, c. split; [reflexivity|].
  exact (proj2 (proj2 (offset_index_exact (sum_digest 32) (sum_digest 8)
                         empty_npm_decoder VersionV2_3 _ eszip c false H))).
Defined.

(** X8 at the same archive. *)
Lemma completeFn_outcomes_witness :
  exists eszip c,
    parseV2WithVersion (sum_digest 32) (sum_digest 8) empty_npm_decoder VersionV2_3
      (example_body (example_frame (bs "a") 0 3 0 0) (bs "abc")) = Ok (eszip, c) /\
    match (completeFn (sum_digest 32) (sum_digest 8) c never_cancelled eszip).1 with
    | Ok _ => True
    | Err e => loaderError e
    | Hang => False
    end.
Proof.
  destruct (parseV2WithVersion (sum_digest 32) (sum_digest 8) empty_npm_decoder
              VersionV2_3 (example_body (example_frame (bs "a") 0 3 0 0) (bs "abc")))
    as [[eszip c]| |] eqn:H; [|vm_compute in H; discriminate..].
  exists eszip, c. split; [reflexivity|].
  exact (completeFn_outcomes (sum_digest 32) (sum_digest 8) empty_npm_decoder
           VersionV2_3 _ eszip eszip c never_cancelled H).
Defined.

(** X9 at a completion about to read a sources section of three bytes,
    with a context that is cancelled from the start. *)
Lemma completeFn_cancelled_witness :
  (fun _ : nat => true) 0%nat = true /\
  completeFn (sum_digest 32) (sum_digest 8)
    (mkCompletion (BigEndian_PutUint32 3 ++ bs "abc" ++ BigEndian_PutUint32 0)
       (mkOptions ChecksumNone 0) example_offsets ∅)
    (fun _ => true)
    (mkEszipV2 (l_modules example_loader) None (mkOptions ChecksumNone 0) VersionV2_3) =
  (Err ErrCanceled,
   mkEszipV2
     [(bs "a", EModuleData (mkModuleData ModuleKindJavaScript
                              (SlotReady None) (SlotReady None)))]
     None (mkOptions ChecksumNone 0) VersionV2_3).
Proof.
  assert (H : (fun _ : nat => true) 0%nat = true) by reflexivity.
  split; [exact H|].
  assert (Hn : 0 < 3 <= maxSectionSize) by (vm_compute; split; [reflexivity|discriminate]).
  rewrite (proj1 (completeFn_cancelled (sum_digest 32) (sum_digest 8)
                    (mkCompletion
                       (BigEndian_PutUint32 3 ++ bs "abc" ++ BigEndian_PutUint32 0)
                       (mkOptions ChecksumNone 0) example_offsets ∅)
                    (fun _ => true)
                    (mkEszipV2 (l_modules example_loader) None
                       (mkOptions ChecksumNone 0) VersionV2_3) H)
             3 (bs "abc" ++ BigEndian_PutUint32 0) eq_refl Hn).
  reflexivity.
Defined.

(** X10 at the archive of the round trip. *)
Lemma IntoBytes_magic_witness :
  exists serialized,
    IntoBytes (sum_digest 32) (sum_digest 8) insertion_sort false
      (construct example_calls) = Ok serialized /\
    exists rest,
      serialized = ToMagic (version (construct example_calls)) ++ rest /\
      Parse (sum_digest 32) (sum_digest 8) empty_npm_decoder unit no_v1 serialized =
        match parseV2WithVersion (sum_digest 32) (sum_digest 8) empty_npm_decoder
                (version (construct example_calls)) rest with
        | Ok (eszip, complete) => Ok (UnionV2 unit eszip, CompleteV2 complete)
        | Err err => Err err
        | Hang => Hang
        end.
Proof.
  destruct (IntoBytes (sum_digest 32) (sum_digest 8) insertion_sort false
              (construct example_calls))
    as [serialized| |] eqn:H; [|vm_compute in H; discriminate..].
  exists serialized. split; [reflexivity|].
  exact (IntoBytes_magic (sum_digest 32) (sum_digest 8) insertion_sort
           empty_npm_decoder unit no_v1 false _ serialized H).
Defined.

(** X12 at the archive of the round trip. *)
Lemma IntoBytes_ParseBytes_IntoBytes_witness :
  (forall k, never_cancelled k = false) /\
  sectionsWithin (sum_digest 32) (sum_digest 8) (construct example_calls)
    maxSectionSize /\
  exists serialized parsed,
    IntoBytes (sum_digest 32) (sum_digest 8) insertion_sort false
      (construct example_calls) = Ok serialized /\
    ParseBytes (sum_digest 32) (sum_digest 8) empty_npm_decoder unit no_v1
      never_cancelled serialized = Ok (UnionV2 unit parsed) /\
    IntoBytes (sum_digest 32) (sum_digest 8) insertion_sort false parsed =
      Ok serialized /\
    version parsed = version (construct example_calls) /\
    Checksum (options parsed) = Checksum (options (construct example_calls)).
Proof.
  assert (H1 : forall k, never_cancelled k = false) by reflexivity.
  assert (H2 : sectionsWithin (sum_digest 32) (sum_digest 8) (construct example_calls)
                 maxSectionSize)
    by (vm_compute; repeat split; discriminate).
  split; [exact H1|]. split; [exact H2|].
  exact (IntoBytes_ParseBytes_IntoBytes (sum_digest 32) (sum_digest 8) insertion_sort
           empty_npm_decoder unit no_v1
           (len_sum_digest 32) (len_sum_digest 8) eq_refl
           example_calls false never_cancelled H1 H2).
Defined.

(** X13 at a V2.3 options header that selects XXH3 and is followed by
    eight zero bytes. *)
Lemma options_header_digest_checked_witness :
  SupportsOptions VersionV2_3 = true /\
  len [byte_of_Z 0; byte_of_Z 2] <= maxSectionSize /\
  Z.rem (len [byte_of_Z 0; byte_of_Z 2]) 2 = 0 /\
  Checksum (parseOptionsHeader_pairs [byte_of_Z 0; byte_of_Z 2]
              (DefaultOptionsForVersion VersionV2_3)) <> ChecksumNone /\
  len (replicate 8 (byte_of_Z 0)) =
    GetChecksumSize (parseOptionsHeader_pairs [byte_of_Z 0; byte_of_Z 2]
                       (DefaultOptionsForVersion VersionV2_3)) /\
  replicate 8 (byte_of_Z 0) <>
    Hash (sum_digest 32) (sum_digest 8)
      (Checksum (parseOptionsHeader_pairs [byte_of_Z 0; byte_of_Z 2]
                   (DefaultOptionsForVersion VersionV2_3)))
      [byte_of_Z 0; byte_of_Z 2] /\
  parseV2WithVersion (sum_digest 32) (sum_digest 8) empty_npm_decoder VersionV2_3
    (BigEndian_PutUint32 (len [byte_of_Z 0; byte_of_Z 2])
     ++ [byte_of_Z 0; byte_of_Z 2] ++ replicate 8 (byte_of_Z 0) ++ bs "rest") =
    Err ErrInvalidV22OptionsHeaderHash.
Proof.
  assert (H1 : SupportsOptions VersionV2_3 = true) by reflexivity.
  assert (H2 : len [byte_of_Z 0; byte_of_Z 2] <= maxSectionSize)
    by (vm_compute; discriminate).
  assert (H3 : Z.rem (len [byte_of_Z 0; byte_of_Z 2]) 2 = 0) by reflexivity.
  assert (H4 : Checksum (parseOptionsHeader_pairs [byte_of_Z 0; byte_of_Z 2]
                           (DefaultOptionsForVersion VersionV2_3)) <> ChecksumNone)
    by (vm_compute; discriminate).
  assert (H5 : len (replicate 8 (byte_of_Z 0)) =
               GetChecksumSize (parseOptionsHeader_pairs [byte_of_Z 0; byte_of_Z 2]
                                  (DefaultOptionsForVersion VersionV2_3)))
    by reflexivity.
  assert (H6 : replicate 8 (byte_of_Z 0) <>
               Hash (sum_digest 32) (sum_digest 8)
                 (Checksum (parseOptionsHeader_pairs [byte_of_Z 0; byte_of_Z 2]
                              (DefaultOptionsForVersion VersionV2_3)))
                 [byte_of_Z 0; byte_of_Z 2])
    by (vm_compute; discriminate).
  repeat (split; [assumption|]).
  exact (options_header_digest_checked (sum_digest 32) (sum_digest 8) empty_npm_decoder
           VersionV2_3 _ _ (bs "rest") H1 H2 H3 H4 H5 H6).
Defined.

(** X14 at a V2 archive (SHA-256 by default) whose one-frame modules
    header is followed by thirty-two bytes that are not its digest. *)
Lemma modules_header_digest_checked_witness :
  len (example_frame (bs "m") 0 0 0 0) <= maxSectionSize /\
  Checksum (DefaultOptionsForVersion VersionV2) <> ChecksumNone /\
  len (replicate 32 (byte_of_Z 0)) = GetChecksumSize (DefaultOptionsForVersion VersionV2) /\
  replicate 32 (byte_of_Z 0) <>
    Hash (sum_digest 32) (sum_digest 8) (Checksum (DefaultOptionsForVersion VersionV2))
      (example_frame (bs "m") 0 0 0 0) /\
  parseV2WithVersion (sum_digest 32) (sum_digest 8) empty_npm_decoder VersionV2
    (BigEndian_PutUint32 (len (example_frame (bs "m") 0 0 0 0))
     ++ example_frame (bs "m") 0 0 0 0 ++ replicate 32 (byte_of_Z 0) ++ bs "rest") =
    Err ErrInvalidV2HeaderHash.
Proof.
  assert (H1 : len (example_frame (bs "m") 0 0 0 0) <= maxSectionSize)
    by (vm_compute; discriminate).
  assert (H2 : Checksum (DefaultOptionsForVersion VersionV2) <> ChecksumNone)
    by discriminate.
  assert (H3 : len (replicate 32 (byte_of_Z 0)) =
               GetChecksumSize (DefaultOptionsForVersion VersionV2)) by reflexivity.
  assert (H4 : replicate 32 (byte_of_Z 0) <>
               Hash (sum_digest 32) (sum_digest 8)
                 (Checksum (DefaultOptionsForVersion VersionV2))
                 (example_frame (bs "m") 0 0 0 0))
    by (vm_compute; discriminate).
  repeat (split; [assumption|]).
  exact (modules_header_digest_checked (sum_digest 32) (sum_digest 8) empty_npm_decoder
           VersionV2 _ _ (DefaultOptionsForVersion VersionV2) _ _ (bs "rest")
           eq_refl eq_refl H1 H2 H3 H4).
Defined.

(** X15 at the archive with an npm snapshot. *)
Lemma IntoBytes_npm_closed_witness :
  exists serialized,
    npmSnapshot (example_npm_archive false) = Some (example_snapshot false) /\
    SupportsNpm (version (example_npm_archive false)) = true /\
    IntoBytes (sum_digest 32) (sum_digest 8) insertion_sort false
      (example_npm_archive false) = Ok serialized /\
    closedSnapshot (example_snapshot false).
Proof.
  destruct (IntoBytes (sum_digest 32) (sum_digest 8) insertion_sort false
              (example_npm_archive false))
    as [serialized| |] eqn:H; [|vm_compute in H; discriminate..].
  exists serialized.
  split; [reflexivity|]. split; [reflexivity|]. split; [reflexivity|].
  exact (IntoBytes_npm_closed (sum_digest 32) (sum_digest 8) insertion_sort
           insertion_sort_perm false (example_npm_archive false)
           (example_snapshot false) serialized eq_refl eq_refl H).
Defined.
